(** * Debit_Note: the interest transformer and the reconciler

    A shallow embedding of [data_processor.py] ([clean_currency_column],
    [clean_age_column], [process_excel]), of [data_verifier.py]
    ([compare_dataframes], [get_detailed_mismatches], [get_value_comparison])
    and of the constants of [config.py].

    Modelling choices, shared by every section below:
    - a cell of a DataFrame is a Python [str] or a number; numbers are IEEE
      binary64 values (Rocq's primitive floats), a missing value is [NaN];
      an int64 or uint64 column is read as the nearest floats (the two
      arithmetics agree on integers below 2^53);
    - a [str] is its UTF-8 byte string: Python compares strings by code
      point, which is the byte-wise order of their UTF-8 encodings,
      [str.replace] of a substring is the byte-wise replacement, and
      [str.strip] removes the encodings of the Unicode white space;
    - [str()] of a number cell is a parameter ([num_text] or [num_str]),
      given per column where the code turns a column to text;
    - the library is pandas 2.x with numpy; its C number parsing runs on
      x86-64 (SSE2 binary64 arithmetic, no fused multiply-add);
    - a DataFrame is its ordered column labels and its rows, a row mapping
      each label to its cell (labels are unique, as [pd.read_excel] makes
      them); the row index is positional;
    - DataFrames are objects on a heap: [.copy()], boolean indexing and the
      other methods that return a new frame allocate one, and
      [df[c] = ...] and [df.loc[...] = ...] update the frame in place. *)

From Stdlib Require Import String Ascii ZArith Floats.
From Stdlib Require Import Structures.OrdersEx.
From stdpp Require Import base gmap strings list.

Set Warnings "-inexact-float".

(* ------------------------------------------------------------------ *)
(** ** Python text and number helpers *)

Module Py.

Local Open Scope Z_scope.

(** [str.replace(old, new)]: non-overlapping occurrences, left to right. *)
Fixpoint replace_fuel (fuel : nat) (old new s : string) : string :=
  match fuel with
  | O => s
  | S f =>
      match s with
      | EmptyString => EmptyString
      | String c rest =>
          if String.prefix old s then
            (new ++ replace_fuel f old new
                      (String.substring (String.length old)
                         (String.length s - String.length old) s))%string
          else String c (replace_fuel f old new rest)
      end
  end.

Definition str_replace (old new s : string) : string :=
  replace_fuel (S (String.length s)) old new s.

(** The white space [Py_ISSPACE] of Python's C code (and [isspace_ascii]
    of pandas' parser): the ASCII characters 9 to 13 and 32. *)
Definition is_space (c : ascii) : bool :=
  match nat_of_ascii c with
  | 32 | 9 | 10 | 11 | 12 | 13 => true
  | _ => false
  end%nat.

Fixpoint lstrip (s : string) : string :=
  match s with
  | String c rest => if is_space c then lstrip rest else s
  | EmptyString => EmptyString
  end.

Definition rev_string (s : string) : string :=
  string_of_list_ascii (rev (list_ascii_of_string s)).

(** Both ends of [s] stripped of [Py_ISSPACE] white space. *)
Definition strip_ascii (s : string) : string :=
  rev_string (lstrip (rev_string (lstrip s))).

(** ** Text as code points

    A [str] is held as its UTF-8 bytes. *)

Definition byte (c : ascii) : Z := Z.of_nat (nat_of_ascii c).

Definition byte_of (n : Z) : ascii := ascii_of_N (Z.to_N n).

(** The UTF-8 encoding of a code point. *)
Definition utf8_encode (c : Z) : list ascii :=
  if c <? 0x80 then [byte_of c]
  else if c <? 0x800 then [byte_of (0xC0 + c / 64); byte_of (0x80 + c mod 64)]
  else if c <? 0x10000 then
    [byte_of (0xE0 + c / 4096); byte_of (0x80 + (c / 64) mod 64); byte_of (0x80 + c mod 64)]
  else
    [byte_of (0xF0 + c / 262144); byte_of (0x80 + (c / 4096) mod 64);
     byte_of (0x80 + (c / 64) mod 64); byte_of (0x80 + c mod 64)].

Definition is_continuation (c : ascii) : bool := (0x80 <=? byte c) && (byte c <? 0xC0).

(** The first code point of a UTF-8 byte string and the bytes after it. A
    byte that starts no well-formed sequence (which the encoding of a [str]
    never holds) reads as U+FFFD. *)
Definition utf8_head (s : list ascii) : option (Z * list ascii) :=
  match s with
  | [] => None
  | b0 :: r =>
      let n := byte b0 in
      let '(k, v) :=
        if n <? 0x80 then (0%nat, n)
        else if (0xC0 <=? n) && (n <? 0xE0) then (1%nat, n - 0xC0)
        else if (0xE0 <=? n) && (n <? 0xF0) then (2%nat, n - 0xE0)
        else if (0xF0 <=? n) && (n <? 0xF8) then (3%nat, n - 0xF0)
        else (0%nat, 0xFFFD) in
      let cs := take k r in
      if (length cs =? k)%nat && forallb is_continuation cs
      then Some (fold_left (fun acc c => acc * 64 + (byte c - 0x80)) cs v, drop k r)
      else Some (0xFFFD, r)
  end.

Fixpoint utf8_decode_fuel (fuel : nat) (s : list ascii) : list Z :=
  match fuel with
  | O => []
  | S fuel =>
      match utf8_head s with
      | Some (c, r) => c :: utf8_decode_fuel fuel r
      | None => []
      end
  end.

(** The code points of a UTF-8 byte string. *)
Definition utf8_decode (s : list ascii) : list Z := utf8_decode_fuel (length s) s.

(** [Py_UNICODE_ISSPACE]: the code points [str.isspace()] holds for, which
    [str.strip()] removes: U+0009 to U+000D, U+001C to U+0020, U+0085,
    U+00A0, U+1680, U+2000 to U+200A, U+2028, U+2029, U+202F, U+205F and
    U+3000. *)
Definition WHITESPACE : list Z :=
  [0x09; 0x0A; 0x0B; 0x0C; 0x0D; 0x1C; 0x1D; 0x1E; 0x1F; 0x20; 0x85; 0xA0; 0x1680;
   0x2000; 0x2001; 0x2002; 0x2003; 0x2004; 0x2005; 0x2006; 0x2007; 0x2008; 0x2009;
   0x200A; 0x2028; 0x2029; 0x202F; 0x205F; 0x3000].

Definition is_unicode_space (c : Z) : bool := existsb (Z.eqb c) WHITESPACE.

Fixpoint starts_with (w s : list ascii) : bool :=
  match w, s with
  | [], _ => true
  | a :: w', b :: s' => Ascii.eqb a b && starts_with w' s'
  | _ :: _, [] => false
  end.

(** Drops from the head of [s] the byte strings of [encs] while one of them
    starts it; [fuel] bounds the steps. *)
Fixpoint drop_leading (encs : list (list ascii)) (fuel : nat) (s : list ascii) : list ascii :=
  match fuel with
  | O => s
  | S fuel =>
      match List.find (fun w => starts_with w s) encs with
      | Some w => drop_leading encs fuel (drop (length w) s)
      | None => s
      end
  end.

(** [str.strip()]: drops the white space code points at both ends. On UTF-8
    text the encoding of a code point starts (ends) the bytes exactly when
    the code point starts (ends) the text, so the bytes of the white space
    code points are dropped. *)
Definition strip (s : string) : string :=
  let encs := map utf8_encode WHITESPACE in
  let b := list_ascii_of_string s in
  let b := drop_leading encs (length b) b in
  let b := rev (drop_leading (map (@rev ascii) encs) (length b) (rev b)) in
  string_of_list_ascii b.

(** ASCII lower case, for the case-insensitive spellings of infinity. *)
Definition lower_char (c : ascii) : ascii :=
  let n := nat_of_ascii c in
  if ((65 <=? n) && (n <=? 90))%nat then ascii_of_nat (n + 32) else c.

Definition lower (s : string) : string :=
  string_of_list_ascii (map lower_char (list_ascii_of_string s)).

(** ** Decimal literals *)

(** The binary64 value nearest to [(-1)^neg * m * 10^t] (ties to even),
    computed exactly with the rounding of [SpecFloat], for [m >= 0]. Past
    10^400 the value overflows, below 10^-400 it underflows to zero. *)
Definition dec_to_float (neg : bool) (m t : Z) : float :=
  if m =? 0 then (if neg then neg_zero else zero)
  else if 400 <? t then (if neg then neg_infinity else infinity)
  else if Z.log2 m + 1 + t <? -400 then (if neg then neg_zero else zero)
  else if 0 <=? t then
    SF2Prim (binary_normalize prec emax (if neg then - (m * 10 ^ t) else m * 10 ^ t) 0 neg)
  else
    let '(mz, ez, lz) := SFdiv_core_binary prec emax m 0 (10 ^ (- t)) 0 in
    SF2Prim (binary_round_aux prec emax neg mz ez lz).

Definition is_digit (c : ascii) : bool :=
  ((48 <=? nat_of_ascii c) && (nat_of_ascii c <=? 57))%nat.

(** The run of decimal digits at the head of [s]: its value, its length
    and the rest of [s]. *)
Fixpoint take_digits (s : string) (acc : Z) (len : nat) : Z * nat * string :=
  match s with
  | String c rest =>
      if is_digit c
      then take_digits rest (acc * 10 + Z.of_nat (nat_of_ascii c - 48)) (S len)
      else (acc, len, s)
  | EmptyString => (acc, len, EmptyString)
  end.

Definition take_sign (s : string) : bool * string :=
  match s with
  | String "-" rest => (true, rest)
  | String "+" rest => (false, rest)
  | _ => (false, s)
  end.

(** [PyOS_string_to_double] on an ASCII text, with the check that it read
    the whole text: an optional sign, then [inf], [infinity] or [nan] in any
    case, or digits with an optional fraction and an optional exponent (at
    least one digit in the mantissa), read as the nearest binary64 value.
    [None] is a parse failure. *)
Definition parse_number (s : string) : option float :=
  let '(neg, s1) := take_sign s in
  let w := lower s1 in
  if String.eqb w "inf" || String.eqb w "infinity" then
    Some (if neg then neg_infinity else infinity)
  else if String.eqb w "nan" then Some nan
  else
    let '(mi, li, s2) := take_digits s1 0 0 in
    let '(m, lf, s3) :=
      match s2 with
      | String "." rest => take_digits rest mi 0
      | _ => (mi, 0%nat, s2)
      end in
    if (li + lf =? 0)%nat then None
    else
      let exp :=
        match s3 with
        | String c rest =>
            if (c =? "e")%char || (c =? "E")%char then
              let '(eneg, r1) := take_sign rest in
              let '(e, le, r2) := take_digits r1 0 0 in
              if (le =? 0)%nat then None
              else match r2 with
                   | EmptyString => Some (if eneg then - e else e)
                   | _ => None
                   end
            else None
        | EmptyString => Some 0
        end in
      match exp with
      | Some e => Some (dec_to_float neg m (e - Z.of_nat lf))
      | None => None
      end.

(** ** Python's [float()] on a [str] (Objects/floatobject.c) *)

(** [_PyUnicode_TransformDecimalAndSpaceToASCII]: a code point below 127
    is kept, a white space code point becomes a space, a decimal digit its
    ASCII digit ([decimal] is [Py_UNICODE_TODECIMAL]); any other code
    point is written as "?" and ends the text. *)
Fixpoint transform_decimal_and_space (decimal : Z -> option nat) (cps : list Z) : list ascii :=
  match cps with
  | [] => []
  | c :: cs =>
      if c <? 127 then byte_of c :: transform_decimal_and_space decimal cs
      else if is_unicode_space c then " "%char :: transform_decimal_and_space decimal cs
      else match decimal c with
           | Some d => ascii_of_nat (48 + d) :: transform_decimal_and_space decimal cs
           | None => ["?"%char]
           end
  end.

Definition NUL : ascii := "000"%char.

(** The bytes of a C string: up to the first NUL. *)
Fixpoint c_string (s : list ascii) : list ascii :=
  match s with
  | [] => []
  | c :: s' => if Ascii.eqb c NUL then [] else c :: c_string s'
  end.

(** The loop of [_Py_string_to_number_with_underscores]: an underscore
    only after a digit, only a digit after an underscore, none at the end;
    the underscores are dropped. [None] where it raises. *)
Fixpoint drop_underscores (prev : ascii) (s : list ascii) : option (list ascii) :=
  match s with
  | [] => if Ascii.eqb prev "_" then None else Some []
  | c :: s' =>
      if Ascii.eqb c "_" then
        (if is_digit prev then drop_underscores c s' else None)
      else if Ascii.eqb prev "_" && negb (is_digit c) then None
      else option_map (cons c) (drop_underscores c s')
  end.

(** [_Py_string_to_number_with_underscores]: a text without "_" (before
    its first NUL) is passed on unchanged; otherwise a NUL byte raises and
    the underscores are checked and dropped. *)
Definition with_underscores (s : list ascii) : option (list ascii) :=
  if negb (existsb (Ascii.eqb "_") (c_string s)) then Some s
  else if existsb (Ascii.eqb NUL) s then None
  else drop_underscores NUL s.

(** [float_from_string_inner]: [Py_ISSPACE] white space is stripped, an
    empty text raises, and [PyOS_string_to_double] must read all the rest. *)
Definition float_from_string_inner (s : list ascii) : option float :=
  let t := strip_ascii (string_of_list_ascii s) in
  if String.eqb t "" then None else parse_number t.

(** [float(s)] for a [str] [s]: an ASCII [str] is read as it is, another
    one through [transform_decimal_and_space]. [None] where it raises
    [ValueError]. *)
Definition float_of_str (decimal : Z -> option nat) (s : string) : option float :=
  let b := list_ascii_of_string s in
  let t := if forallb (fun c => byte c <? 0x80) b then b
           else transform_decimal_and_space decimal (utf8_decode b) in
  match with_underscores t with
  | Some u => float_from_string_inner u
  | None => None
  end.

(** ** Rounding *)

(** [numpy.rint] (round half to even): for |y| < 2^52, adding and removing
    2^52 rounds to an integer in the current (nearest-even) mode. *)
Definition two52 : float := 4503599627370496.

Definition rint (y : float) : float :=
  if negb (PrimFloat.abs y <? two52)%float then y
  else
    let r := if (y <? 0)%float then ((y - two52) + two52)%float
             else ((y + two52) - two52)%float in
    if (r =? 0)%float then (if get_sign y then neg_zero else zero) else r.

(** [Series.round(4)] on a float column is [numpy.around(x, 4)], which
    computes [rint(x * 10.0**4) / 10.0**4]. *)
Definition np_round4 (x : float) : float :=
  (rint (x * 10000) / 10000)%float.

(** Division of integers rounded half to even. *)
Definition div_half_even (a b : Z) : Z :=
  let q := a / b in
  let r := a - q * b in
  match Z.compare (2 * r) b with
  | Lt => q
  | Gt => q + 1
  | Eq => if Z.even q then q else q + 1
  end.

(** Python's [round(x, 4)] on a float: the multiple of 10^-4 nearest to the
    exact value of [x] (ties to even), read back as the nearest float. *)
Definition py_round4 (x : float) : float :=
  match Prim2SF x with
  | S754_finite s m e =>
      let q :=
        if 0 <=? e then Z.pos m * 2 ^ e * 10000
        else div_half_even (Z.pos m * 10000) (2 ^ (- e)) in
      dec_to_float s q (-4)
  | _ => x
  end.

End Py.

(* ------------------------------------------------------------------ *)
(** ** pandas' [pd.to_numeric] on text (pandas 2.x)

    [pd.to_numeric(series, errors="coerce")] on a column of [str] runs
    [maybe_convert_numeric] (pandas/_libs/lib.pyx), which reads each text
    with [floatify] (parse_helper.h), itself [precise_xstrtod]
    (tokenizer.c) on the UTF-8 bytes of the text. The C code is modelled as
    compiled for x86-64: binary64 arithmetic without fused multiply-add,
    and [int] arithmetic wrapping at 32 bits. *)

Module Pd.

Local Open Scope Z_scope.

Definition digit (c : ascii) : Z := Py.byte c - 48.

(** The digit's value as a double. *)
Definition float_of_digit (d : Z) : float :=
  match d with
  | 1 => 1 | 2 => 2 | 3 => 3 | 4 => 4 | 5 => 5 | 6 => 6 | 7 => 7 | 8 => 8 | 9 => 9
  | _ => 0
  end%float.

(** C [int] arithmetic. *)
Definition wrap32 (z : Z) : Z := (z + 2 ^ 31) mod 2 ^ 32 - 2 ^ 31.

(** [e[k]]: the table of the double literals [1e0] to [1e308]. *)
Definition e (k : Z) : float := Py.dec_to_float false 1 k.

Definition max_digits : Z := 17.

Fixpoint skip_spaces (p : list ascii) : list ascii :=
  match p with
  | c :: p' => if Py.is_space c then skip_spaces p' else p
  | [] => []
  end.

(** The digits before the decimal point: the first [max_digits] accumulate
    into [number], each later one increments [exponent]. *)
Fixpoint int_digits (p : list ascii) (number : float) (num_digits exponent : Z)
    : float * Z * Z * list ascii :=
  match p with
  | c :: p' =>
      if Py.is_digit c then
        if num_digits <? max_digits
        then int_digits p' (number * 10 + float_of_digit (digit c))%float (num_digits + 1) exponent
        else int_digits p' number num_digits (wrap32 (exponent + 1))
      else (number, num_digits, exponent, p)
  | [] => (number, num_digits, exponent, [])
  end.

(** The digits after the decimal point, while fewer than [max_digits]
    digits have been read. *)
Fixpoint frac_digits (p : list ascii) (number : float) (num_digits num_decimals : Z)
    : float * Z * Z * list ascii :=
  match p with
  | c :: p' =>
      if (num_digits <? max_digits) && Py.is_digit c
      then frac_digits p' (number * 10 + float_of_digit (digit c))%float
             (num_digits + 1) (num_decimals + 1)
      else (number, num_digits, num_decimals, p)
  | [] => (number, num_digits, num_decimals, [])
  end.

Fixpoint skip_digits (p : list ascii) : list ascii :=
  match p with
  | c :: p' => if Py.is_digit c then skip_digits p' else p
  | [] => []
  end.

(** The digits of the exponent, at most [max_digits] of them. *)
Fixpoint exp_digits (p : list ascii) (n num_digits : Z) : Z * Z * list ascii :=
  match p with
  | c :: p' =>
      if (num_digits <? max_digits) && Py.is_digit c
      then exp_digits p' (wrap32 (n * 10 + digit c)) (num_digits + 1)
      else (n, num_digits, p)
  | [] => (n, num_digits, [])
  end.

(** [precise_xstrtod(str, &endptr, '.', 'E', '\0', 1, &error, &maybe_int)]:
    the value, the bytes from [endptr] on, whether [error] was set, and
    [maybe_int]. *)
Definition precise_xstrtod (str : list ascii) : float * list ascii * bool * bool :=
  let p := skip_spaces str in
  let '(negative, p) :=
    match p with
    | "-"%char :: p' => (true, p')
    | "+"%char :: p' => (false, p')
    | _ => (false, p)
    end in
  let '(number, num_digits, exponent, p) := int_digits p 0%float 0 0 in
  let '(maybe_int, number, num_digits, exponent, p) :=
    match p with
    | "."%char :: p' =>
        let '(number, num_digits, num_decimals, p) := frac_digits p' number num_digits 0 in
        let p := if max_digits <=? num_digits then skip_digits p else p in
        (false, number, num_digits, wrap32 (exponent - num_decimals), p)
    | _ => (true, number, num_digits, exponent, p)
    end in
  if num_digits =? 0 then (0%float, p, true, maybe_int)
  else
    let number := if negative then (- number)%float else number in
    let '(maybe_int, exponent, p) :=
      match p with
      | c :: p1 =>
          if Ascii.eqb c "e" || Ascii.eqb c "E" then
            let '(negative, signed, p2) :=
              match p1 with
              | "-"%char :: p2 => (true, true, p2)
              | "+"%char :: p2 => (false, true, p2)
              | _ => (false, false, p1)
              end in
            let '(n, num_digits, p3) := exp_digits p2 0 0 in
            let exponent := if negative then wrap32 (exponent - n) else wrap32 (exponent + n) in
            (* with no digit after the 'e', [p--] steps back one byte *)
            (false, exponent, if num_digits =? 0 then (if signed then p1 else p) else p3)
          else (maybe_int, exponent, p)
      | [] => (maybe_int, exponent, [])
      end in
    if 308 <? exponent then (infinity, p, true, maybe_int)
    else
      let number :=
        if 0 <? exponent then (number * e exponent)%float
        else if exponent <? -308 then
          (if exponent <? -616 then 0%float
           else ((number / e (-308 - exponent)) / e 308)%float)
        else (number / e (- exponent))%float in
      let error := ((number =? infinity) || (number =? neg_infinity))%float in
      (number, skip_spaces p, error, maybe_int).

(** [to_double]: the value and [maybe_int] when no error was set and the
    whole text was read. *)
Definition to_double (data : list ascii) : option (float * bool) :=
  match precise_xstrtod data with
  | (x, [], false, maybe_int) => Some (x, maybe_int)
  | _ => None
  end.

(** [floatify] on a [str]: its UTF-8 bytes as a C string, then [to_double],
    then the spellings of infinity compared with [strcasecmp]. [None] where
    it raises [ValueError]. *)
Definition floatify (s : string) : option (float * bool) :=
  let data := Py.c_string (list_ascii_of_string s) in
  match to_double data with
  | Some r => Some r
  | None =>
      let l := Py.lower (string_of_list_ascii data) in
      match length data with
      | 3 => if String.eqb l "inf" then Some (infinity, false) else None
      | 4 =>
          if String.eqb l "-inf" then Some (neg_infinity, false)
          else if String.eqb l "+inf" then Some (infinity, false) else None
      | 8 => if String.eqb l "infinity" then Some (infinity, false) else None
      | 9 =>
          if String.eqb l "-infinity" then Some (neg_infinity, false)
          else if String.eqb l "+infinity" then Some (infinity, false) else None
      | _ => None
      end%nat
  end.

(** [int(val)] of a text [floatify] read with [maybe_int] set, which is
    white space, an optional sign and digits: its value, or [None] when the
    [str] holds a NUL byte (past the C string [floatify] read), which
    [int()] rejects. *)
Definition int_of_text (s : string) : option Z :=
  let b := list_ascii_of_string s in
  if existsb (Ascii.eqb Py.NUL) b then None
  else
    let '(neg, p) := Py.take_sign (string_of_list_ascii (skip_spaces b)) in
    let '(v, _, _) := Py.take_digits p 0 0 in
    Some (if neg then - v else v).

(** One element of [maybe_convert_numeric]: missing (the text raised),
    a float, or an int with the float [floatify] read. *)
Inductive converted :=
| Null
| Float (x : float)
| Int (x : float) (n : Z).

Definition convert (s : string) : converted :=
  match floatify s with
  | None => Null
  | Some (x, false) => Float x
  | Some (x, true) =>
      match int_of_text s with
      | Some n => Int x n
      | None => Null
      end
  end.

Definition INT64_MIN : Z := - 2 ^ 63.
Definition INT64_MAX : Z := 2 ^ 63 - 1.
Definition UINT64_MAX : Z := 2 ^ 64 - 1.

(** [maybe_convert_numeric(values, set(), coerce_numeric=True)]: a float64
    column (a missing value is NaN) when one element is missing or a float,
    an int is out of the int64 and uint64 ranges, or the ints are both
    negative and above the int64 range ([seen.float_]); else the ints,
    as an int64 or uint64 column, read here as floats. *)
Definition maybe_convert_numeric (vals : list string) : list float :=
  let cs := map convert vals in
  let sint := existsb (fun c => match c with
                                | Int _ n => (INT64_MIN <=? n) && (n <? 0)
                                | _ => false end) cs in
  let uint := existsb (fun c => match c with
                                | Int _ n => (INT64_MAX <? n) && (n <=? UINT64_MAX)
                                | _ => false end) cs in
  let float_ := existsb (fun c => match c with
                                  | Int _ n => (n <? INT64_MIN) || (UINT64_MAX <? n)
                                  | _ => true end) cs || (sint && uint) in
  if float_ then map (fun c => match c with Null => nan | Float x => x | Int x _ => x end) cs
  else map (fun c => match c with Int _ n => Py.dec_to_float (n <? 0) (Z.abs n) 0 | _ => nan end) cs.

End Pd.

(* ------------------------------------------------------------------ *)
(** ** Cells, rows and DataFrames *)

Inductive cell :=
| Str (s : string)
| Num (x : float).

Definition NaN : cell := Num nan.

#[global] Instance cell_inhabited : Inhabited cell := populate NaN.

Definition is_na (v : cell) : bool :=
  match v with Num x => is_nan x | Str _ => false end.

Abbreviation row := (gmap string cell).

Record frame := Frame { columns : list string; rows : list row }.

(** Reading a cell of a row; a label absent from a row reads as missing. *)
Definition cell_at (r : row) (c : string) : cell := default NaN (r !! c).

(** The exceptions the modelled code can raise. *)
Inductive exn :=
| KeyError (label : string)
| TypeError
| ValueError
| IndexError
(** a reference to no object: never raised on a well-formed heap *)
| Dangling.

Notation "'let!' x := m 'in' k" :=
  (match m with inl e => inl e | inr x => k end)
  (at level 200, x name, m at level 100, k at level 200).

Definition mapE {A B} (g : A -> exn + B) : list A -> exn + list B :=
  fix go l :=
    match l with
    | [] => inr []
    | x :: l' => let! y := g x in let! ys := go l' in inr (y :: ys)
    end.

(** *** Frame operations *)

(** [df[c]]: the column as a list of cells, [KeyError] for an unknown label. *)
Definition get_col (f : frame) (c : string) : exn + list cell :=
  if bool_decide (c ∈ columns f)
  then inr (map (fun r => cell_at r c) (rows f))
  else inl (KeyError c).

Definition add_label (c : string) (cs : list string) : list string :=
  if bool_decide (c ∈ cs) then cs else cs ++ [c].

(** [df[c] = values]: replaces the column, or appends it as the last one. *)
Definition assign (c : string) (vals : list cell) (f : frame) : frame :=
  Frame (add_label c (columns f)) (zip_with (fun (r : row) v => <[c:=v]> r) (rows f) vals).

(** [df.loc[mask, c] = v]. *)
Definition loc_set (mask : list bool) (c : string) (v : cell) (f : frame) : frame :=
  Frame (add_label c (columns f))
    (zip_with (fun (r : row) (b : bool) => if b then <[c:=v]> r else r) (rows f) mask).

Fixpoint mask_rows (rs : list row) (mask : list bool) : list row :=
  match rs, mask with
  | r :: rs', b :: mask' => if b then r :: mask_rows rs' mask' else mask_rows rs' mask'
  | _, _ => []
  end.

(** [df[mask]]: the rows where the boolean mask holds. *)
Definition take_rows (mask : list bool) (f : frame) : frame :=
  Frame (columns f) (mask_rows (rows f) mask).

(** [df.drop(columns=cs)]: [KeyError] for a label the frame lacks. *)
Definition drop_cols (cs : list string) (f : frame) : exn + frame :=
  match list_find (fun c => c ∉ columns f) cs with
  | Some (_, c) => inl (KeyError c)
  | None =>
      inr (Frame (filter (fun c => c ∉ cs) (columns f))
             (map (fun r : row => filter (fun kv : string * cell => kv.1 ∉ cs) r) (rows f)))
  end.

(** [df[cs]] for a list of labels: the frame restricted to [cs], in the
    order of [cs]; [KeyError] for a label the frame lacks. *)
Definition select (cs : list string) (f : frame) : exn + frame :=
  match list_find (fun c => c ∉ columns f) cs with
  | Some (_, c) => inl (KeyError c)
  | None =>
      inr (Frame cs (map (fun r : row => filter (fun kv : string * cell => kv.1 ∈ cs) r) (rows f)))
  end.

(** *** Element-wise column operations *)

(** [series == s] for a string [s]. *)
Definition eq_str (col : list cell) (s : string) : list bool :=
  map (fun v => match v with Str t => String.eqb t s | Num _ => false end) col.

(** Arithmetic on a numeric cell; a [str] raises [TypeError]. *)
Definition num_unop (op : float -> float) (v : cell) : exn + cell :=
  match v with Num x => inr (Num (op x)) | Str _ => inl TypeError end.

Definition num_binop (op : float -> float -> float) (a b : cell) : exn + cell :=
  match a, b with Num x, Num y => inr (Num (op x y)) | _, _ => inl TypeError end.

Definition col_binop (op : float -> float -> float) (xs ys : list cell) : exn + list cell :=
  mapE (fun p => num_binop op p.1 p.2) (zip xs ys).

(** [series > x]. *)
Definition gt_scalar (col : list cell) (x : float) : exn + list bool :=
  mapE (fun v => match v with Num a => inr (x <? a)%float | Str _ => inl TypeError end) col.

(** [series.clip(lower=0)]: keeps values [>= 0] and missing ones. *)
Definition clip0 (x : float) : float := if (x <? 0)%float then zero else x.

(** [series.fillna(0)]. *)
Definition fillna0 (col : list cell) : list cell :=
  map (fun v => if is_na v then Num 0 else v) col.

(** *** Cleaning (data_processor.py, lines 7-27) *)

(** [pd.to_numeric(cleaned, errors="coerce")] on a column of [str]. *)
Definition to_numeric (vals : list string) : list cell :=
  map Num (Pd.maybe_convert_numeric vals).

(** [series.astype(str)] on one cell. A number cell holds the value of a
    Python int or float, whose [str()] depends on the column: ["5"] for an
    int, ["5.0"] for a float, ["nan"] for a missing value. [nt] is that
    rendering for the column at hand. *)
Definition astype_str (nt : float -> string) (v : cell) : string :=
  match v with Str s => s | Num x => nt x end.

(** The text [clean_currency_column] removes as the rupee symbol: the
    source file holds the three characters U+00E2 U+201A U+00B9 (the UTF-8
    bytes of U+20B9 read as cp1252), here in UTF-8. *)
Definition RUPEE_IN_SOURCE : string := "â‚¹".

Definition clean_currency_text (nt : float -> string) (v : cell) : string :=
  Py.strip (Py.str_replace "," "" (Py.str_replace RUPEE_IN_SOURCE "" (astype_str nt v))).

Definition clean_currency_column (nt : float -> string) (series : list cell) : list cell :=
  to_numeric (map (clean_currency_text nt) series).

Definition clean_age_text (nt : float -> string) (v : cell) : string :=
  Py.strip (Py.str_replace " Days" "" (astype_str nt v)).

Definition clean_age_column (nt : float -> string) (series : list cell) : list cell :=
  to_numeric (map (clean_age_text nt) series).

(* ------------------------------------------------------------------ *)
(** ** Sorting: [DataFrame.sort_values] on one column

    [sort_values("Customer Name")] uses the default [kind="quicksort"]:
    pandas' [nargsort] sets the missing values aside, argsorts the others
    with numpy, and appends the missing ones in their order. A column of
    text has dtype [object], which numpy argsorts with its generic
    [npy_aquicksort] (an introsort: median-of-three quicksort, insertion
    sort on slices of at most 17 elements, heapsort [npy_aheapsort] past
    the depth limit), comparing with [OBJECT_compare]. A column of numbers
    is argsorted here by the same algorithm with [<] on floats. *)

(** [OBJECT_compare]: Python's [<] then [>]; [None] when Python raises
    (a [str] against a number). *)
Definition obj_cmp (a b : cell) : option comparison :=
  match a, b with
  | Str s, Str t => Some (String.compare s t)
  | Num x, Num y => Some (if (x <? y)%float then Lt else if (y <? x)%float then Gt else Eq)
  | _, _ => None
  end.

Module NpSort.

(** The array [tosort] of element numbers, and Python's error indicator:
    once a comparison has raised, [OBJECT_compare] returns 0 for every later
    one and [argsort] raises when the sort is over. *)
Record st := St { arr : list nat; failed : bool }.

Section Sort.

Variable keys : list cell.

Definition get (s : st) (i : nat) : nat := arr s !!! i.
Definition set (s : st) (i v : nat) : st := St (<[i:=v]> (arr s)) (failed s).

(** [INTP_SWAP]. *)
Definition swap (s : st) (i j : nat) : st :=
  let a := get s i in
  let b := get s j in
  set (set s j a) i b.

(** [cmp(v + a*elsize, v + b*elsize, arr) < 0]. *)
Definition less (s : st) (a b : nat) : st * bool :=
  if failed s then (s, false)
  else match obj_cmp (keys !!! a) (keys !!! b) with
       | None => (St (arr s) true, false)
       | Some Lt => (s, true)
       | Some _ => (s, false)
       end.

(** Loops run on fuel; [length keys] bounds every one of them. *)
Definition fuel : nat := S (length keys).

(** [do ++pi; while (cmp(v[*pi], vp) < 0);] *)
Fixpoint scan_up (n : nat) (s : st) (pi vp : nat) : st * nat :=
  match n with
  | O => (s, pi)
  | S n' =>
      let '(s', b) := less s (get s (S pi)) vp in
      if b then scan_up n' s' (S pi) vp else (s', S pi)
  end.

(** [do --pj; while (cmp(vp, v[*pj]) < 0);] *)
Fixpoint scan_down (n : nat) (s : st) (pj vp : nat) : st * nat :=
  match n with
  | O => (s, pj)
  | S n' =>
      let '(s', b) := less s vp (get s (pj - 1)) in
      if b then scan_down n' s' (pj - 1) vp else (s', pj - 1)
  end.

(** The partition loop: [for (;;) { scan up; scan down; if (pi >= pj)
    break; swap the two slots; }], returning [pi]. *)
Fixpoint part_loop (n : nat) (s : st) (pi pj vp : nat) : st * nat :=
  match n with
  | O => (s, pi)
  | S n' =>
      let '(s1, pi1) := scan_up fuel s pi vp in
      let '(s2, pj1) := scan_down fuel s1 pj vp in
      if pj1 <=? pi1 then (s2, pi1) else part_loop n' (swap s2 pi1 pj1) pi1 pj1 vp
  end.

(** One quicksort partition of [pl..pr]: median of three, pivot parked at
    [pr - 1], partition, pivot moved to its place [pi]. *)
Definition partition (s : st) (pl pr : nat) : st * nat :=
  let pm := pl + Nat.div2 (pr - pl) in
  let '(s, b) := less s (get s pm) (get s pl) in
  let s := if b then swap s pm pl else s in
  let '(s, b) := less s (get s pr) (get s pm) in
  let s := if b then swap s pr pm else s in
  let '(s, b) := less s (get s pm) (get s pl) in
  let s := if b then swap s pm pl else s in
  let vp := get s pm in
  let s := swap s pm (pr - 1) in
  let '(s, pi) := part_loop fuel s pl (pr - 1) vp in
  (swap s pi (pr - 1), pi).

(** [while ((pr - pl) > SMALL_QUICKSORT) { partition; push the larger part
    with depth [--cdepth]; continue on the smaller one }], [SMALL_QUICKSORT]
    being 16. A slice [pl..pr] with [pr = pl - 1] is empty. *)
Fixpoint part_while (n : nat) (s : st) (pl pr : nat) (cdepth : Z)
    (stack : list (nat * nat * Z)) : st * nat * nat * list (nat * nat * Z) :=
  match n with
  | O => (s, pl, pr, stack)
  | S n' =>
      if 16 <? pr - pl then
        let '(s, pi) := partition s pl pr in
        let cdepth := (cdepth - 1)%Z in
        if pi - pl <? pr - pi
        then part_while n' s pl (pi - 1) cdepth ((S pi, pr, cdepth) :: stack)
        else part_while n' s (S pi) pr cdepth ((pl, pi - 1, cdepth) :: stack)
      else (s, pl, pr, stack)
  end.

(** Insertion sort of [pl..pr]: [vi = *pi; pj = pi; while (pj > pl &&
    cmp(v[vi], v[*(pj-1)]) < 0) { *pj = *(pj-1); pj--; } *pj = vi;]. *)
Fixpoint ins_shift (n : nat) (s : st) (pl pj vi : nat) : st * nat :=
  match n with
  | O => (s, pj)
  | S n' =>
      if pl <? pj then
        let '(s', b) := less s vi (get s (pj - 1)) in
        if b then ins_shift n' (set s' pj (get s' (pj - 1))) pl (pj - 1) vi
        else (s', pj)
      else (s, pj)
  end.

Fixpoint ins_for (k : nat) (s : st) (pl pi : nat) : st :=
  match k with
  | O => s
  | S k' =>
      let vi := get s pi in
      let '(s, pj) := ins_shift fuel s pl pi vi in
      ins_for k' (set s pj vi) pl (S pi)
  end.

Definition insertion (s : st) (pl pr : nat) : st := ins_for (pr - pl) s pl (S pl).

(** [npy_aheapsort] on the [cnt] elements from [pl]: the heap is
    1-based, [a[i]] being [tosort[pl + i - 1]]. *)
Definition hget (s : st) (pl i : nat) : nat := get s (pl + i - 1).
Definition hset (s : st) (pl i v : nat) : st := set s (pl + i - 1) v.

(** [for (; j <= n;) { if (j < n && cmp(a[j], a[j+1]) < 0) j += 1;
    if (cmp(tmp, a[j]) < 0) { a[i] = a[j]; i = j; j += j; } else break; }] *)
Fixpoint sift (k : nat) (s : st) (pl n i j tmp : nat) : st * nat :=
  match k with
  | O => (s, i)
  | S k' =>
      if j <=? n then
        let '(s, j) :=
          if j <? n then
            let '(s, b) := less s (hget s pl j) (hget s pl (S j)) in
            (s, if b then S j else j)
          else (s, j) in
        let '(s, b) := less s tmp (hget s pl j) in
        if b then sift k' (hset s pl i (hget s pl j)) pl n j (j + j) tmp
        else (s, i)
      else (s, i)
  end.

(** [for (l = n >> 1; l > 0; --l) { tmp = a[l]; sift; a[i] = tmp; }] *)
Fixpoint heapify (k : nat) (s : st) (pl n l : nat) : st :=
  match k with
  | O => s
  | S k' =>
      let tmp := hget s pl l in
      let '(s, i) := sift fuel s pl n l (l + l) tmp in
      heapify k' (hset s pl i tmp) pl n (l - 1)
  end.

(** [for (; n > 1;) { tmp = a[n]; a[n] = a[1]; n -= 1; sift from 1;
    a[i] = tmp; }] *)
Fixpoint extract (k : nat) (s : st) (pl n : nat) : st :=
  match k with
  | O => s
  | S k' =>
      if 1 <? n then
        let tmp := hget s pl n in
        let s := hset s pl n (hget s pl 1) in
        let '(s, i) := sift fuel s pl (n - 1) 1 2 tmp in
        extract k' (hset s pl i tmp) pl (n - 1)
      else s
  end.

Definition aheapsort (s : st) (pl cnt : nat) : st :=
  extract cnt (heapify (Nat.div2 cnt) s pl cnt (Nat.div2 cnt)) pl cnt.

(** The outer [for (;;)]: heapsort the slice when the depth limit is
    passed, otherwise partition it down and insertion-sort the rest; then
    pop the next slice. *)
Fixpoint qs_loop (n : nat) (s : st) (pl pr : nat) (cdepth : Z)
    (stack : list (nat * nat * Z)) : st :=
  match n with
  | O => s
  | S n' =>
      let '(s, stack) :=
        if (cdepth <? 0)%Z then (aheapsort s pl (S pr - pl), stack)
        else
          let '(s, pl, pr, stack) := part_while fuel s pl pr cdepth stack in
          (insertion s pl pr, stack) in
      match stack with
      | [] => s
      | (l, r, d) :: stack' => qs_loop n' s l r d stack'
      end
  end.

(** [npy_aquicksort] on [tosort = 0 .. m-1], depth limit [2 * msb(m)]. *)
Definition aquicksort : st :=
  let m := length keys in
  qs_loop fuel (St (seq 0 m) false) 0 (m - 1) (2 * Z.log2 (Z.of_nat m))%Z [].

End Sort.
End NpSort.

(** pandas' [nargsort]: the order of the rows, or [TypeError]. *)
Definition nargsort (col : list cell) : exn + list nat :=
  let idx := seq 0 (length col) in
  let non_nan_idx := filter (fun i => is_na (col !!! i) = false) idx in
  let nan_idx := filter (fun i => is_na (col !!! i) = true) idx in
  let items := map (fun i => col !!! i) non_nan_idx in
  let s := NpSort.aquicksort items in
  if NpSort.failed s then inl TypeError
  else inr (map (fun p => non_nan_idx !!! p) (NpSort.arr s) ++ nan_idx).

(** [df.sort_values(c).reset_index(drop=True)]. *)
Definition sort_values (c : string) (f : frame) : exn + frame :=
  let! col := get_col f c in
  let! order := nargsort col in
  inr (Frame (columns f) (map (fun i => rows f !!! i) order)).

(* ------------------------------------------------------------------ *)
(** ** config.py *)

Definition COLUMNS_TO_DROP : list string := ["Sales person"; "Sale Person"].

Definition FINAL_COLUMNS : list string :=
  ["Region"; "Area Name"; "Market"; "Customer Name"; "Customer Number"; "DATE";
   "Transaction#"; "Type"; "Status"; "Due Date"; "Amount"; "Balance Due"; "Age";
   "Due days"; "Previous interst"; "interst working"; "per day interst%";
   "working interst in %"; "interest amount"].

Definition REQUIRED_INPUT_COLUMNS : list string :=
  ["Region"; "Area Name"; "Market"; "Customer Name"; "Customer Number"; "DATE";
   "Transaction#"; "Type"; "Status"; "Due Date"; "Amount"; "Balance Due"; "Age"].

(* ------------------------------------------------------------------ *)
(** ** process_excel, on the frame values (data_processor.py, lines 30-103)

    The frame [df_filtered] of the source, step by step; [copy()] and the
    in-place updates are the subject of the heap model further down, which
    runs the same steps and is shown to compute this frame. [num_text c]
    is [str()] of the numbers of the column [c] of [df] (see [astype_str]). *)

Definition process_excel_frame (num_text : string -> float -> string) (df : frame)
    (due_days daily_rate working_days ob_age : float) : exn + frame :=
  (* df_filtered = df[df["Status"] == "Overdue"].copy() *)
  let! status := get_col df "Status" in
  let f := take_rows (eq_str status "Overdue") df in
  (* df_filtered.drop(columns=[col for col in COLUMNS_TO_DROP if present]) *)
  let! f := drop_cols (filter (fun c => c ∈ columns f) COLUMNS_TO_DROP) f in
  (* Balance Due, Amount, Age cleaned *)
  let! bd := get_col f "Balance Due" in
  let f := assign "Balance Due" (fillna0 (clean_currency_column (num_text "Balance Due") bd)) f in
  let! am := get_col f "Amount" in
  let f := assign "Amount" (clean_currency_column (num_text "Amount") am) f in
  let! age := get_col f "Age" in
  let f := assign "Age" (clean_age_column (num_text "Age") age) f in
  (* df_filtered.loc[df_filtered["Type"] == "Customer Opening Balance", "Age"] = ob_age *)
  let! ty := get_col f "Type" in
  let f := loc_set (eq_str ty "Customer Opening Balance") "Age" (Num ob_age) f in
  (* df_filtered = df_filtered[df_filtered["Age"] > due_days].copy() *)
  let! age := get_col f "Age" in
  let! keep := gt_scalar age due_days in
  let f := take_rows keep f in
  (* df_filtered.sort_values("Customer Name").reset_index(drop=True) *)
  let! f := sort_values "Customer Name" f in
  (* df_filtered["Due days"] = due_days *)
  let f := assign "Due days" (replicate (length (rows f)) (Num due_days)) f in
  (* df_filtered["interst working"] = df_filtered["Age"] - due_days *)
  let! age := get_col f "Age" in
  let! iw := mapE (num_unop (fun a => a - due_days)%float) age in
  let f := assign "interst working" iw f in
  (* df_filtered["Previous interst"] = (Age - due_days - interst working).clip(lower=0) *)
  let! age := get_col f "Age" in
  let! d := mapE (num_unop (fun a => a - due_days)%float) age in
  let! iw := get_col f "interst working" in
  let! p := col_binop (fun x y => x - y)%float d iw in
  let! p := mapE (num_unop clip0) p in
  let f := assign "Previous interst" p f in
  (* df_filtered["per day interst%"] = daily_rate *)
  let f := assign "per day interst%" (replicate (length (rows f)) (Num daily_rate)) f in
  (* df_filtered["working interst in %"] = df_filtered["interst working"] * daily_rate *)
  let! iw := get_col f "interst working" in
  let! wi := mapE (num_unop (fun x => x * daily_rate)%float) iw in
  let f := assign "working interst in %" wi f in
  (* df_filtered["interest amount"] = Balance Due * (working interst in % / 100) *)
  let! bd := get_col f "Balance Due" in
  let! wi := get_col f "working interst in %" in
  let! w100 := mapE (num_unop (fun x => x / 100)%float) wi in
  let! ia := col_binop (fun x y => x * y)%float bd w100 in
  let f := assign "interest amount" ia f in
  (* df_filtered["interest amount"] = df_filtered["interest amount"].round(4) *)
  let! ia := get_col f "interest amount" in
  let! ia := mapE (num_unop Py.np_round4) ia in
  let f := assign "interest amount" ia f in
  (* return df_filtered[FINAL_COLUMNS] *)
  select FINAL_COLUMNS f.

(* ------------------------------------------------------------------ *)
(** ** DataFrames as shared objects

    The heap of DataFrame objects. A variable of the source holds a
    reference; the operations that return a new DataFrame allocate it, the
    assignments [df[c] = ...] and [df.loc[...] = ...] overwrite the object
    in place. *)

Record heap := Heap { next_id : nat; objs : gmap nat frame }.

(** Every allocated object lies below [next_id]. *)
Definition heap_wf (h : heap) : Prop := forall p f, objs h !! p = Some f -> p < next_id h.

Definition M (A : Type) : Type := heap -> exn + (A * heap).

#[global] Instance M_ret : MRet M := fun A a h => inr (a, h).
#[global] Instance M_bind : MBind M := fun A B k m h =>
  match m h with inl e => inl e | inr (a, h') => k a h' end.

Definition raise {A} (e : exn) : M A := fun _ => inl e.

Definition lift {A} (r : exn + A) : M A :=
  fun h => match r with inl e => inl e | inr a => inr (a, h) end.

Definition deref (p : nat) : M frame :=
  fun h => match objs h !! p with Some f => inr (f, h) | None => inl Dangling end.

Definition alloc (f : frame) : M nat :=
  fun h => inr (next_id h, Heap (S (next_id h)) (<[next_id h := f]> (objs h))).

Definition store (p : nat) (f : frame) : M unit :=
  fun h => inr (tt, Heap (next_id h) (<[p := f]> (objs h))).

(** Overwrites the object [p] with [g] of its current value. *)
Definition update (p : nat) (g : frame -> frame) : M unit :=
  f ← deref p; store p (g f).

(** [df[c]] *)
Definition getitem (p : nat) (c : string) : M (list cell) :=
  f ← deref p; lift (get_col f c).

(** [df[c] = vals] *)
Definition setitem (p : nat) (c : string) (vals : list cell) : M unit :=
  update p (assign c vals).

(** [df.loc[mask, c] = v] *)
Definition loc_setitem (p : nat) (mask : list bool) (c : string) (v : cell) : M unit :=
  update p (loc_set mask c v).

(** [df[mask]]: a new frame. *)
Definition mask_index (p : nat) (mask : list bool) : M nat :=
  f ← deref p; alloc (take_rows mask f).

(** [df.copy()] *)
Definition copy (p : nat) : M nat :=
  f ← deref p; alloc f.

(** [df.drop(columns=cs)]: a new frame. *)
Definition drop (p : nat) (cs : list string) : M nat :=
  f ← deref p; f' ← lift (drop_cols cs f); alloc f'.

(** [df.sort_values(c)]: a new frame. *)
Definition sort_values_obj (p : nat) (c : string) : M nat :=
  f ← deref p; f' ← lift (sort_values c f); alloc f'.

(** [df.reset_index(drop=True)]: a new frame (the index is positional
    in this model). *)
Definition reset_index (p : nat) : M nat := copy p.

(** [df[cs]] for a list of labels: a new frame. *)
Definition select_obj (p : nat) (cs : list string) : M nat :=
  f ← deref p; f' ← lift (select cs f); alloc f'.

Definition nrows (p : nat) : M nat :=
  f ← deref p; mret (length (rows f)).

Definition labels (p : nat) : M (list string) :=
  f ← deref p; mret (columns f).

(** *** process_excel (data_processor.py, lines 30-103) *)

Definition process_excel (num_text : string -> float -> string) (df : nat) (due_days daily_rate working_days ob_age : float) : M nat :=
  status ← getitem df "Status";
  t ← mask_index df (eq_str status "Overdue");
  df_filtered ← copy t;
  cs ← labels df_filtered;
  df_filtered ← drop df_filtered (filter (fun c => c ∈ cs) COLUMNS_TO_DROP);
  bd ← getitem df_filtered "Balance Due";
  setitem df_filtered "Balance Due" (fillna0 (clean_currency_column (num_text "Balance Due") bd));;
  am ← getitem df_filtered "Amount";
  setitem df_filtered "Amount" (clean_currency_column (num_text "Amount") am);;
  age ← getitem df_filtered "Age";
  setitem df_filtered "Age" (clean_age_column (num_text "Age") age);;
  ty ← getitem df_filtered "Type";
  loc_setitem df_filtered (eq_str ty "Customer Opening Balance") "Age" (Num ob_age);;
  age ← getitem df_filtered "Age";
  keep ← lift (gt_scalar age due_days);
  t ← mask_index df_filtered keep;
  df_filtered ← copy t;
  t ← sort_values_obj df_filtered "Customer Name";
  df_filtered ← reset_index t;
  n ← nrows df_filtered;
  setitem df_filtered "Due days" (replicate n (Num due_days));;
  age ← getitem df_filtered "Age";
  iw ← lift (mapE (num_unop (fun a => a - due_days)%float) age);
  setitem df_filtered "interst working" iw;;
  age ← getitem df_filtered "Age";
  d ← lift (mapE (num_unop (fun a => a - due_days)%float) age);
  iw ← getitem df_filtered "interst working";
  p ← lift (col_binop (fun x y => x - y)%float d iw);
  p ← lift (mapE (num_unop clip0) p);
  setitem df_filtered "Previous interst" p;;
  n ← nrows df_filtered;
  setitem df_filtered "per day interst%" (replicate n (Num daily_rate));;
  iw ← getitem df_filtered "interst working";
  wi ← lift (mapE (num_unop (fun x => x * daily_rate)%float) iw);
  setitem df_filtered "working interst in %" wi;;
  bd ← getitem df_filtered "Balance Due";
  wi ← getitem df_filtered "working interst in %";
  w100 ← lift (mapE (num_unop (fun x => x / 100)%float) wi);
  ia ← lift (col_binop (fun x y => x * y)%float bd w100);
  setitem df_filtered "interest amount" ia;;
  ia ← getitem df_filtered "interest amount";
  ia ← lift (mapE (num_unop Py.np_round4) ia);
  setitem df_filtered "interest amount" ia;;
  select_obj df_filtered FINAL_COLUMNS.

(* ------------------------------------------------------------------ *)
(** ** data_verifier.py *)

(** Python's [==] between cells: text with text, number with number. A
    NaN is unequal to everything: Python's sets and [in] test identity
    before [==], and the NaN scalars read out of a float64 column are fresh
    objects on every read, so two reads of NaN never match. *)
Definition py_eq (a b : cell) : bool :=
  match a, b with
  | Str s, Str t => String.eqb s t
  | Num x, Num y => (x =? y)%float
  | _, _ => false
  end.

(** [series.unique()]: first occurrences, all the NaNs counting as one. *)
Fixpoint unique_acc (acc : list cell) (l : list cell) : list cell :=
  match l with
  | [] => rev acc
  | x :: l' =>
      if existsb (fun y => py_eq x y || (is_na x && is_na y)) acc
      then unique_acc acc l' else unique_acc (x :: acc) l'
  end.

Definition unique (l : list cell) : list cell := unique_acc [] l.

(** [list(set(xs) - set(ys))] for duplicate-free [xs]; Python lists a set
    in hash order, here the order of [xs] is kept. *)
Definition set_diff (xs ys : list cell) : list cell :=
  filter (fun x => negb (existsb (py_eq x) ys)) xs.

(** [len(x) if x else 0] for a list or [None]. *)
Definition len_or_zero (x : option (list cell)) : nat :=
  match x with Some l => length l | None => 0 end.

(** The dictionary returned by [compare_dataframes]; [value_mismatches] is
    always [[]] and is left out. *)
Record comparison := Comparison {
  rc_processed_rows : nat;
  rc_expected_rows : nat;
  rc_difference : Z;
  cc_processed_columns : list string;
  cc_expected_columns : list string;
  cc_extra_in_processed : list string;
  cc_missing_in_processed : list string;
  cc_columns_match : bool;
  extra_in_processed : option (list cell);
  missing_in_processed : option (list cell);
  sm_columns_match : bool;
  sm_row_difference : Z;
  sm_extra_customers : nat;
  sm_missing_customers : nat
}.

(** [compare_dataframes] (data_verifier.py, lines 6-50). The column set
    differences keep the order of the columns (Python lists them in hash
    order). *)
Definition compare_dataframes (processed_df expected_df : frame) : comparison :=
  let pc := columns processed_df in
  let ec := columns expected_df in
  let diff := (Z.of_nat (length (rows processed_df)) - Z.of_nat (length (rows expected_df)))%Z in
  let cmatch := forallb (fun c => bool_decide (c ∈ ec)) pc && forallb (fun c => bool_decide (c ∈ pc)) ec in
  let customers :=
    if bool_decide ("Customer Name" ∈ pc) && bool_decide ("Customer Name" ∈ ec) then
      let ps := unique (map (fun r => cell_at r "Customer Name") (rows processed_df)) in
      let es := unique (map (fun r => cell_at r "Customer Name") (rows expected_df)) in
      (Some (set_diff ps es), Some (set_diff es ps))
    else (None, None) in
  Comparison (length (rows processed_df)) (length (rows expected_df)) diff
    pc ec (filter (fun c => c ∉ ec) pc) (filter (fun c => c ∉ pc) ec) cmatch
    customers.1 customers.2
    cmatch diff (len_or_zero customers.1) (len_or_zero customers.2).

(** A one-cell frame [pd.DataFrame({label: [text]})]. *)
Definition message_frame (label text : string) : frame :=
  Frame [label] [{[label := Str text]}].

Section Verifier.

(** [str(x)] of a number, which depends on the column's dtype (["1"] in an
    int64 column, ["1.0"] in a float64 one): a parameter, everything below
    holds for each choice. *)
Variable num_str : float -> string.

Definition py_str (v : cell) : string :=
  match v with Str s => s | Num x => num_str x end.

(** [df[key_columns].astype(str).agg("||".join, axis=1)], assigned to a
    column. On a frame without rows [agg] returns the frame itself (the
    empty-input path of [DataFrame.apply]), and assigning a frame of two or
    more columns to the single column raises [ValueError]. *)
Definition composite_key (f : frame) (key_columns : list string) : exn + list cell :=
  let! sub := select key_columns f in
  if bool_decide (rows sub = [] /\ 2 <= length key_columns) then inl ValueError
  else inr (map (fun r => Str (String.concat "||" (map (fun c => py_str (cell_at r c)) key_columns)))
              (rows sub)).

(** [series.isin(values)] *)
Definition isin (k : cell) (ks : list cell) : bool := existsb (py_eq k) ks.

(** [row.get(c, "N/A")] for a row of a frame with labels [cols]. *)
Definition row_get (cols : list string) (r : row) (c : string) : cell :=
  if bool_decide (c ∈ cols) then cell_at r c else Str "N/A".

Definition MISMATCH_COLUMNS : list string :=
  ["Mismatch Type"; "Customer Name"; "Transaction#"; "Type"; "Age"; "Balance Due";
   "Interest Amount"].

Definition mismatch_record (kind : string) (cols : list string) (r : row) : row :=
  list_to_map
    [("Mismatch Type", Str kind);
     ("Customer Name", row_get cols r "Customer Name");
     ("Transaction#", row_get cols r "Transaction#");
     ("Type", row_get cols r "Type");
     ("Age", row_get cols r "Age");
     ("Balance Due", row_get cols r "Balance Due");
     ("Interest Amount", row_get cols r "interest amount")].

Definition DEFAULT_KEY_COLUMNS : list string := ["Customer Name"; "Transaction#"].

(** *** get_detailed_mismatches (data_verifier.py, lines 53-139) *)
Definition get_detailed_mismatches (processed_df expected_df : nat)
    (key_columns : option (list string)) : M nat :=
  let key_columns := default DEFAULT_KEY_COLUMNS key_columns in
  pcs ← labels processed_df;
  ecs ← labels expected_df;
  match list_find (fun c => c ∉ pcs \/ c ∉ ecs) key_columns with
  | Some (_, c) =>
      alloc (message_frame "Error"
               ("Key column '" ++ c ++ "' not found in one or both DataFrames"))
  | None =>
      proc_df ← copy processed_df;
      exp_df ← copy expected_df;
      pf ← deref proc_df;
      k ← lift (composite_key pf key_columns);
      setitem proc_df "_composite_key" k;;
      ef ← deref exp_df;
      k ← lift (composite_key ef key_columns);
      setitem exp_df "_composite_key" k;;
      pk ← getitem proc_df "_composite_key";
      ek ← getitem exp_df "_composite_key";
      t ← mask_index proc_df (map (fun k => negb (isin k ek)) pk);
      only_in_processed ← copy t;
      ek ← getitem exp_df "_composite_key";
      pk ← getitem proc_df "_composite_key";
      t ← mask_index exp_df (map (fun k => negb (isin k pk)) ek);
      only_in_expected ← copy t;
      op ← deref only_in_processed;
      oe ← deref only_in_expected;
      let records :=
        map (mismatch_record "Extra in Processed" (columns op)) (rows op)
        ++ map (mismatch_record "Missing in Processed" (columns oe)) (rows oe) in
      match records with
      | [] => alloc (message_frame "Message" "No mismatches found! Data matches perfectly.")
      | _ => alloc (Frame MISMATCH_COLUMNS records)
      end
  end.

(** *** get_value_comparison (data_verifier.py, lines 142-211) *)

(** [list(common_keys)] lists a Python set of strings in hash order, which
    Python randomises per process: [set_order] gives that listing of the
    set whose elements, in order of first occurrence, are its argument. *)
Variable set_order : list string -> list string.

(** [Py_UNICODE_TODECIMAL]: the value of a code point that is a decimal
    digit in the Unicode database. *)
Variable unicode_decimal : Z -> option nat.

(** [float(v)] of a cell. *)
Definition py_float (v : cell) : option float :=
  match v with Num x => Some x | Str s => Py.float_of_str unicode_decimal s end.

Definition VALUE_COLUMNS : list string :=
  ["Customer Name"; "Transaction#"; "Column"; "Processed Value"; "Expected Value";
   "Difference"].

Definition value_record (prow : row) (col : string) (pv ev d : cell) : row :=
  list_to_map
    [("Customer Name", cell_at prow "Customer Name");
     ("Transaction#", cell_at prow "Transaction#");
     ("Column", Str col);
     ("Processed Value", pv);
     ("Expected Value", ev);
     ("Difference", d)].

(** The comparison of one column of a matched key (lines 181-211). *)
Definition compare_value (prow : row) (col : string) (pv ev : cell) : option row :=
  if negb (is_na pv) && negb (is_na ev) then
    match py_float pv, py_float ev with
    | Some p, Some e =>
        if (0.01 <? PrimFloat.abs (p - e))%float
        then Some (value_record prow col pv ev (Num (Py.py_round4 (p - e))))
        else None
    | _, _ =>
        if negb (String.eqb (py_str pv) (py_str ev))
        then Some (value_record prow col pv ev (Str "N/A"))
        else None
    end
  else None.

(** [df[df["_composite_key"] == key].iloc[0]] *)
Definition first_with_key (f : frame) (key : string) : exn + row :=
  match list_find (fun r => py_eq (cell_at r "_composite_key") (Str key) = true) (rows f) with
  | Some (_, r) => inr r
  | None => inl IndexError
  end.

(** The records of one matched key, over the compared columns. *)
Definition key_records (pf ef : frame) (compare_columns : list string) (key : string)
    : exn + list row :=
  let! proc_row := first_with_key pf key in
  let! exp_row := first_with_key ef key in
  inr (omap (fun col =>
               if bool_decide (col ∈ columns pf /\ col ∈ columns ef)
               then compare_value proc_row col (cell_at proc_row col) (cell_at exp_row col)
               else None) compare_columns).

Definition key_text (v : cell) : string := match v with Str s => s | Num x => num_str x end.

(** [set(pk) & set(ek)], its elements in order of first occurrence in [pk]. *)
Definition common_keys (pk ek : list cell) : list string :=
  remove_dups (filter (fun s => existsb (fun v => String.eqb (key_text v) s) ek) (map key_text pk)).

Definition DEFAULT_COMPARE_COLUMNS : list string := ["interest amount"; "Balance Due"; "Age"].

Definition get_value_comparison (processed_df expected_df : nat)
    (compare_columns : option (list string)) : M nat :=
  let compare_columns := default DEFAULT_COMPARE_COLUMNS compare_columns in
  let key_columns := DEFAULT_KEY_COLUMNS in
  proc_df ← copy processed_df;
  exp_df ← copy expected_df;
  pf ← deref proc_df;
  k ← lift (composite_key pf key_columns);
  setitem proc_df "_composite_key" k;;
  ef ← deref exp_df;
  k ← lift (composite_key ef key_columns);
  setitem exp_df "_composite_key" k;;
  pk ← getitem proc_df "_composite_key";
  ek ← getitem exp_df "_composite_key";
  let common := common_keys pk ek in
  match common with
  | [] => alloc (message_frame "Message" "No matching rows found for comparison")
  | _ =>
      pf ← deref proc_df;
      ef ← deref exp_df;
      recs ← lift (mapE (key_records pf ef compare_columns) (take 100 (set_order common)));
      match concat recs with
      | [] => alloc (message_frame "Message" "All compared values match!")
      | comparisons => alloc (Frame VALUE_COLUMNS comparisons)
      end
  end.

(** *** The verifier functions on the frame values

    The frames the two functions above return, computed from the values of
    their arguments; the heap model is shown to compute them. *)

Definition detailed_mismatches_frame (pf ef : frame) (key_columns : option (list string))
    : exn + frame :=
  let key_columns := default DEFAULT_KEY_COLUMNS key_columns in
  match list_find (fun c => c ∉ columns pf \/ c ∉ columns ef) key_columns with
  | Some (_, c) =>
      inr (message_frame "Error"
             ("Key column '" ++ c ++ "' not found in one or both DataFrames"))
  | None =>
      let! k := composite_key pf key_columns in
      let pf := assign "_composite_key" k pf in
      let! k := composite_key ef key_columns in
      let ef := assign "_composite_key" k ef in
      let! pk := get_col pf "_composite_key" in
      let! ek := get_col ef "_composite_key" in
      let op := take_rows (map (fun k => negb (isin k ek)) pk) pf in
      let oe := take_rows (map (fun k => negb (isin k pk)) ek) ef in
      let records :=
        map (mismatch_record "Extra in Processed" (columns op)) (rows op)
        ++ map (mismatch_record "Missing in Processed" (columns oe)) (rows oe) in
      match records with
      | [] => inr (message_frame "Message" "No mismatches found! Data matches perfectly.")
      | _ => inr (Frame MISMATCH_COLUMNS records)
      end
  end.

Definition value_comparison_frame (pf ef : frame) (compare_columns : option (list string))
    : exn + frame :=
  let compare_columns := default DEFAULT_COMPARE_COLUMNS compare_columns in
  let key_columns := DEFAULT_KEY_COLUMNS in
  let! k := composite_key pf key_columns in
  let pf := assign "_composite_key" k pf in
  let! k := composite_key ef key_columns in
  let ef := assign "_composite_key" k ef in
  let! pk := get_col pf "_composite_key" in
  let! ek := get_col ef "_composite_key" in
  let common := common_keys pk ek in
  match common with
  | [] => inr (message_frame "Message" "No matching rows found for comparison")
  | _ =>
      let! recs := mapE (key_records pf ef compare_columns) (take 100 (set_order common)) in
      match concat recs with
      | [] => inr (message_frame "Message" "All compared values match!")
      | comparisons => inr (Frame VALUE_COLUMNS comparisons)
      end
  end.

End Verifier.

(** A run of [m] on [h] returns a fresh object holding the frame result of
    [r], or raises the exception of [r], and leaves every object of [h]
    unchanged. *)
Definition computes (m : M nat) (h : heap) (r : exn + frame) : Prop :=
  match m h with
  | inl e => r = inl e
  | inr (p, h') =>
      exists f, r = inr f /\ objs h' !! p = Some f /\ heap_wf h' /\
        forall q, q < next_id h -> objs h' !! q = objs h !! q
  end.

(* ================================================================== *)
(** * Observing a run

    [returns m h P]: when [m] returns a frame object on [h], that frame satisfies [P].
    [preserves m h]: every object of [h] is unchanged after [m] returns. *)

Definition returns (m : M nat) (h : heap) (P : frame -> Prop) : Prop :=
  match m h with
  | inl _ => True
  | inr (p, h') => exists f, objs h' !! p = Some f /\ P f
  end.

Definition preserves (m : M nat) (h : heap) : Prop :=
  match m h with
  | inl _ => True
  | inr (_, h') => forall q f, objs h !! q = Some f -> objs h' !! q = Some f
  end.

(** ** Sample inputs *)

(** [str()] of the number cells, for frames that hold text only. *)
Definition no_numbers : string -> float -> string := fun _ _ => "nan".

(** A raw export row with the 13 required input columns. *)
Definition input_row (name tr ty status age bd : string) : row :=
  list_to_map
    [("Region", Str "South"); ("Area Name", Str "Chennai"); ("Market", Str "Retail");
     ("Customer Name", Str name); ("Customer Number", Str "C-001"); ("DATE", Str "2024-01-15");
     ("Transaction#", Str tr); ("Type", Str ty); ("Status", Str status);
     ("Due Date", Str "2024-02-14"); ("Amount", Str bd); ("Balance Due", Str bd);
     ("Age", Str age)].

(** Four raw rows: two overdue invoices, an opening balance with no age, a paid invoice. *)
Definition sample_input : frame :=
  Frame REQUIRED_INPUT_COLUMNS
    [input_row "Beta Traders" "INV-2" "Invoice" "Overdue" "260 Days" "10,000";
     input_row "Alpha Stores" "INV-1" "Invoice" "Overdue" "120 Days" "2,500";
     input_row "Alpha Stores" "OB-1" "Customer Opening Balance" "Overdue" "" "1,200";
     input_row "Gamma Mart" "INV-3" "Invoice" "Paid" "300 Days" "4,000"].

Definition sample_heap : heap := Heap 1 {[0 := sample_input]}.

(** A frame whose only Customer Name is missing. *)
Definition nan_customer_frame : frame :=
  Frame ["Customer Name"; "Balance Due"] [{[ "Customer Name" := NaN; "Balance Due" := Num 100 ]}].

(** A heap holding one raw frame with a single overdue invoice row. *)
Definition single_row_heap (age bd : string) : heap :=
  Heap 1 {[0 := Frame REQUIRED_INPUT_COLUMNS [input_row "Delta Agencies" "INV-9" "Invoice" "Overdue" age bd]]}.

(** Eighteen overdue invoices of the same customer, Transaction# "a" to "r". *)
Definition tie_input : frame :=
  Frame REQUIRED_INPUT_COLUMNS
    (map (fun k => input_row "Alpha Stores" (String (Ascii.ascii_of_nat (97 + k)) EmptyString)
                     "Invoice" "Overdue" "120 Days" "100") (seq 0 18)).

Definition tie_heap : heap := Heap 1 {[0 := tie_input]}.

(** The cells of columns [cs] of each row of the frame [m] returns on [h]. *)
Definition output_cells (m : M nat) (h : heap) (cs : list string) : option (list (list cell)) :=
  match m h with
  | inr (p, h') => option_map (fun f => map (fun r => map (cell_at r) cs) (rows f)) (objs h' !! p)
  | inl _ => None
  end.

(** ** Composite keys, read row by row *)

(** The text of a row's composite key: the key columns' strings joined by "||". *)
Definition key_text_of (num_str : float -> string) (kc : list string) (r : row) : string :=
  String.concat "||" (map (fun c => py_str num_str (cell_at r c)) kc).

Definition row_key (num_str : float -> string) (kc : list string) (r : row) : cell :=
  Str (key_text_of num_str kc r).

(** The first row of [f] with composite key [key], the key added as a column. *)
Definition key_row (num_str : float -> string) (kc : list string) (f : frame) (key : string)
    : option row :=
  match list_find (fun r => String.eqb (key_text_of num_str kc r) key = true) (rows f) with
  | Some (_, r) => Some (<["_composite_key" := Str key]> r)
  | None => None
  end.

(** A heap holding a processed frame at 0 and an expected frame at 1. *)
Definition pair_heap (pf ef : frame) : heap := Heap 2 {[0 := pf; 1 := ef]}.

(** A one-row frame whose Age cell is [age]. *)
Definition age_frame (age : cell) : frame :=
  Frame ["Customer Name"; "Transaction#"; "Age"]
    [{[ "Customer Name" := Str "Alpha Stores"; "Transaction#" := Str "INV-1"; "Age" := age ]}].

(** Every slot of the sort's array holds an element number. *)
Definition sort_inv (keys : list cell) (s : NpSort.st) : Prop :=
  length (NpSort.arr s) = length keys /\ Forall (fun x => x < length keys) (NpSort.arr s).

Definition sort_okv (keys : list cell) (v : nat) : Prop := length keys = 0 \/ v < length keys.

(* ------------------------------------------------------------------ *)
(** ** What the introsort establishes *)

(** [a] sorts strictly before [b] under [OBJECT_compare]. *)
Definition key_lt (keys : list cell) (a b : nat) : bool :=
  bool_decide (obj_cmp (keys !!! a) (keys !!! b) = Some Lt).

Definition key_le (keys : list cell) (a b : nat) : Prop := key_lt keys b a = false.

(** No comparison has raised and every slot holds an element number. *)
Definition sort_ok (keys : list cell) (s : NpSort.st) : Prop :=
  sort_inv keys s /\ NpSort.failed s = false.

(** [s'] differs from [s] only on the slots [l..r], and takes its values there
    from the values of [s] on [l..r]. *)
Definition seg_frame (l r : nat) (s s' : NpSort.st) : Prop :=
  NpSort.failed s' = NpSort.failed s /\
  (forall p, p < l \/ r < p -> NpSort.get s' p = NpSort.get s p) /\
  (forall p, l <= p <= r -> exists q, l <= q <= r /\ NpSort.get s' p = NpSort.get s q).

(** The slice [l..r] of the array is in order. *)
Definition seg_sorted (keys : list cell) (s : NpSort.st) (l r : nat) : Prop :=
  forall i j, l <= i -> i <= j -> j <= r -> key_le keys (NpSort.get s i) (NpSort.get s j).

(** Slices still to be sorted: two slots that no pending slice holds both of
    are in order already. *)
Definition pending_ok (keys : list cell) (s : NpSort.st) (segs : list (nat * nat)) : Prop :=
  forall i j, i < j -> j < length keys ->
    (forall l r, (l, r) ∈ segs -> ~ (l <= i /\ j <= r)) ->
    key_le keys (NpSort.get s i) (NpSort.get s j).

(** Two slices share no slot. *)
Definition seg_disjoint (a b : nat * nat) : Prop := a.2 < b.1 \/ b.2 < a.1.

(** The slices of the stack of [qs_loop], without their depth limits. *)
Definition segs_of (stack : list (nat * nat * Z)) : list (nat * nat) :=
  map (fun '(l, r, _) => (l, r)) stack.

(** The heap of [npy_aheapsort] on [pl..pl+n-1] (1-based) satisfies the heap
    order below every node numbered [L] or more. *)
Definition heap_ok (keys : list cell) (s : NpSort.st) (pl n L : nat) : Prop :=
  forall c, 2 <= c <= n -> L <= Nat.div2 c ->
    key_le keys (NpSort.hget s pl c) (NpSort.hget s pl (Nat.div2 c)).

(** The number of slots of a slice. *)
Definition seg_size (a : nat * nat) : nat := S a.2 - a.1.

(** A slice on the stack is non-empty and inside the array. *)
Definition seg_wf (keys : list cell) (a : nat * nat) : Prop := a.1 <= a.2 < length keys.

(** The pending slices are well formed and pairwise disjoint. *)
Fixpoint segs_ok (keys : list cell) (segs : list (nat * nat)) : Prop :=
  match segs with
  | [] => True
  | a :: segs' => seg_wf keys a /\ (forall b, b ∈ segs' -> seg_disjoint a b) /\ segs_ok keys segs'
  end.

(* ================================================================== *)
(** * Further definitions *)

(** [v == s] for one cell, as [eq_str] compares. *)
Definition is_str (v : cell) (s : string) : bool :=
  match v with Str t => String.eqb t s | Num _ => false end.

(** The raw rows with Status "Overdue", in order: the rows of
    [df_filtered] after line 45. *)
Definition overdue_rows (df : frame) : list row :=
  filter (fun r => is_str (cell_at r "Status") "Overdue") (rows df).

(** The cells of column [c] of those rows. *)
Definition overdue_col (df : frame) (c : string) : list cell :=
  map (fun r => cell_at r c) (overdue_rows df).

(** A cleaned row: an overdue raw row with its cleaned Balance Due, Amount
    and Age. *)
Definition cleaned := (row * (cell * (cell * cell)))%type.

(** The overdue raw rows with the cleaned columns of lines 52-61; a value
    of a cleaned column depends on the whole column, which
    [pd.to_numeric] reads as one array. *)
Definition cleaned_rows (num_text : string -> float -> string) (df : frame) : list cleaned :=
  zip (overdue_rows df)
    (zip (fillna0 (clean_currency_column (num_text "Balance Due") (overdue_col df "Balance Due")))
       (zip (clean_currency_column (num_text "Amount") (overdue_col df "Amount"))
          (clean_age_column (num_text "Age") (overdue_col df "Age")))).

(** The Age a row is filtered on (lines 63-64): [ob_age] for a "Customer
    Opening Balance" row, its cleaned Age [age] otherwise. *)
Definition effective_age (ob_age : float) (r : row) (age : cell) : cell :=
  if is_str (cell_at r "Type") "Customer Opening Balance" then Num ob_age else age.

(** A cleaned row [process_excel] keeps (line 67): its effective Age is above [due_days]. *)
Definition kept_row (due_days ob_age : float) (x : cleaned) : bool :=
  match effective_age ob_age x.1 x.2.2.2 with Num a => (due_days <? a)%float | Str _ => false end.

(** The cleaned rows [process_excel] keeps, in the order of the raw frame. *)
Definition kept_rows (num_text : string -> float -> string) (due_days ob_age : float) (df : frame)
    : list cleaned :=
  filter (kept_row due_days ob_age) (cleaned_rows num_text df).

(** The input columns [process_excel] passes through unchanged. *)
Definition PASSTHROUGH_COLUMNS : list string :=
  ["Region"; "Area Name"; "Market"; "Customer Name"; "Customer Number"; "DATE";
   "Transaction#"; "Type"; "Status"; "Due Date"].

(** The columns [process_excel] computes. *)
Definition COMPUTED_COLUMNS : list string :=
  ["Due days"; "Previous interst"; "interst working"; "per day interst%";
   "working interst in %"; "interest amount"].

(** [process_excel] up to the filter on Age (data_processor.py, lines 44-67). *)
Definition process_excel_front (num_text : string -> float -> string) (df : frame) (due_days ob_age : float) : exn + frame :=
  let! status := get_col df "Status" in
  let f := take_rows (eq_str status "Overdue") df in
  let! f := drop_cols (filter (fun c => c ∈ columns f) COLUMNS_TO_DROP) f in
  let! bd := get_col f "Balance Due" in
  let f := assign "Balance Due" (fillna0 (clean_currency_column (num_text "Balance Due") bd)) f in
  let! am := get_col f "Amount" in
  let f := assign "Amount" (clean_currency_column (num_text "Amount") am) f in
  let! age := get_col f "Age" in
  let f := assign "Age" (clean_age_column (num_text "Age") age) f in
  let! ty := get_col f "Type" in
  let f := loc_set (eq_str ty "Customer Opening Balance") "Age" (Num ob_age) f in
  let! age := get_col f "Age" in
  let! keep := gt_scalar age due_days in
  inr (take_rows keep f).

(** [process_excel] from the sort on (data_processor.py, lines 69-103). *)
Definition process_excel_back (f : frame) (due_days daily_rate : float) : exn + frame :=
  let! f := sort_values "Customer Name" f in
  let f := assign "Due days" (replicate (length (rows f)) (Num due_days)) f in
  let! age := get_col f "Age" in
  let! iw := mapE (num_unop (fun a => a - due_days)%float) age in
  let f := assign "interst working" iw f in
  let! age := get_col f "Age" in
  let! d := mapE (num_unop (fun a => a - due_days)%float) age in
  let! iw := get_col f "interst working" in
  let! p := col_binop (fun x y => x - y)%float d iw in
  let! p := mapE (num_unop clip0) p in
  let f := assign "Previous interst" p f in
  let f := assign "per day interst%" (replicate (length (rows f)) (Num daily_rate)) f in
  let! iw := get_col f "interst working" in
  let! wi := mapE (num_unop (fun x => x * daily_rate)%float) iw in
  let f := assign "working interst in %" wi f in
  let! bd := get_col f "Balance Due" in
  let! wi := get_col f "working interst in %" in
  let! w100 := mapE (num_unop (fun x => x / 100)%float) wi in
  let! ia := col_binop (fun x y => x * y)%float bd w100 in
  let f := assign "interest amount" ia f in
  let! ia := get_col f "interest amount" in
  let! ia := mapE (num_unop Py.np_round4) ia in
  let f := assign "interest amount" ia f in
  select FINAL_COLUMNS f.

(** A row of the filtered frame and the cleaned row it comes from. *)
Definition row_from (ob_age : float) (r : row) (x : cleaned) : Prop :=
  (forall c, c ∉ COLUMNS_TO_DROP -> c ∉ ["Balance Due"; "Amount"; "Age"] -> cell_at r c = cell_at x.1 c) /\
  cell_at r "Balance Due" = x.2.1 /\
  cell_at r "Amount" = x.2.2.1 /\
  cell_at r "Age" = effective_age ob_age x.1 x.2.2.2.

(** A cell holding a number. *)
Definition num_cell (v : cell) : Prop := exists a, v = Num a.

(** The cells of column [c] are numbers on every row of [F]. *)
Definition col_num (c : string) (F : frame) : Prop := forall r, r ∈ rows F -> num_cell (cell_at r c).

(** The outcome of a run: [P] of the exception it raises, or [Q] of the frame it returns. *)
Definition outcome (m : M nat) (h : heap) (P : exn -> Prop) (Q : frame -> Prop) : Prop :=
  match m h with
  | inl e => P e
  | inr (p, h') => exists f, objs h' !! p = Some f /\ Q f
  end.

(** [validate_input_columns] (utils.py, lines 24-39). Python lists the set
    [missing] in hash order; here in the order of first occurrence in
    [required_columns]. *)
Definition validate_input_columns (df : frame) (required_columns : list string) : bool * list string :=
  let missing := filter (fun c => c ∉ columns df) (remove_dups required_columns) in
  (bool_decide (length missing = 0), missing).

(** A cell that is text or missing. *)
Definition text_or_missing (v : cell) : bool :=
  match v with Str _ => true | Num x => is_nan x end.

(** A frame with the two key columns and no rows. *)
Definition empty_frame : frame := Frame ["Customer Name"; "Transaction#"] [].

(** * Proofs *)

(** ** The heap model computes the frame functions *)

Lemma insert_below (m : gmap nat frame) k v N :
  k < N -> (forall p f, m !! p = Some f -> p < N) ->
  forall p f, <[k:=v]> m !! p = Some f -> p < N.
Proof.
  intros Hk Hm p f. rewrite lookup_insert. case_decide; [lia|]. apply Hm.
Qed.

Ltac head_of t := lazymatch t with ?g _ => head_of g | _ => t end.

Ltac split_on X :=
  lazymatch X with
  | _ !! _ => fail
  | _ => let hd := head_of X in is_const hd; let E := fresh "E" in destruct X eqn:E
  end.

Ltac split_scrutinee :=
  match goal with
  | |- context [match ?X with inl _ => _ | inr _ => _ end] => split_on X
  | |- context [match ?X with Some _ => _ | None => _ end] => split_on X
  | |- context [match ?X with [] => _ | _ :: _ => _ end] => split_on X
  end.

Ltac clean_eqs :=
  repeat match goal with
  | Hx : inr _ = inr _ |- _ => injection Hx as Hx; subst
  | Hx : inl _ = inr _ |- _ => discriminate Hx
  | Hx : inr _ = inl _ |- _ => discriminate Hx
  | pr : prod _ _ |- _ => destruct pr
  | Hx : _ :: _ = _ :: _ |- _ => injection Hx as ? ?; subst
  end.

Ltac unfold_M :=
  unfold getitem, setitem, loc_setitem, update, reset_index, mask_index, copy, drop,
    sort_values_obj, select_obj, nrows, labels, deref, alloc, store, lift,
    mbind, M_bind, mret, M_ret.

(** Runs a program of the heap model on a heap [Heap n o], from the
    lookups [o !! p = Some f] of its arguments in the context. *)
Ltac run_M :=
  cbn [objs next_id];
  repeat (repeat first [ match goal with Hs : _ !! _ = Some _ |- _ => rewrite Hs end | rewrite lookup_insert_eq | rewrite lookup_insert_ne by lia ];
          cbn [objs next_id]; try split_scrutinee; clean_eqs);
  try congruence;
  lazymatch goal with
  | Hwf : heap_wf (Heap _ _) |- exists _, _ =>
      eexists; split; [reflexivity|]; split; [reflexivity|]; split;
      [ unfold heap_wf; cbn [objs next_id];
        repeat (apply insert_below; [lia|]);
        intros ? ? Hx; apply Hwf in Hx; cbn in Hx; lia
      | intros ? ?; cbn [objs next_id] in *;
        repeat rewrite lookup_insert_ne by lia; reflexivity ]
  | _ => idtac
  end.

Lemma process_excel_computes nt df due daily wd ob (n : nat) (o : gmap nat frame) f0 :
  heap_wf (Heap n o) -> o !! df = Some f0 ->
  computes (process_excel nt df due daily wd ob) (Heap n o) (process_excel_frame nt f0 due daily wd ob).
Proof.
  intros Hwf Hdf. assert (df < n) by (eapply Hwf; eauto).
  unfold computes, process_excel, process_excel_frame. unfold_M.
  run_M.
Qed.

Lemma get_detailed_mismatches_computes num_str P E kc (n : nat) (o : gmap nat frame) pf ef :
  heap_wf (Heap n o) -> o !! P = Some pf -> o !! E = Some ef ->
  computes (get_detailed_mismatches num_str P E kc) (Heap n o) (detailed_mismatches_frame num_str pf ef kc).
Proof.
  intros Hwf Hp He. assert (P < n) by (eapply Hwf; eauto). assert (E < n) by (eapply Hwf; eauto).
  unfold computes, get_detailed_mismatches, detailed_mismatches_frame. unfold_M.
  run_M.
Qed.

Lemma get_value_comparison_computes num_str so dec P E cc (n : nat) (o : gmap nat frame) pf ef :
  heap_wf (Heap n o) -> o !! P = Some pf -> o !! E = Some ef ->
  computes (get_value_comparison num_str so dec P E cc) (Heap n o) (value_comparison_frame num_str so dec pf ef cc).
Proof.
  intros Hwf Hp He. assert (P < n) by (eapply Hwf; eauto). assert (E < n) by (eapply Hwf; eauto).
  unfold computes, get_value_comparison, value_comparison_frame. unfold_M.
  run_M.
Qed.

(** ** Lookups through the frame operations *)


Lemma mapE_Forall2 {A B} (g : A -> exn + B) l l' :
  mapE g l = inr l' -> Forall2 (fun x y => g x = inr y) l l'.
Proof.
  revert l'; induction l as [|x l IH]; intros l' H; cbn in H.
  - injection H as <-. constructor.
  - destruct (g x) eqn:Ex; [discriminate|].
    destruct (mapE g l) eqn:El; [discriminate|]. injection H as <-.
    constructor; auto.
Qed.

Lemma mapE_lookup {A B} (g : A -> exn + B) l l' i y :
  mapE g l = inr l' -> l' !! i = Some y -> exists x, l !! i = Some x /\ g x = inr y.
Proof.
  intros H Hi. apply mapE_Forall2 in H.
  destruct (Forall2_lookup_r _ _ _ _ _ H Hi) as (x & ? & ?). eauto.
Qed.

Lemma mapE_length {A B} (g : A -> exn + B) l l' :
  mapE g l = inr l' -> length l' = length l.
Proof. intros H%mapE_Forall2. symmetry. by eapply Forall2_length. Qed.

Lemma get_col_inr f c l :
  get_col f c = inr l -> c ∈ columns f /\ l = map (fun r => cell_at r c) (rows f).
Proof.
  unfold get_col. case_bool_decide; [|discriminate]. intros [= <-]. auto.
Qed.

Lemma get_col_lookup f c l i v :
  get_col f c = inr l -> l !! i = Some v -> exists r, rows f !! i = Some r /\ cell_at r c = v.
Proof.
  intros [_ ->]%get_col_inr Hi. apply list_lookup_fmap_Some in Hi as (r & -> & Hr). eauto.
Qed.

Lemma get_col_length f c l : get_col f c = inr l -> length l = length (rows f).
Proof. intros [_ ->]%get_col_inr. apply length_map. Qed.

Lemma assign_lookup c vals f i r :
  rows (assign c vals f) !! i = Some r ->
  exists r0 v, rows f !! i = Some r0 /\ vals !! i = Some v /\ r = <[c:=v]> r0.
Proof.
  cbn. intros H. apply lookup_zip_with_Some in H as (r0 & v & -> & ? & ?). eauto.
Qed.

Lemma assign_lookup_full c vals f i r0 :
  length vals = length (rows f) -> rows f !! i = Some r0 ->
  exists v, vals !! i = Some v /\ rows (assign c vals f) !! i = Some (<[c:=v]> r0).
Proof.
  intros Hl Hi. destruct (vals !! i) as [v|] eqn:Hv.
  - exists v. split; [done|]. cbn. apply lookup_zip_with_Some. eauto.
  - apply lookup_ge_None in Hv. apply lookup_lt_Some in Hi. lia.
Qed.

Lemma assign_length c vals f :
  length vals = length (rows f) -> length (rows (assign c vals f)) = length (rows f).
Proof. intros H. cbn. rewrite length_zip_with. lia. Qed.

Lemma cell_at_insert r c c' v :
  cell_at (<[c:=v]> r) c' = if String.eqb c c' then v else cell_at r c'.
Proof.
  unfold cell_at. destruct (String.eqb_spec c c') as [->|Hne].
  - by rewrite lookup_insert_eq.
  - by rewrite lookup_insert_ne.
Qed.

Lemma num_unop_inr op x y : num_unop op x = inr y -> exists a, x = Num a /\ y = Num (op a).
Proof. destruct x; cbn; [discriminate|]. intros [= <-]. eauto. Qed.

Lemma col_binop_lookup op xs ys zs i z :
  col_binop op xs ys = inr zs -> zs !! i = Some z ->
  exists a b, xs !! i = Some (Num a) /\ ys !! i = Some (Num b) /\ z = Num (op a b).
Proof.
  unfold col_binop. intros H Hi. destruct (mapE_lookup _ _ _ _ _ H Hi) as ([x y] & Hxy & Hg).
  apply lookup_zip_with_Some in Hxy as (x' & y' & [= <- <-] & ? & ?).
  destruct x, y; cbn in Hg; try discriminate. injection Hg as <-. eauto 10.
Qed.

Lemma col_binop_length op xs ys zs :
  col_binop op xs ys = inr zs -> length zs = min (length xs) (length ys).
Proof. unfold col_binop. intros H%mapE_length. by rewrite H, length_zip_with. Qed.

Lemma select_lookup cs f f' i r :
  select cs f = inr f' -> rows f' !! i = Some r ->
  exists r0, rows f !! i = Some r0 /\ forall c, c ∈ cs -> cell_at r c = cell_at r0 c.
Proof.
  unfold select. destruct list_find as [[? ?]|]; [discriminate|]. intros [= <-] Hi.
  cbn in Hi. apply list_lookup_fmap_Some in Hi as (r0 & -> & Hr0).
  exists r0. split; [done|]. intros c Hc. unfold cell_at. rewrite map_lookup_filter.
  destruct (r0 !! c); cbn; [|done]. by rewrite option_guard_True.
Qed.

(** ** The sort permutes row indices *)


Module NpSortFacts.
Import NpSort.

Section Facts.
Variable keys : list cell.

Local Abbreviation inv := (sort_inv keys).
Local Abbreviation okv := (sort_okv keys).

Lemma get_okv s i : inv s -> okv (get s i).
Proof.
  intros [Hl Hf]. unfold sort_okv, get. destruct (arr s !! i) as [x|] eqn:Hx.
  - right. rewrite (list_lookup_total_correct _ _ _ Hx). exact (Forall_lookup_1 _ _ _ _ Hf Hx).
  - destruct (length keys) eqn:Hk; [by left|right].
    rewrite list_lookup_total_alt, Hx. cbn. lia.
Qed.

Lemma set_inv s i v : inv s -> okv v -> inv (set s i v).
Proof.
  intros [Hl Hf] Hv. unfold sort_inv, set; cbn. rewrite length_insert. split; [done|].
  destruct Hv as [Hk|Hv].
  - rewrite Hk in Hl. destruct (arr s); [|discriminate]. constructor.
  - by apply Forall_insert.
Qed.

Lemma less_arr s a b : arr (less keys s a b).1 = arr s.
Proof. unfold less. destruct (failed s); [done|]. destruct obj_cmp as [[]|]; done. Qed.

Lemma less_inv s a b : inv s -> inv (less keys s a b).1.
Proof. unfold sort_inv. by rewrite less_arr. Qed.

Lemma swap_inv s i j : inv s -> inv (swap s i j).
Proof. intros H. unfold swap. apply set_inv; [apply set_inv|]; auto using get_okv. Qed.

Create HintDb npinv.
#[local] Hint Resolve get_okv set_inv less_inv swap_inv : npinv.

Ltac name_state F :=
  let Hi := fresh "Hi" in
  assert (Hi : inv F.1) by eauto with npinv;
  let E := fresh "E" in
  destruct F as [?s ?x] eqn:E; cbn in Hi.

Ltac inv_crush :=
  repeat match goal with
  | |- context [less keys ?s ?a ?b] => name_state (less keys s a b)
  | |- context [scan_up keys ?n ?s ?a ?b] => name_state (scan_up keys n s a b)
  | |- context [scan_down keys ?n ?s ?a ?b] => name_state (scan_down keys n s a b)
  | |- context [part_loop keys ?n ?s ?a ?b ?c] => name_state (part_loop keys n s a b c)
  | |- context [partition keys ?s ?a ?b] => name_state (partition keys s a b)
  | |- context [ins_shift keys ?n ?s ?a ?b ?c] => name_state (ins_shift keys n s a b c)
  | |- context [if ?b then _ else _] => destruct b
  end; cbn; eauto with npinv.

Lemma scan_up_inv n s pi vp : inv s -> inv (scan_up keys n s pi vp).1.
Proof. revert s pi; induction n; intros s pi Hs; cbn; inv_crush. Qed.
#[local] Hint Resolve scan_up_inv : npinv.

Lemma scan_down_inv n s pj vp : inv s -> inv (scan_down keys n s pj vp).1.
Proof. revert s pj; induction n; intros s pj Hs; cbn; inv_crush. Qed.
#[local] Hint Resolve scan_down_inv : npinv.

Lemma part_loop_inv n s pi pj vp : inv s -> inv (part_loop keys n s pi pj vp).1.
Proof. revert s pi pj; induction n; intros s pi pj Hs; cbn; inv_crush. Qed.
#[local] Hint Resolve part_loop_inv : npinv.

Lemma partition_inv s pl pr : inv s -> inv (partition keys s pl pr).1.
Proof. intros Hs. unfold partition. inv_crush. Qed.
#[local] Hint Resolve partition_inv : npinv.

Lemma part_while_inv n s pl pr cd stk : inv s -> inv (part_while keys n s pl pr cd stk).1.1.1.
Proof. revert s pl pr cd stk; induction n; intros s pl pr cd stk Hs; cbn; inv_crush. Qed.

Lemma ins_shift_inv n s pl pj vi : inv s -> inv (ins_shift keys n s pl pj vi).1.
Proof. revert s pj; induction n; intros s pj Hs; cbn; inv_crush. Qed.
#[local] Hint Resolve ins_shift_inv : npinv.

Lemma ins_for_inv k s pl pi : inv s -> inv (ins_for keys k s pl pi).
Proof. revert s pi; induction k; intros s pi Hs; cbn; inv_crush. Qed.

Lemma hget_okv s pl i : inv s -> okv (hget s pl i).
Proof. apply get_okv. Qed.

Lemma hset_inv s pl i v : inv s -> okv v -> inv (hset s pl i v).
Proof. apply set_inv. Qed.
#[local] Hint Resolve hget_okv hset_inv : npinv.

Lemma sift_inv k s pl n i j tmp : inv s -> okv tmp -> inv (sift keys k s pl n i j tmp).1.
Proof. revert s i j; induction k; intros s i j Hs Ht; cbn; inv_crush. Qed.
#[local] Hint Resolve sift_inv : npinv.

Ltac inv_crush2 :=
  repeat match goal with
  | |- context [sift keys ?k ?s ?pl ?n ?i ?j ?t] =>
      let Hi := fresh "Hi" in
      assert (Hi : inv (sift keys k s pl n i j t).1) by eauto 8 with npinv;
      let E := fresh "E" in
      destruct (sift keys k s pl n i j t) as [?st ?x] eqn:E; cbn in Hi
  | |- context [part_while keys ?n ?s ?a ?b ?c ?d] =>
      let Hi := fresh "Hi" in
      assert (Hi : inv (part_while keys n s a b c d).1.1.1) by eauto with npinv;
      let E := fresh "E" in
      destruct (part_while keys n s a b c d) as [[[?st ?l] ?r] ?stack] eqn:E; cbn in Hi
  | |- context [if ?b then _ else _] => destruct b
  | |- context [match ?stk with [] => _ | _ :: _ => _ end] => destruct stk as [|[[? ?] ?] ?]
  end; cbn -[fuel]; eauto with npinv.

Lemma heapify_inv k s pl n l : inv s -> inv (heapify keys k s pl n l).
Proof. revert s l; induction k; intros s l Hs; cbn -[fuel]; inv_crush2. Qed.
#[local] Hint Resolve heapify_inv : npinv.

Lemma extract_inv k s pl n : inv s -> inv (extract keys k s pl n).
Proof. revert s n; induction k; intros s n Hs; cbn -[fuel]; inv_crush2. Qed.
#[local] Hint Resolve extract_inv part_while_inv ins_for_inv : npinv.

Lemma qs_loop_inv n s pl pr cd stk : inv s -> inv (qs_loop keys n s pl pr cd stk).
Proof.
  revert s pl pr cd stk; induction n; intros s pl pr cd stk Hs; cbn -[fuel]; [done|].
  unfold aheapsort, insertion. inv_crush2.
Qed.

Lemma aquicksort_inv : inv (aquicksort keys).
Proof.
  unfold aquicksort. apply qs_loop_inv. unfold sort_inv; cbn. rewrite length_seq. split; [done|].
  apply Forall_forall. intros x Hx%elem_of_seq. lia.
Qed.

End Facts.
End NpSortFacts.

Lemma nargsort_range col order :
  nargsort col = inr order -> forall i, i ∈ order -> i < length col.
Proof.
  unfold nargsort. destruct NpSort.failed; [discriminate|]. intros [= <-] i Hi.
  apply elem_of_app in Hi as [Hi|Hi].
  - apply list_elem_of_fmap in Hi as (p & -> & Hp).
    pose proof (NpSortFacts.aquicksort_inv
      (map (fun i => col !!! i) (filter (fun i => is_na (col !!! i) = false) (seq 0 (length col))))) as [Hl Hf].
    rewrite length_map in Hf.
    rewrite Forall_forall in Hf. specialize (Hf p Hp).
    destruct (lookup_lt_is_Some_2 _ _ Hf) as [x Hx].
    rewrite (list_lookup_total_correct _ _ _ Hx).
    apply list_elem_of_lookup_2, list_elem_of_filter in Hx as [_ Hx%elem_of_seq]. lia.
  - apply list_elem_of_filter in Hi as [_ Hi%elem_of_seq]. lia.
Qed.

Lemma sort_values_rows c f f' :
  sort_values c f = inr f' -> columns f' = columns f /\ forall r, r ∈ rows f' -> r ∈ rows f.
Proof.
  unfold sort_values. destruct (get_col f c) as [|col] eqn:Ec; [discriminate|].
  destruct (nargsort col) as [|order] eqn:Eo; [discriminate|]. intros [= <-]. cbn.
  split; [done|]. intros r Hr. apply list_elem_of_fmap in Hr as (i & -> & Hi).
  apply (nargsort_range _ _ Eo) in Hi.
  apply get_col_length in Ec. rewrite Ec in Hi.
  destruct (lookup_lt_is_Some_2 _ _ Hi) as [x Hx]. rewrite (list_lookup_total_correct _ _ _ Hx).
  by eapply list_elem_of_lookup_2.
Qed.

(** ** The introsort sorts

    Over keys that are all strings, every comparison succeeds and the
    run of [aquicksort] leaves the element numbers in key order. *)

Lemma string_compare_OT s t : String.compare s t = String_as_OT.compare s t.
Proof.
  revert t; induction s as [|a s IH]; intros [|b t]; try reflexivity.
Qed.

Lemma string_lt_trans x y z :
  String.compare x y = Lt -> String.compare y z = Lt -> String.compare x z = Lt.
Proof. rewrite !string_compare_OT. apply String_as_OT.lt_strorder. Qed.

Lemma string_lt_irrefl x : String.compare x x <> Lt.
Proof. rewrite string_compare_OT. apply String_as_OT.lt_strorder. Qed.

Lemma string_compare_cases x y :
  String.compare x y = Lt \/ x = y \/ String.compare y x = Lt.
Proof.
  destruct (String.compare x y) eqn:E.
  - right; left. by apply String.compare_eq_iff.
  - by left.
  - right; right. rewrite String.compare_antisym, E. reflexivity.
Qed.

Module NpSortCorrect.
Import NpSort NpSortFacts.

Section Correct.
Variable keys : list cell.
Hypothesis Hstr : forall a, a < length keys -> exists t, keys !!! a = Str t.
Hypothesis Hm : 0 < length keys.

Local Abbreviation m := (length keys).
Local Abbreviation lt := (key_lt keys).
Local Abbreviation le := (key_le keys).

Lemma key_lt_str a b t u :
  keys !!! a = Str t -> keys !!! b = Str u -> lt a b = bool_decide (String.compare t u = Lt).
Proof.
  intros Ha Hb. unfold key_lt. rewrite Ha, Hb. cbn.
  apply bool_decide_ext. split; [by intros [= ->]|by intros ->].
Qed.

Ltac key_str a :=
  let t := fresh "t" in let Ht := fresh "Ht" in
  destruct (Hstr a) as [t Ht]; [lia|].

Lemma le_refl a : a < m -> le a a.
Proof.
  intros Ha. key_str a. unfold key_le. rewrite (key_lt_str _ _ _ _ Ht Ht).
  apply bool_decide_eq_false_2, string_lt_irrefl.
Qed.

Lemma lt_le a b : a < m -> b < m -> lt a b = true -> le a b.
Proof.
  intros Ha Hb. key_str a. key_str b. unfold key_le.
  rewrite (key_lt_str _ _ _ _ Ht Ht0), (key_lt_str _ _ _ _ Ht0 Ht).
  intros H%bool_decide_eq_true_1. apply bool_decide_eq_false_2. intros H'.
  exact (string_lt_irrefl t (string_lt_trans _ _ _ H H')).
Qed.

Lemma le_trans a b c : a < m -> b < m -> c < m -> le a b -> le b c -> le a c.
Proof.
  intros Ha Hb Hc. key_str a. key_str b. key_str c. unfold key_le.
  rewrite (key_lt_str _ _ _ _ Ht0 Ht), (key_lt_str _ _ _ _ Ht1 Ht0), (key_lt_str _ _ _ _ Ht1 Ht).
  intros H1%bool_decide_eq_false_1 H2%bool_decide_eq_false_1.
  apply bool_decide_eq_false_2. intros H3.
  destruct (string_compare_cases t t0) as [H|[<-|H]]; [|done|done].
  exact (H2 (string_lt_trans _ _ _ H3 H)).
Qed.

Lemma not_lt_le a b : lt a b = false -> le b a.
Proof. done. Qed.

Lemma lt_le_trans a b c : a < m -> b < m -> c < m -> lt a b = true -> le b c -> le a c.
Proof. intros Ha Hb Hc H1 H2. apply (le_trans a b c); auto using lt_le. Qed.

Lemma get_lt s i : sort_inv keys s -> get s i < m.
Proof. intros Hs. destruct (get_okv keys s i Hs); lia. Qed.

Lemma less_ok s a b :
  failed s = false -> a < m -> b < m -> less keys s a b = (s, lt a b).
Proof.
  intros Hf Ha Hb. key_str a. key_str b. unfold less. rewrite Hf, Ht, Ht0. cbn.
  rewrite (key_lt_str _ _ _ _ Ht Ht0).
  destruct (String.compare t t0) eqn:E; cbn.
  - rewrite bool_decide_eq_false_2; [by destruct s|congruence].
  - rewrite bool_decide_eq_true_2; [by destruct s|done].
  - rewrite bool_decide_eq_false_2; [by destruct s|congruence].
Qed.

Lemma inv_len s : sort_inv keys s -> length (arr s) = m.
Proof. by intros [? _]. Qed.

Lemma get_set s i v p : i < length (arr s) ->
  get (set s i v) p = if decide (p = i) then v else get s p.
Proof.
  intros Hi. unfold get, set; cbn. case_decide as Hp.
  - subst. apply list_lookup_total_correct. by apply list_lookup_insert_eq.
  - rewrite !list_lookup_total_alt. by rewrite list_lookup_insert_ne by congruence.
Qed.

Lemma set_len s i v : length (arr (set s i v)) = length (arr s).
Proof. apply length_insert. Qed.

Lemma get_swap s i j p : i < length (arr s) -> j < length (arr s) ->
  get (swap s i j) p =
    if decide (p = i) then get s j else if decide (p = j) then get s i else get s p.
Proof.
  intros Hi Hj. unfold swap. rewrite get_set by (by rewrite set_len).
  rewrite get_set by done. repeat case_decide; congruence.
Qed.

Lemma seg_frame_refl l r s : seg_frame l r s s.
Proof. split; [done|]. split; [done|]. intros p Hp. eauto. Qed.

Lemma seg_frame_trans l r s1 s2 s3 :
  seg_frame l r s1 s2 -> seg_frame l r s2 s3 -> seg_frame l r s1 s3.
Proof.
  intros (Hf1 & Ho1 & Hv1) (Hf2 & Ho2 & Hv2). split; [congruence|]. split.
  - intros p Hp. rewrite Ho2, Ho1; done.
  - intros p Hp. destruct (Hv2 p Hp) as (q & Hq & ->). destruct (Hv1 q Hq) as (q' & ? & ->). eauto.
Qed.

Lemma seg_frame_widen l r L R s s' :
  L <= l -> r <= R -> seg_frame l r s s' -> seg_frame L R s s'.
Proof.
  intros HL HR (Hf & Ho & Hv). split; [done|]. split.
  - intros p Hp. apply Ho. lia.
  - intros p Hp. destruct (decide (l <= p <= r)) as [Hin|Hout].
    + destruct (Hv p Hin) as (q & ? & ->). exists q. split; [lia|done].
    + exists p. split; [lia|]. apply Ho. lia.
Qed.

Lemma seg_frame_set l r s s1 i v :
  seg_frame l r s s1 -> l <= i <= r -> i < length (arr s1) ->
  (exists q, l <= q <= r /\ v = get s q) -> seg_frame l r s (set s1 i v).
Proof.
  intros (Hf & Ho & Hv) Hi Hlen Hq. split; [done|]. split.
  - intros p Hp. rewrite get_set by done. rewrite decide_False by lia. by apply Ho.
  - intros p Hp. rewrite get_set by done. case_decide; [done|]. by apply Hv.
Qed.

Lemma seg_frame_swap l r s s1 i j :
  seg_frame l r s s1 -> l <= i <= r -> l <= j <= r ->
  i < length (arr s1) -> j < length (arr s1) -> seg_frame l r s (swap s1 i j).
Proof.
  intros Hs Hi Hj Hli Hlj. destruct Hs as (Hf & Ho & Hv). unfold swap.
  apply seg_frame_set; [apply seg_frame_set|..]; rewrite ?set_len; try done.
  - by destruct (Hv i Hi) as (q & ? & ->); eauto.
  - by destruct (Hv j Hj) as (q & ? & ->); eauto.
Qed.

Lemma seg_frame_get_out l r s s' p : seg_frame l r s s' -> p < l \/ r < p -> get s' p = get s p.
Proof. intros (_ & Ho & _). apply Ho. Qed.

Lemma seg_frame_failed l r s s' : seg_frame l r s s' -> failed s' = failed s.
Proof. by intros [? _]. Qed.

Lemma seg_frame_ok l r s s' : sort_ok keys s -> sort_inv keys s' -> seg_frame l r s s' -> sort_ok keys s'.
Proof. intros [_ Hf] Hi Hs. split; [done|]. by rewrite (seg_frame_failed _ _ _ _ Hs). Qed.

(** *** The partition scans *)

Lemma scan_up_spec n s pi vp q s' pi' :
  sort_ok keys s -> vp < m -> pi < q -> q - pi <= n -> q < m -> lt (get s q) vp = false ->
  scan_up keys n s pi vp = (s', pi') ->
  s' = s /\ pi < pi' <= q /\ lt (get s pi') vp = false /\
  forall p, pi < p < pi' -> lt (get s p) vp = true.
Proof.
  intros [Hi Hf] Hvp. revert pi. induction n as [|n IH]; intros pi Hq Hn Hqm Hs; [lia|].
  cbn. rewrite less_ok by auto using get_lt.
  destruct (lt (get s (S pi)) vp) eqn:E.
  - intros Hrec. assert (q <> S pi) by (intros ->; congruence).
    destruct (IH (S pi) ltac:(lia) ltac:(lia) Hqm Hs Hrec) as (-> & ? & ? & Hp).
    split; [done|]. split; [lia|]. split; [done|].
    intros p Hp'. destruct (decide (p = S pi)) as [->|]; [done|]. apply Hp. lia.
  - intros [= <- <-]. split; [done|]. split; [lia|]. split; [done|]. lia.
Qed.

Lemma scan_down_spec n s pj vp q s' pj' :
  sort_ok keys s -> vp < m -> q < pj -> pj - q <= n -> lt vp (get s q) = false ->
  scan_down keys n s pj vp = (s', pj') ->
  s' = s /\ q <= pj' < pj /\ lt vp (get s pj') = false /\
  forall p, pj' < p < pj -> lt vp (get s p) = true.
Proof.
  intros [Hi Hf] Hvp. revert pj. induction n as [|n IH]; intros pj Hq Hn Hs; [lia|].
  cbn. rewrite less_ok by auto using get_lt.
  destruct (lt vp (get s (pj - 1))) eqn:E.
  - intros Hrec. assert (q <> pj - 1) by (intros ->; congruence).
    destruct (IH (pj - 1) ltac:(lia) ltac:(lia) Hs Hrec) as (-> & ? & ? & Hp).
    split; [done|]. split; [lia|]. split; [done|].
    intros p Hp'. destruct (decide (p = pj - 1)) as [->|]; [done|]. apply Hp. lia.
  - intros [= <- <-]. split; [done|]. split; [lia|]. split; [done|]. lia.
Qed.

Lemma swap_ok s i j : sort_ok keys s -> sort_ok keys (swap s i j).
Proof. intros [Hi Hf]. split; [by apply swap_inv|done]. Qed.

Lemma set_ok s i v : sort_ok keys s -> v < m -> sort_ok keys (set s i v).
Proof. intros [Hi Hf] Hv. split; [apply set_inv; [done|by right]|done]. Qed.

Lemma part_loop_spec n s pl pr pi pj vp s' pi' :
  sort_ok keys s -> vp < m -> pl <= pi -> pi < pj -> pj <= pr -> pr < m -> pj - pi <= n ->
  (forall p, pl <= p <= pi -> le (get s p) vp) ->
  (forall p, pj <= p <= pr -> le vp (get s p)) ->
  part_loop keys n s pi pj vp = (s', pi') ->
  sort_ok keys s' /\ seg_frame (S pi) (pj - 1) s s' /\ pi < pi' <= pj /\
  (forall p, pl <= p < pi' -> le (get s' p) vp) /\
  (forall p, pi' <= p <= pr -> le vp (get s' p)).
Proof.
  intros Hs Hvp. revert s pi pj Hs.
  induction n as [|n IH]; intros s pi pj Hs Hpl Hij Hjr Hr Hn Hlo Hhi; [lia|].
  pose proof Hs as [Hi Hf]. cbn -[fuel scan_up scan_down].
  destruct (scan_up keys (fuel keys) s pi vp) as [s1 pi1] eqn:Eu.
  destruct (scan_up_spec (fuel keys) s pi vp pj s1 pi1 Hs Hvp Hij ltac:(unfold fuel; lia) ltac:(lia)
              (Hhi pj ltac:(lia)) Eu) as (-> & Hpi1 & Hst1 & Hlt1).
  assert (Hsent : lt vp (get s (pi1 - 1)) = false).
  { destruct (decide (pi1 - 1 = pi)) as [->|].
    - apply Hlo. lia.
    - apply lt_le; auto using get_lt. apply Hlt1. lia. }
  destruct (scan_down keys (fuel keys) s pj vp) as [s2 pj1] eqn:Ed.
  destruct (scan_down_spec (fuel keys) s pj vp (pi1 - 1) s2 pj1 Hs Hvp ltac:(lia) ltac:(unfold fuel; lia)
              Hsent Ed) as (-> & Hpj1 & Hst2 & Hlt2).
  assert (Hlo' : forall p, pl <= p < pi1 -> le (get s p) vp).
  { intros p Hp. destruct (decide (p <= pi)); [apply Hlo; lia|].
    apply lt_le; auto using get_lt. apply Hlt1. lia. }
  assert (Hhi' : forall p, pj1 < p <= pr -> le vp (get s p)).
  { intros p Hp. destruct (decide (pj <= p)); [apply Hhi; lia|].
    apply lt_le; auto using get_lt. apply Hlt2. lia. }
  destruct (Nat.leb_spec pj1 pi1) as [Hle|Hgt]; cbn -[fuel swap part_loop].
  - intros [= <- <-]. split; [done|]. split; [apply seg_frame_refl|].
    split; [lia|]. split; [done|].
    intros p Hp. destruct (decide (p = pi1)) as [->|]; [done|]. apply Hhi'. lia.
  - intros Hrec. rewrite <- (inv_len _ Hi) in Hr.
    assert (Hs3 : sort_ok keys (swap s pi1 pj1)) by by apply swap_ok.
    destruct (IH _ pi1 pj1 Hs3 ltac:(lia) Hgt ltac:(lia) ltac:(rewrite (inv_len _ Hi) in Hr; lia)
                ltac:(lia)) as (Hs' & Hfr & Hpi' & Hlo'' & Hhi'').
    + intros p Hp. rewrite get_swap by lia.
      case_decide; [done|]. rewrite decide_False by lia. apply Hlo'. lia.
    + intros p Hp. rewrite get_swap by lia.
      case_decide; [lia|]. case_decide; [done|]. apply Hhi'. lia.
    + exact Hrec.
    + split; [done|]. split; [|split; [lia|split; done]].
      apply (seg_frame_trans _ _ _ (swap s pi1 pj1)); [apply seg_frame_swap; [apply seg_frame_refl|lia..]|].
      eapply seg_frame_widen; [..|exact Hfr]; lia.
Qed.

(** One compare-and-swap of the median of three. *)
Lemma cswap_spec l r s i j s2 :
  sort_ok keys s -> l <= i <= r -> l <= j <= r -> r < m ->
  s2 = (if lt (get s i) (get s j) then swap s i j else s) ->
  sort_ok keys s2 /\ seg_frame l r s s2 /\
  ((get s2 i = get s i /\ get s2 j = get s j) \/ (get s2 i = get s j /\ get s2 j = get s i)) /\
  le (get s2 j) (get s2 i) /\ forall p, p <> i -> p <> j -> get s2 p = get s p.
Proof.
  intros Hs Hi Hj Hr ->. pose proof Hs as [Hinv _]. pose proof (inv_len _ Hinv) as Hl.
  destruct (decide (i = j)) as [<-|Hij].
  { rewrite (le_refl (get s i)) by auto using get_lt.
    split; [done|]. split; [apply seg_frame_refl|]. split; [by left|].
    split; [apply le_refl; auto using get_lt|done]. }
  destruct (lt (get s i) (get s j)) eqn:E.
  - assert (Gi : get (swap s i j) i = get s j) by (rewrite get_swap by lia; by rewrite decide_True).
    assert (Gj : get (swap s i j) j = get s i)
      by (rewrite get_swap by lia; by rewrite decide_False, decide_True).
    assert (Gp : forall p, p <> i -> p <> j -> get (swap s i j) p = get s p)
      by (intros p ? ?; rewrite get_swap by lia; by rewrite !decide_False).
    split; [by apply swap_ok|]. split; [apply seg_frame_swap; [apply seg_frame_refl|lia..]|].
    rewrite Gi, Gj. split; [by right|]. split; [apply lt_le; auto using get_lt|exact Gp].
  - split; [done|]. split; [apply seg_frame_refl|]. split; [by left|]. by split.
Qed.

Lemma partition_spec s pl pr s' pi :
  sort_ok keys s -> 16 < pr - pl -> pr < m -> partition keys s pl pr = (s', pi) ->
  sort_ok keys s' /\ seg_frame pl pr s s' /\ pl < pi < pr /\
  (forall p, pl <= p < pi -> le (get s' p) (get s' pi)) /\
  (forall p, pi < p <= pr -> le (get s' pi) (get s' p)).
Proof.
  intros Hs Hd Hr. unfold partition.
  set (pm := pl + Nat.div2 (pr - pl)).
  assert (Hpm : pl < pm < pr - 1) 
    by (pose proof (Nat.div2_odd (pr - pl)) as Ho; subst pm; destruct (Nat.odd _); cbn in Ho; lia).
  pose proof Hs as [Hi Hf].
  rewrite less_ok by auto using get_lt. cbv beta iota.
  remember (if lt (get s pm) (get s pl) then swap s pm pl else s) as s1 eqn:E1.
  destruct (cswap_spec pl pr s pm pl s1 Hs ltac:(lia) ltac:(lia) Hr E1) as (Hs1 & Hf1 & Hv1 & Ho1 & Hu1).
  rewrite less_ok by (destruct Hs1; auto using get_lt). cbv beta iota.
  remember (if lt (get s1 pr) (get s1 pm) then swap s1 pr pm else s1) as s2 eqn:E2.
  destruct (cswap_spec pl pr s1 pr pm s2 Hs1 ltac:(lia) ltac:(lia) Hr E2) as (Hs2 & Hf2 & Hv2 & Ho2 & Hu2).
  rewrite less_ok by (destruct Hs2; auto using get_lt). cbv beta iota.
  remember (if lt (get s2 pm) (get s2 pl) then swap s2 pm pl else s2) as s3 eqn:E3.
  destruct (cswap_spec pl pr s2 pm pl s3 Hs2 ltac:(lia) ltac:(lia) Hr E3) as (Hs3 & Hf3 & Hv3 & Ho3 & Hu3).
  assert (Hlt : forall s0 p, sort_ok keys s0 -> get s0 p < m) by (intros ? ? []; auto using get_lt).
  (* the median of three: a[pl] <= a[pm] <= a[pr] *)
  assert (Hpr2 : le (get s2 pl) (get s2 pr)).
  { rewrite (Hu2 pl) by lia.
    destruct Hv2 as [[Ha Hb]|[Ha Hb]]; rewrite Ha; [|done].
    rewrite Hb in Ho2. rewrite Ha in Ho2. apply (le_trans _ (get s1 pm)); auto. }
  assert (Hmed1 : le (get s3 pm) (get s3 pr)).
  { rewrite (Hu3 pr) by lia.
    destruct Hv3 as [[Ha _]|[Ha _]]; by rewrite Ha. }
  pose proof Hs3 as [Hi3 Hf3'].
  set (vp := get s3 pm).
  set (s4 := swap s3 pm (pr - 1)).
  assert (Hs4 : sort_ok keys s4) by by apply swap_ok.
  pose proof (inv_len _ Hi3) as Hl3.
  assert (G4 : forall p, get s4 p =
            if decide (p = pm) then get s3 (pr - 1) else if decide (p = pr - 1) then vp else get s3 p)
    by (intros p; unfold s4; rewrite get_swap by lia; reflexivity).
  cbv beta iota zeta. fold vp s4.
  destruct (part_loop keys (fuel keys) s4 pl (pr - 1) vp) as [s5 pi5] eqn:E5.
  destruct (part_loop_spec (fuel keys) s4 pl pr pl (pr - 1) vp s5 pi5 Hs4 (get_lt _ _ Hi3) ltac:(lia)
              ltac:(lia) ltac:(lia) Hr ltac:(unfold fuel; lia)) as (Hs5 & Hf5 & Hpi5 & Hlo5 & Hhi5).
  { intros p Hp. assert (p = pl) as -> by lia. rewrite G4, !decide_False by lia. apply Ho3. }
  { intros p Hp. rewrite G4, decide_False by lia.
    destruct (decide (p = pr - 1)); [apply le_refl, get_lt, Hi3|].
    assert (p = pr) as -> by lia. exact Hmed1. }
  { exact E5. }
  pose proof Hs5 as [Hi5 _]. pose proof (inv_len _ Hi5) as Hl5.
  assert (Hpiv : get s5 (pr - 1) = vp).
  { rewrite (seg_frame_get_out _ _ _ _ _ Hf5) by lia. rewrite G4, decide_False, decide_True by lia.
    reflexivity. }
  intros [= <- <-].
  assert (G6 : forall p, get (swap s5 pi5 (pr - 1)) p =
            if decide (p = pi5) then vp else if decide (p = pr - 1) then get s5 pi5 else get s5 p)
    by (intros p; rewrite get_swap, Hpiv by lia; reflexivity).
  split; [by apply swap_ok|]. split.
  { apply (seg_frame_trans _ _ _ s3).
    { apply (seg_frame_trans _ _ _ s2); [apply (seg_frame_trans _ _ _ s1)|]; done. }
    apply (seg_frame_trans _ _ _ s5).
    { apply (seg_frame_trans _ _ _ s4); [apply seg_frame_swap; [apply seg_frame_refl|lia..]|].
      eapply seg_frame_widen; [..|exact Hf5]; lia. }
    apply seg_frame_swap; [apply seg_frame_refl|lia..]. }
  split; [lia|]. split.
  - intros p Hp. rewrite !G6. rewrite (decide_True _ _ (eq_refl pi5)).
    rewrite !decide_False by lia. apply Hlo5. lia.
  - intros p Hp. rewrite !G6. rewrite (decide_True _ _ (eq_refl pi5)).
    destruct (decide (p = pi5)); [lia|].
    destruct (decide (p = pr - 1)); [apply Hhi5; lia|]. apply Hhi5. lia.
Qed.

(** *** Insertion sort *)

Lemma ins_final s pl pj pi vi :
  sort_ok keys s -> vi < m -> pl <= pj <= pi -> pi < m ->
  (forall p q, pl <= p /\ p <= q < pj -> le (get s p) (get s q)) ->
  (forall p q, pj < p /\ p <= q <= pi -> le (get s p) (get s q)) ->
  (forall p q, pl <= p < pj -> pj < q <= pi -> le (get s p) (get s q)) ->
  (forall q, pj < q <= pi -> lt vi (get s q) = true) ->
  (pl < pj -> le (get s (pj - 1)) vi) ->
  seg_sorted keys (set s pj vi) pl pi.
Proof.
  intros [Hi _] Hvi Hj Hpi HA HB HC HD HL. pose proof (inv_len _ Hi) as Hl.
  assert (Hg : forall p, get s p < m) by (intros p; by apply get_lt).
  intros i j Hi' Hij Hj'. rewrite !get_set by lia.
  destruct (decide (i = pj)) as [->|Hipj]; destruct (decide (j = pj)) as [->|Hjpj].
  - by apply le_refl.
  - apply lt_le; auto. apply HD. lia.
  - apply (le_trans _ (get s (pj - 1))); auto. apply HA; lia. apply HL; lia.
  - destruct (decide (j < pj)); [apply HA; lia|].
    destruct (decide (pj < i)); [apply HB; lia|]. apply HC; lia.
Qed.

Lemma ins_shift_spec n s pl pi pj vi s' pj' :
  sort_ok keys s -> vi < m -> pl <= pj <= pi -> pi < m -> pj - pl <= n ->
  (forall p q, pl <= p /\ p <= q < pj -> le (get s p) (get s q)) ->
  (forall p q, pj < p /\ p <= q <= pi -> le (get s p) (get s q)) ->
  (forall p q, pl <= p < pj -> pj < q <= pi -> le (get s p) (get s q)) ->
  (forall q, pj < q <= pi -> lt vi (get s q) = true) ->
  ins_shift keys n s pl pj vi = (s', pj') ->
  sort_ok keys s' /\ seg_frame pl pi s s' /\ pl <= pj' <= pj /\
  seg_sorted keys (set s' pj' vi) pl pi.
Proof.
  intros Hs Hvi. revert s pj Hs.
  induction n as [|n IH]; intros s pj Hs Hj Hpi Hn HA HB HC HD.
  { cbn. intros [= <- <-]. split; [done|]. split; [apply seg_frame_refl|]. split; [lia|].
    apply ins_final; auto. lia. }
  pose proof Hs as [Hi Hf]. pose proof (inv_len _ Hi) as Hl.
  assert (Hg : forall p, get s p < m) by (intros p; by apply get_lt).
  cbn -[Nat.ltb less]. destruct (Nat.ltb_spec pl pj) as [Hlt|Hge].
  2:{ intros [= <- <-]. split; [done|]. split; [apply seg_frame_refl|]. split; [lia|].
      apply ins_final; auto. lia. }
  rewrite less_ok by auto. destruct (lt vi (get s (pj - 1))) eqn:E.
  2:{ intros [= <- <-]. split; [done|]. split; [apply seg_frame_refl|]. split; [lia|].
      apply ins_final; auto. }
  set (s1 := set s pj (get s (pj - 1))).
  assert (G1 : forall p, get s1 p = if decide (p = pj) then get s (pj - 1) else get s p)
    by (intros p; unfold s1; rewrite get_set by lia; reflexivity).
  intros Hrec.
  destruct (IH s1 (pj - 1) ltac:(by apply set_ok) ltac:(lia) Hpi ltac:(lia)) as (Hs' & Hfr & Hj' & Hsort).
  - intros p q Hpq. rewrite !G1, !decide_False by lia. apply HA; lia.
  - intros p q Hpq. rewrite !G1.
    destruct (decide (p = pj)); destruct (decide (q = pj)); try lia.
    + by apply le_refl.
    + apply HC; lia.
    + apply HB; lia.
  - intros p q Hp Hq. rewrite !G1.
    destruct (decide (p = pj)); [lia|]. destruct (decide (q = pj)); [apply HA; lia|]. apply HC; lia.
  - intros q Hq. rewrite G1. destruct (decide (q = pj)); [done|]. apply HD; lia.
  - exact Hrec.
  - split; [done|]. split; [|split; [lia|done]].
    apply (seg_frame_trans _ _ _ s1); [|done].
    apply seg_frame_set; [apply seg_frame_refl|lia..|]. exists (pj - 1). split; [lia|done].
Qed.

Lemma ins_for_spec k s pl pi :
  sort_ok keys s -> pl < pi -> pi + k <= m -> seg_sorted keys s pl (pi - 1) ->
  sort_ok keys (ins_for keys k s pl pi) /\
  seg_frame pl (pi + k - 1) s (ins_for keys k s pl pi) /\
  seg_sorted keys (ins_for keys k s pl pi) pl (pi + k - 1).
Proof.
  revert s pi. induction k as [|k IH]; intros s pi Hs Hpi Hk Hsort.
  { cbn. split; [done|]. split; [apply seg_frame_refl|]. by rewrite Nat.add_0_r. }
  pose proof Hs as [Hi Hf]. pose proof (inv_len _ Hi) as Hl.
  cbn -[fuel]. set (vi := get s pi).
  destruct (ins_shift keys (fuel keys) s pl pi vi) as [s1 pj] eqn:E.
  destruct (ins_shift_spec (fuel keys) s pl pi pi vi s1 pj Hs ltac:(by apply get_lt) ltac:(lia) ltac:(lia)
              ltac:(unfold fuel; lia)) as (Hs1 & Hf1 & Hj & Hsort1).
  - intros p q Hpq. apply Hsort; lia.
  - lia.
  - lia.
  - lia.
  - exact E.
  - pose proof Hs1 as [Hi1 _]. pose proof (inv_len _ Hi1) as Hl1.
    set (s2 := set s1 pj vi).
    assert (Hs2 : sort_ok keys s2) by (apply set_ok; [done|by apply get_lt]).
    assert (Hf2 : seg_frame pl pi s s2).
    { apply seg_frame_set; [done|lia..|]. exists pi. split; [lia|done]. }
    destruct (IH s2 (S pi) Hs2 ltac:(lia) ltac:(lia)) as (Hs3 & Hf3 & Hsort3).
    { replace (S pi - 1) with pi by lia. exact Hsort1. }
    replace (pi + S k - 1) with (S pi + k - 1) by lia.
    split; [done|]. split; [|done].
    apply (seg_frame_trans _ _ _ s2); [|done]. eapply seg_frame_widen; [..|exact Hf2]; lia.
Qed.

Lemma insertion_spec s pl pr :
  sort_ok keys s -> pl <= pr -> pr < m ->
  sort_ok keys (insertion keys s pl pr) /\ seg_frame pl pr s (insertion keys s pl pr) /\
  seg_sorted keys (insertion keys s pl pr) pl pr.
Proof.
  intros Hs Hlr Hr. unfold insertion. pose proof Hs as [Hi _].
  destruct (ins_for_spec (pr - pl) s pl (S pl) Hs ltac:(lia) ltac:(lia)) as (H1 & H2 & H3).
  - intros i j ? ? ?. assert (i = pl) as -> by lia. assert (j = pl) as -> by lia.
    apply le_refl, get_lt, Hi.
  - replace (S pl + (pr - pl) - 1) with pr in * by lia. auto.
Qed.

(** *** Heapsort *)

Lemma div2_spec c : c = Nat.div2 c + Nat.div2 c \/ c = S (Nat.div2 c + Nat.div2 c).
Proof.
  pose proof (Nat.div2_odd c) as H. destruct (Nat.odd c); cbn in H; lia.
Qed.

Ltac dlia :=
  repeat match goal with
  | |- context [Nat.div2 ?c] =>
      let h := fresh "Hd" in let x := fresh "d" in
      pose proof (div2_spec c) as h; set (x := Nat.div2 c) in *; clearbody x
  | H : context [Nat.div2 ?c] |- _ =>
      let h := fresh "Hd" in let x := fresh "d" in
      pose proof (div2_spec c) as h; set (x := Nat.div2 c) in *; clearbody x
  end; lia.

Lemma hget_hset s pl i v c : 1 <= i -> 1 <= c -> pl + i - 1 < length (arr s) ->
  hget (hset s pl i v) pl c = if decide (c = i) then v else hget s pl c.
Proof.
  intros Hi Hc Hl. unfold hget, hset. rewrite get_set by done.
  repeat case_decide; first [done | lia].
Qed.

Lemma sift_final s pl n L i tmp :
  sort_ok keys s -> 1 <= L <= i -> i <= n -> pl + n <= m ->
  (forall c, 2 <= c <= n -> L <= Nat.div2 c -> Nat.div2 c <> i ->
     le (hget s pl c) (hget s pl (Nat.div2 c))) ->
  (i <> L -> le tmp (hget s pl (Nat.div2 i))) ->
  (forall c, c <= n -> Nat.div2 c = i -> le (hget s pl c) tmp) ->
  heap_ok keys (hset s pl i tmp) pl n L.
Proof.
  intros [Hi _] HL Hin Hpl Hh Hpt Hch. pose proof (inv_len _ Hi) as Hl.
  intros c Hc HLc. rewrite !hget_hset by dlia.
  destruct (decide (c = i)) as [->|Hci].
  - rewrite decide_False by dlia. apply Hpt. dlia.
  - destruct (decide (Nat.div2 c = i)) as [Hdi|Hdi].
    + by apply Hch; [lia|].
    + by apply Hh.
Qed.

Lemma sift_spec k s pl n L i tmp s' i' :
  sort_ok keys s -> tmp < m -> 1 <= L <= i -> i <= n -> pl + n <= m -> n + 1 - i <= k ->
  (i = L \/ L <= Nat.div2 i) ->
  (forall c, 2 <= c <= n -> L <= Nat.div2 c -> Nat.div2 c <> i ->
     le (hget s pl c) (hget s pl (Nat.div2 c))) ->
  (i <> L -> forall c, c <= n -> Nat.div2 c = i -> le (hget s pl c) (hget s pl (Nat.div2 i))) ->
  (i <> L -> le tmp (hget s pl (Nat.div2 i))) ->
  sift keys k s pl n i (i + i) tmp = (s', i') ->
  sort_ok keys s' /\ seg_frame pl (pl + n - 1) s s' /\ L <= i' <= n /\
  heap_ok keys (hset s' pl i' tmp) pl n L.
Proof.
  revert s i. induction k as [|k IH]; intros s i Hs Htmp HL Hin Hpl Hk Hsub Hh Hpar Hpt; [lia|].
  pose proof Hs as [Hi Hf]. pose proof (inv_len _ Hi) as Hl.
  assert (Hg : forall c, hget s pl c < m) by (intros c; by apply get_lt).
  cbn -[Nat.ltb less hget hset].
  destruct (Nat.leb_spec (i + i) n) as [Hj|Hj].
  2:{ intros [= <- <-]. split; [done|]. split; [apply seg_frame_refl|]. split; [lia|].
      apply sift_final; auto. intros c ? ?. dlia. }
  assert (Hch : exists jj, (jj = i + i \/ jj = S (i + i)) /\ jj <= n /\
     (forall c, c <= n -> Nat.div2 c = i -> le (hget s pl c) (hget s pl jj)) /\
     (if i + i <? n then
        let '(s0, b) := less keys s (hget s pl (i + i)) (hget s pl (S (i + i))) in
        (s0, if b then S (i + i) else i + i)
      else (s, i + i)) = (s, jj)).
  { destruct (Nat.ltb_spec (i + i) n) as [Hlt|Hge].
    - rewrite less_ok by auto. destruct (lt (hget s pl (i + i)) (hget s pl (S (i + i)))) eqn:Ec.
      + exists (S (i + i)). split; [by right|]. split; [lia|]. split; [|done].
        intros c Hc Hdc. destruct (div2_spec c) as [Hc'|Hc']; rewrite Hdc in Hc'; subst c.
        * by apply lt_le.
        * by apply le_refl.
      + exists (i + i). split; [by left|]. split; [lia|]. split; [|done].
        intros c Hc Hdc. destruct (div2_spec c) as [Hc'|Hc']; rewrite Hdc in Hc'; subst c.
        * by apply le_refl.
        * done.
    - exists (i + i). split; [by left|]. split; [lia|]. split; [|done].
      intros c Hc Hdc. destruct (div2_spec c) as [Hc'|Hc']; rewrite Hdc in Hc'; subst c; [|lia].
      by apply le_refl. }
  destruct Hch as (jj & Hjj & Hjn & Hmax & ->).
  assert (Hdjj : Nat.div2 jj = i) by dlia.
  rewrite less_ok by auto. destruct (lt tmp (hget s pl jj)) eqn:Et.
  2:{ intros [= <- <-]. split; [done|]. split; [apply seg_frame_refl|]. split; [lia|].
      apply sift_final; auto. intros c Hc Hdc. apply (le_trans _ (hget s pl jj)); auto. }
  intros Hrec. set (s1 := hset s pl i (hget s pl jj)).
  assert (G1 : forall c, 1 <= c -> hget s1 pl c = if decide (c = i) then hget s pl jj else hget s pl c)
    by (intros c Hc; unfold s1; rewrite hget_hset by lia; reflexivity).
  destruct (IH s1 jj ltac:(by apply set_ok) Htmp ltac:(lia) Hjn Hpl ltac:(lia) ltac:(right; lia))
    as (Hs' & Hfr & Hi' & Hheap).
  - intros c Hc HLc Hdc. rewrite !G1 by dlia.
    destruct (decide (c = i)) as [->|Hci].
    + rewrite decide_False by dlia. apply Hpar; [dlia|lia|done].
    + destruct (decide (Nat.div2 c = i)) as [Hdi|Hdi].
      * apply Hmax; [lia|done].
      * apply Hh; auto.
  - intros _ c Hc Hdc. rewrite Hdjj, !G1 by dlia.
    destruct (decide (c = i)); [dlia|]. destruct (decide (i = i)); [|done].
    rewrite <- Hdc. apply Hh; dlia.
  - intros _. rewrite Hdjj, G1, decide_True by lia. by apply lt_le.
  - exact Hrec.
  - split; [done|]. split; [|done].
    apply (seg_frame_trans _ _ _ s1); [|done].
    apply seg_frame_set; [apply seg_frame_refl|lia..|]. exists (pl + jj - 1). split; [lia|done].
Qed.


Lemma heapify_spec k s pl n :
  sort_ok keys s -> k <= Nat.div2 n -> pl + n <= m -> 1 <= n ->
  heap_ok keys s pl n (S k) ->
  sort_ok keys (heapify keys k s pl n k) /\
  seg_frame pl (pl + n - 1) s (heapify keys k s pl n k) /\
  heap_ok keys (heapify keys k s pl n k) pl n 1.
Proof.
  revert s. induction k as [|k IH]; intros s Hs Hk Hpl Hn Hh.
  { cbn. split; [done|]. split; [apply seg_frame_refl|done]. }
  pose proof Hs as [Hi Hf]. pose proof (inv_len _ Hi) as Hl.
  cbn -[fuel sift hget hset]. set (tmp := hget s pl (S k)).
  change (S (k + S k)) with (S k + S k).
  destruct (sift keys (fuel keys) s pl n (S k) (S k + S k) tmp) as [s1 i1] eqn:E.
  destruct (sift_spec (fuel keys) s pl n (S k) (S k) tmp s1 i1 Hs ltac:(by apply get_lt)
              ltac:(lia) ltac:(dlia) Hpl ltac:(unfold fuel; lia) ltac:(by left)) as (Hs1 & Hf1 & Hi1 & Hh1).
  - intros c Hc HLc Hdc. apply Hh; [lia|lia].
  - done.
  - done.
  - exact E.
  - pose proof Hs1 as [Hi1' _]. pose proof (inv_len _ Hi1') as Hl1.
    set (s2 := hset s1 pl i1 tmp).
    assert (Hs2 : sort_ok keys s2) by (apply set_ok; [done|by apply get_lt]).
    rewrite Nat.sub_0_r.
    destruct (IH s2 Hs2 ltac:(lia) Hpl Hn Hh1) as (Hs3 & Hf3 & Hh3).
    split; [done|]. split; [|done].
    apply (seg_frame_trans _ _ _ s2); [|done].
    apply seg_frame_set; [done|lia..|]. exists (pl + S k - 1). split; [lia|done].
Qed.

Lemma heap_root s pl n c :
  sort_inv keys s -> heap_ok keys s pl n 1 -> 1 <= c <= n -> le (hget s pl c) (hget s pl 1).
Proof.
  intros Hi Hh. induction c as [c IH] using lt_wf_ind. intros Hc.
  destruct (decide (c = 1)) as [->|Hc1]; [apply le_refl, get_lt, Hi|].
  apply (le_trans _ (hget s pl (Nat.div2 c))); try apply get_lt, Hi.
  - apply Hh; dlia.
  - apply IH; dlia.
Qed.

Lemma extract_spec k s pl n cnt :
  sort_ok keys s -> 1 <= n <= cnt -> pl + cnt <= m -> n <= S k ->
  heap_ok keys s pl n 1 ->
  (forall p q, n < p -> p <= q <= cnt -> le (hget s pl p) (hget s pl q)) ->
  (forall p q, 1 <= p <= n -> n < q <= cnt -> le (hget s pl p) (hget s pl q)) ->
  sort_ok keys (extract keys k s pl n) /\
  seg_frame pl (pl + cnt - 1) s (extract keys k s pl n) /\
  (forall p q, 1 <= p -> p <= q <= cnt ->
     le (hget (extract keys k s pl n) pl p) (hget (extract keys k s pl n) pl q)).
Proof.
  revert s n. induction k as [|k IH]; intros s n Hs Hn Hpl Hk Hh Hsuf Hcr.
  all: pose proof Hs as [Hi Hf]; pose proof (inv_len _ Hi) as Hl.
  all: assert (Hdone : n <= 1 -> forall p q, 1 <= p -> p <= q <= cnt -> le (hget s pl p) (hget s pl q))
         by (intros Hn1 p q Hp Hq; destruct (decide (p = 1)) as [->|];
             [destruct (decide (q = 1)) as [->|]; [apply le_refl, get_lt, Hi|apply Hcr; lia]
             |apply Hsuf; lia]).
  { cbn. split; [done|]. split; [apply seg_frame_refl|]. apply Hdone. lia. }
  cbn -[fuel sift hget hset Nat.ltb]. destruct (Nat.ltb_spec 1 n) as [H1n|H1n].
  2:{ split; [done|]. split; [apply seg_frame_refl|]. by apply Hdone. }
  set (tmp := hget s pl n). set (s1 := hset s pl n (hget s pl 1)).
  assert (G1 : forall c, 1 <= c -> hget s1 pl c = if decide (c = n) then hget s pl 1 else hget s pl c)
    by (intros c Hc; unfold s1; rewrite hget_hset by lia; reflexivity).
  assert (Hs1 : sort_ok keys s1) by (apply set_ok; [done|by apply get_lt]).
  destruct (sift keys (fuel keys) s1 pl (n - 1) 1 2 tmp) as [s2 i2] eqn:E.
  destruct (sift_spec (fuel keys) s1 pl (n - 1) 1 1 tmp s2 i2 Hs1 ltac:(by apply get_lt)
              ltac:(lia) ltac:(lia) ltac:(lia) ltac:(unfold fuel; lia) ltac:(by left)) as (Hs2 & Hf2 & Hi2 & Hh2).
  { intros c Hc HLc Hdc. rewrite !G1 by dlia. rewrite !decide_False by dlia. apply Hh; dlia. }
  { done. }
  { done. }
  { exact E. }
  pose proof Hs2 as [Hi2' _]. pose proof (inv_len _ Hi2') as Hl2.
  set (s3 := hset s2 pl i2 tmp).
  assert (Hs3 : sort_ok keys s3) by (apply set_ok; [done|by apply get_lt]).
  assert (Hf3 : seg_frame pl (pl + n - 1) s s3).
  { apply seg_frame_set; [|lia..|exists (pl + n - 1); split; [lia|done]].
    apply (seg_frame_trans _ _ _ s1).
    - apply seg_frame_set; [apply seg_frame_refl|lia..|]. exists pl. split; [lia|].
      unfold hget. f_equal. lia.
    - eapply seg_frame_widen; [..|exact Hf2]; lia. }
  assert (Fout : forall q, n <= q -> hget s3 pl q = if decide (q = n) then hget s pl 1 else hget s pl q).
  { intros q Hq. unfold s3. rewrite hget_hset, decide_False by lia.
    unfold hget at 1. rewrite (seg_frame_get_out _ _ _ _ _ Hf2) by lia. fold (hget s1 pl q). apply G1. lia. }
  assert (Fin : forall p, 1 <= p <= n - 1 -> exists p', 1 <= p' <= n /\ hget s3 pl p = hget s pl p').
  { intros p Hp. destruct Hf3 as (_ & _ & Hv3). destruct (Hv3 (pl + p - 1) ltac:(lia)) as (y & Hy & Ey).
    exists (y + 1 - pl). split; [lia|]. unfold hget. rewrite Ey. f_equal. lia. }
  assert (Hg : forall c, hget s pl c < m) by (intros c; by apply get_lt).
  destruct (IH s3 (n - 1) Hs3 ltac:(lia) Hpl ltac:(lia) Hh2) as (Hs4 & Hf4 & Hsort4).
  - intros p q Hp Hq. rewrite !Fout by lia.
    destruct (decide (p = n)) as [->|]; destruct (decide (q = n)) as [->|].
    + apply le_refl, Hg.
    + apply Hcr; lia.
    + lia.
    + apply Hsuf; lia.
  - intros p q Hp Hq. destruct (Fin p Hp) as (p' & Hp' & ->). rewrite Fout by lia.
    destruct (decide (q = n)) as [->|].
    + apply (heap_root s pl n); [done|done|lia].
    + apply Hcr; lia.
  - split; [done|]. split; [|done].
    apply (seg_frame_trans _ _ _ s3); [|done]. eapply seg_frame_widen; [..|exact Hf3]; lia.
Qed.

Lemma aheapsort_spec s pl cnt :
  sort_ok keys s -> 1 <= cnt -> pl + cnt <= m ->
  sort_ok keys (aheapsort keys s pl cnt) /\
  seg_frame pl (pl + cnt - 1) s (aheapsort keys s pl cnt) /\
  seg_sorted keys (aheapsort keys s pl cnt) pl (pl + cnt - 1).
Proof.
  intros Hs Hc Hpl. unfold aheapsort.
  destruct (heapify_spec (Nat.div2 cnt) s pl cnt Hs ltac:(lia) Hpl Hc) as (Hs1 & Hf1 & Hh1).
  { intros c Hc' Hd. exfalso. pose proof (div2_spec c). pose proof (div2_spec cnt). lia. }
  destruct (extract_spec cnt _ pl cnt cnt Hs1 ltac:(lia) Hpl ltac:(lia) Hh1) as (Hs2 & Hf2 & Hsort2).
  { lia. }
  { lia. }
  split; [done|]. split; [eapply seg_frame_trans; eassumption|].
  intros i j Hi Hij Hj. specialize (Hsort2 (i + 1 - pl) (j + 1 - pl) ltac:(lia) ltac:(lia)).
  unfold hget in Hsort2. by replace (pl + (i + 1 - pl) - 1) with i in Hsort2 by lia;
    replace (pl + (j + 1 - pl) - 1) with j in Hsort2 by lia.
Qed.

(** *** The pending slices *)

Lemma segs_of_cons l r d stk : segs_of ((l, r, d) :: stk) = (l, r) :: segs_of stk.
Proof. reflexivity. Qed.

Lemma sum_size_cons a segs :
  sum_list_with seg_size (a :: segs) = S a.2 - a.1 + sum_list_with seg_size segs.
Proof. reflexivity. Qed.

Lemma pending_step s s' l r segs news :
  pending_ok keys s ((l, r) :: segs) -> r < m ->
  (forall a, a ∈ segs -> seg_disjoint (l, r) a) ->
  seg_frame l r s s' ->
  (forall i j, l <= i -> i < j -> j <= r ->
     (forall a b, (a, b) ∈ news -> ~ (a <= i /\ j <= b)) -> le (get s' i) (get s' j)) ->
  pending_ok keys s' (news ++ segs).
Proof.
  intros Hp Hr Hd (Hf & Ho & Hv) Hin i j Hij Hj Hnot.
  assert (Hseg : forall a b, (a, b) ∈ segs -> ~ (a <= i /\ j <= b))
    by (intros a b Hab; apply Hnot, elem_of_app; by right).
  destruct (decide (l <= i /\ j <= r)) as [[Hli Hjr]|Hout].
  { apply Hin; try done. intros a b Hab. apply Hnot, elem_of_app. by left. }
  destruct (decide (l <= i <= r)) as [Hi|Hi]; [|destruct (decide (l <= j <= r)) as [Hj'|Hj']].
  - (* i inside, j to the right *)
    destruct (Hv i Hi) as (q & Hq & ->). rewrite (Ho j) by lia.
    apply Hp; [lia|done|]. intros a b Hab [Ha Hb]. apply elem_of_cons in Hab as [[= -> ->]|Hab]; [lia|].
    destruct (Hd _ Hab) as [H|H]; cbn in H; lia.
  - (* i to the left, j inside *)
    destruct (Hv j Hj') as (q & Hq & ->). rewrite (Ho i) by lia.
    apply Hp; [lia|lia|]. intros a b Hab [Ha Hb]. apply elem_of_cons in Hab as [[= -> ->]|Hab]; [lia|].
    destruct (Hd _ Hab) as [H|H]; cbn in H; lia.
  - rewrite (Ho i), (Ho j) by lia. apply Hp; [done|done|].
    intros a b Hab [Ha Hb]. apply elem_of_cons in Hab as [[= -> ->]|Hab]; [lia|].
    by apply (Hseg a b).
Qed.

Lemma sort_cur s s' l r segs :
  pending_ok keys s ((l, r) :: segs) -> segs_ok keys ((l, r) :: segs) ->
  seg_frame l r s s' -> seg_sorted keys s' l r -> pending_ok keys s' segs.
Proof.
  intros Hp (Hw & Hd & _) Hf Hs. apply (pending_step s s' l r segs [] Hp ltac:(apply Hw) Hd Hf).
  intros i j Hi Hij Hj _. apply Hs; lia.
Qed.

Lemma part_pending s s1 pl pr pi segs news :
  pending_ok keys s ((pl, pr) :: segs) -> segs_ok keys ((pl, pr) :: segs) ->
  sort_ok keys s1 -> seg_frame pl pr s s1 -> pl < pi < pr ->
  (forall p, pl <= p < pi -> le (get s1 p) (get s1 pi)) ->
  (forall p, pi < p <= pr -> le (get s1 pi) (get s1 p)) ->
  (pl, pi - 1) ∈ news -> (S pi, pr) ∈ news ->
  pending_ok keys s1 (news ++ segs).
Proof.
  intros Hp Hok [Hi1 _] Hf Hpi Hlo Hhi Hn1 Hn2. destruct Hok as (Hw & Hd & _).
  apply (pending_step s s1 pl pr segs news Hp ltac:(apply Hw) Hd Hf).
  intros i j Hi Hij Hj Hnot.
  destruct (decide (i = pi)) as [->|]; [apply Hhi; lia|].
  destruct (decide (j = pi)) as [->|]; [apply Hlo; lia|].
  destruct (decide (j < pi)); [exfalso; apply (Hnot _ _ Hn1); lia|].
  destruct (decide (pi < i)); [exfalso; apply (Hnot _ _ Hn2); lia|].
  apply (le_trans _ (get s1 pi)); try apply get_lt, Hi1; [apply Hlo|apply Hhi]; lia.
Qed.

Lemma part_segs pl pr pi segs :
  segs_ok keys ((pl, pr) :: segs) -> pl < pi < pr ->
  segs_ok keys ((pl, pi - 1) :: (S pi, pr) :: segs) /\
  segs_ok keys ((S pi, pr) :: (pl, pi - 1) :: segs).
Proof.
  intros (Hw & Hd & Hok) Hpi. unfold seg_wf in Hw; cbn in Hw.
  assert (Hd' : forall l r, pl <= l -> r <= pr -> forall b, b ∈ segs -> seg_disjoint (l, r) b)
    by (intros l r Hl Hr b Hb; destruct (Hd b Hb) as [H|H]; cbn in H; [left|right]; cbn; lia).
  assert (Hw1 : seg_wf keys (pl, pi - 1)) by (unfold seg_wf; cbn; lia).
  assert (Hw2 : seg_wf keys (S pi, pr)) by (unfold seg_wf; cbn; lia).
  split; cbn; (split; [done|]); (split; [|split; [done|split; [|done]]]).
  - intros b Hb. apply elem_of_cons in Hb as [->|Hb]; [unfold seg_disjoint; cbn; lia|].
    apply (Hd' pl (pi - 1) ltac:(lia) ltac:(lia) b Hb).
  - apply (Hd' (S pi) pr ltac:(lia) ltac:(lia)).
  - intros b Hb. apply elem_of_cons in Hb as [->|Hb]; [unfold seg_disjoint; cbn; lia|].
    apply (Hd' (S pi) pr ltac:(lia) ltac:(lia) b Hb).
  - apply (Hd' pl (pi - 1) ltac:(lia) ltac:(lia)).
Qed.

Lemma part_while_spec n s pl pr cd stk s' pl' pr' stk' :
  sort_ok keys s -> pending_ok keys s ((pl, pr) :: segs_of stk) ->
  segs_ok keys ((pl, pr) :: segs_of stk) ->
  part_while keys n s pl pr cd stk = (s', pl', pr', stk') ->
  sort_ok keys s' /\ pending_ok keys s' ((pl', pr') :: segs_of stk') /\
  segs_ok keys ((pl', pr') :: segs_of stk') /\
  sum_list_with seg_size ((pl', pr') :: segs_of stk') <=
    sum_list_with seg_size ((pl, pr) :: segs_of stk).
Proof.
  revert s pl pr cd stk. induction n as [|n IH]; intros s pl pr cd stk Hs Hp Hok.
  { cbn. intros [= <- <- <- <-]. auto. }
  cbn -[partition Nat.ltb sum_list_with seg_size segs_of segs_ok pending_ok].
  destruct (Nat.ltb_spec 16 (pr - pl)) as [H16|H16].
  2:{ intros [= <- <- <- <-]. auto. }
  destruct (partition keys s pl pr) as [s1 pi] eqn:Ep.
  pose proof Hok as (Hw & _). unfold seg_wf in Hw; cbn in Hw.
  destruct (partition_spec s pl pr s1 pi Hs H16 ltac:(lia) Ep) as (Hs1 & Hf1 & Hpi & Hlo & Hhi).
  destruct (part_segs pl pr pi (segs_of stk) Hok Hpi) as [Hok1 Hok2].
  destruct (Nat.ltb_spec (pi - pl) (pr - pi)); intros Hrec.
  - destruct (IH s1 pl (pi - 1) (cd - 1)%Z ((S pi, pr, (cd - 1)%Z) :: stk) Hs1) as (? & ? & ? & Hsz).
    + apply (part_pending s s1 pl pr pi (segs_of stk) [(pl, pi - 1); (S pi, pr)]); try done;
        set_solver.
    + exact Hok1.
    + exact Hrec.
    + split; [done|]. split; [done|]. split; [done|].
      rewrite segs_of_cons, !sum_size_cons in Hsz. rewrite !sum_size_cons. cbn [fst snd] in *. lia.
  - destruct (IH s1 (S pi) pr (cd - 1)%Z ((pl, pi - 1, (cd - 1)%Z) :: stk) Hs1) as (? & ? & ? & Hsz).
    + apply (part_pending s s1 pl pr pi (segs_of stk) [(S pi, pr); (pl, pi - 1)]); try done;
        set_solver.
    + exact Hok2.
    + exact Hrec.
    + split; [done|]. split; [done|]. split; [done|].
      rewrite segs_of_cons, !sum_size_cons in Hsz. rewrite !sum_size_cons. cbn [fst snd] in *. lia.
Qed.

Lemma qs_loop_spec n s pl pr cd stk :
  sort_ok keys s -> pending_ok keys s ((pl, pr) :: segs_of stk) ->
  segs_ok keys ((pl, pr) :: segs_of stk) ->
  sum_list_with seg_size ((pl, pr) :: segs_of stk) <= n ->
  sort_ok keys (qs_loop keys n s pl pr cd stk) /\ pending_ok keys (qs_loop keys n s pl pr cd stk) [].
Proof.
  revert s pl pr cd stk. induction n as [|n IH]; intros s pl pr cd stk Hs Hp Hok Hn.
  { exfalso. destruct Hok as (Hw & _). unfold seg_wf in Hw. rewrite sum_size_cons in Hn. cbn [fst snd] in Hn, Hw. lia. }
  assert (Hk : forall s1 stk1, sort_ok keys s1 -> pending_ok keys s1 (segs_of stk1) ->
            segs_ok keys (segs_of stk1) ->
            sum_list_with seg_size (segs_of stk1) < sum_list_with seg_size ((pl, pr) :: segs_of stk) ->
            sort_ok keys (match stk1 with [] => s1 | (l, r, d) :: stk' => qs_loop keys n s1 l r d stk' end) /\
            pending_ok keys (match stk1 with [] => s1 | (l, r, d) :: stk' => qs_loop keys n s1 l r d stk' end) []).
  { intros s1 [|[[l r] d] stk'] Hs1 Hp1 Hok1 Hlt; [done|]. rewrite segs_of_cons in Hlt. apply IH; try done. lia. }
  pose proof Hok as (Hw & _). unfold seg_wf in Hw; cbn in Hw.
  cbn -[aheapsort part_while insertion fuel].
  destruct (cd <? 0)%Z.
  - destruct (aheapsort_spec s pl (S pr - pl) Hs ltac:(lia) ltac:(lia)) as (Hs1 & Hf1 & Hsort1).
    replace (pl + (S pr - pl) - 1) with pr in * by lia.
    apply Hk; try done.
    + exact (sort_cur s _ pl pr (segs_of stk) Hp Hok Hf1 Hsort1).
    + apply Hok.
    + rewrite sum_size_cons. cbn [fst snd]. lia.
  - destruct (part_while keys (fuel keys) s pl pr cd stk) as [[[s2 pl2] pr2] stk2] eqn:Ew.
    destruct (part_while_spec _ _ _ _ _ _ _ _ _ _ Hs Hp Hok Ew) as (Hs2 & Hp2 & Hok2 & Hsz).
    pose proof Hok2 as (Hw2 & _). unfold seg_wf in Hw2; cbn in Hw2.
    destruct (insertion_spec s2 pl2 pr2 Hs2 ltac:(lia) ltac:(lia)) as (Hs3 & Hf3 & Hsort3).
    apply Hk; try done.
    + exact (sort_cur s2 _ pl2 pr2 (segs_of stk2) Hp2 Hok2 Hf3 Hsort3).
    + apply Hok2.
    + rewrite !sum_size_cons in Hsz. rewrite sum_size_cons. cbn [fst snd] in Hsz |- *. lia.
Qed.

Lemma aquicksort_sorted :
  sort_ok keys (aquicksort keys) /\
  forall i j, i < j -> j < m -> le (get (aquicksort keys) i) (get (aquicksort keys) j).
Proof.
  unfold aquicksort.
  assert (Hs0 : sort_ok keys (St (seq 0 m) false)).
  { split; [|done]. unfold sort_inv; cbn. rewrite length_seq. split; [done|].
    apply Forall_forall. intros x Hx%elem_of_seq. lia. }
  destruct (qs_loop_spec (fuel keys) (St (seq 0 m) false) 0 (m - 1) (2 * Z.log2 (Z.of_nat m))%Z [] Hs0)
    as [Hs Hp].
  - intros i j Hij Hj Hnot. exfalso. apply (Hnot 0 (m - 1)); [set_solver|lia].
  - cbn. split; [unfold seg_wf; cbn; lia|]. split; [set_solver|done].
  - rewrite sum_size_cons. unfold fuel; cbn [fst snd sum_list_with segs_of map]. lia.
  - split; [done|]. intros i j Hij Hj. apply Hp; [done|done|]. intros l r Hlr. set_solver.
Qed.

End Correct.
End NpSortCorrect.

Lemma nargsort_sorted col order :
  (forall v, v ∈ col -> is_na v = true \/ exists t, v = Str t) ->
  nargsort col = inr order ->
  forall i j a b u, i < j -> order !! i = Some a -> order !! j = Some b -> col !!! b = Str u ->
    exists t, col !!! a = Str t /\ String.compare u t <> Lt.
Proof.
  intros Hcol. unfold nargsort.
  set (nn := filter (fun i => is_na (col !!! i) = false) (seq 0 (length col))).
  set (na := filter (fun i => is_na (col !!! i) = true) (seq 0 (length col))).
  set (items := map (fun i => col !!! i) nn).
  destruct (NpSort.failed (NpSort.aquicksort items)) eqn:Efail; [discriminate|].
  intros [= <-] i j a b u Hij Ha Hb Hu.
  assert (Hnn : forall p, p < length items -> exists t, items !!! p = Str t /\ col !!! (nn !!! p) = Str t).
  { intros p Hp. unfold items in Hp. rewrite length_map in Hp.
    destruct (lookup_lt_is_Some_2 _ _ Hp) as [c Hc].
    assert (Hitem : items !!! p = col !!! c).
    { unfold items. apply list_lookup_total_correct. rewrite list_lookup_fmap, Hc. reflexivity. }
    rewrite (list_lookup_total_correct _ _ _ Hc), Hitem.
    apply list_elem_of_lookup_2, list_elem_of_filter in Hc as [Hna Hc%elem_of_seq].
    destruct (lookup_lt_is_Some_2 col c ltac:(lia)) as [v Hv].
    rewrite (list_lookup_total_correct _ _ _ Hv) in Hna |- *.
    destruct (Hcol v ltac:(by eapply list_elem_of_lookup_2)) as [Hv'|[t ->]]; [congruence|eauto]. }
  pose proof (NpSortFacts.aquicksort_inv items) as [Hlen Hall].
  apply lookup_app_Some in Hb as [Hb|[Hjb Hb]].
  2:{ exfalso. apply list_elem_of_lookup_2, list_elem_of_filter in Hb as [Hb _]. by rewrite Hu in Hb. }
  assert (Hi : i < length (map (fun p => nn !!! p) (NpSort.arr (NpSort.aquicksort items)))).
  { apply lookup_lt_Some in Hb. lia. }
  apply lookup_app_Some in Ha as [Ha|[Hia _]]; [|lia].
  apply list_lookup_fmap_Some in Ha as (x & -> & Hx).
  apply list_lookup_fmap_Some in Hb as (y & -> & Hy).
  pose proof (Forall_lookup_1 _ _ _ _ Hall Hx) as Hxl.
  pose proof (Forall_lookup_1 _ _ _ _ Hall Hy) as Hyl.
  destruct (Hnn x Hxl) as (t & Hxt & Hct). destruct (Hnn y Hyl) as (u' & Hyu & Hcu).
  rewrite Hu in Hcu. injection Hcu as <-.
  exists t. split; [done|].
  destruct (NpSortCorrect.aquicksort_sorted items) as [_ Hsorted].
  { intros p Hp. destruct (Hnn p Hp) as (t' & ? & _). eauto. }
  { cbn in Hxl; lia. }
  specialize (Hsorted i j Hij ltac:(apply lookup_lt_Some in Hy; lia)).
  unfold key_le, key_lt, NpSort.get in Hsorted.
  rewrite (list_lookup_total_correct _ _ _ Hx), (list_lookup_total_correct _ _ _ Hy), Hxt, Hyu in Hsorted.
  cbn in Hsorted. intros Hlt. apply bool_decide_eq_false_1 in Hsorted. by rewrite Hlt in Hsorted.
Qed.

Lemma sort_values_sorted c f f' :
  (forall r, r ∈ rows f -> is_na (cell_at r c) = true \/ exists t, cell_at r c = Str t) ->
  sort_values c f = inr f' ->
  forall i j ri rj u, i < j -> rows f' !! i = Some ri -> rows f' !! j = Some rj ->
    cell_at rj c = Str u -> exists t, cell_at ri c = Str t /\ String.compare u t <> Lt.
Proof.
  intros Hf. unfold sort_values. destruct (get_col f c) as [|col] eqn:Ec; [discriminate|].
  destruct (nargsort col) as [|order] eqn:Eo; [discriminate|]. intros [= <-] i j ri rj u Hij Hi Hj Hu.
  cbn in Hi, Hj. apply list_lookup_fmap_Some in Hi as (a & -> & Ha).
  apply list_lookup_fmap_Some in Hj as (b & -> & Hb).
  pose proof (get_col_length _ _ _ Ec) as Hlen. apply get_col_inr in Ec as [_ Ecol].
  assert (Hcell : forall k, k < length col -> col !!! k = cell_at (rows f !!! k) c).
  { intros k Hk. rewrite Hlen in Hk. destruct (lookup_lt_is_Some_2 _ _ Hk) as [r Hr].
    rewrite (list_lookup_total_correct _ _ _ Hr). apply list_lookup_total_correct.
    rewrite Ecol, list_lookup_fmap, Hr. reflexivity. }
  pose proof (nargsort_range _ _ Eo a ltac:(by eapply list_elem_of_lookup_2)) as Hal.
  pose proof (nargsort_range _ _ Eo b ltac:(by eapply list_elem_of_lookup_2)) as Hbl.
  rewrite <- Hcell in Hu |- * by done.
  refine (nargsort_sorted col order _ Eo i j a b u Hij Ha Hb Hu).
  intros v Hv. rewrite Ecol in Hv. apply list_elem_of_fmap in Hv as (r & -> & Hr). by apply Hf.
Qed.


(** ** The rows of the processed frame *)


Lemma loc_set_lookup mask c v f i r :
  rows (loc_set mask c v f) !! i = Some r ->
  exists r0 (b : bool), rows f !! i = Some r0 /\ mask !! i = Some b /\ r = if b then <[c:=v]> r0 else r0.
Proof.
  cbn. intros H. apply lookup_zip_with_Some in H as (r0 & b & -> & ? & ?). eauto.
Qed.

Lemma mask_rows_elem rs mask r :
  r ∈ mask_rows rs mask -> exists i, rs !! i = Some r /\ mask !! i = Some true.
Proof.
  revert mask; induction rs as [|r0 rs IH]; intros [|b mask] H; cbn in H;
    try by apply not_elem_of_nil in H.
  destruct b.
  - apply elem_of_cons in H as [->|H]; [exists 0; done|].
    destruct (IH _ H) as (i & ? & ?). by exists (S i).
  - destruct (IH _ H) as (i & ? & ?). by exists (S i).
Qed.

Lemma cell_at_insert_ne r c c' v : c <> c' -> cell_at (<[c:=v]> r) c' = cell_at r c'.
Proof. intros. unfold cell_at. by rewrite lookup_insert_ne. Qed.

Lemma cell_at_insert_eq r c v : cell_at (<[c:=v]> r) c = v.
Proof. unfold cell_at. by rewrite lookup_insert_eq. Qed.

Lemma select_columns cs f f' : select cs f = inr f' -> columns f' = cs.
Proof. unfold select. destruct list_find as [[]|]; [discriminate|]. by intros [= <-]. Qed.


Ltac split_hyp H :=
  repeat match type of H with
  | context [match ?X with inl _ => _ | inr _ => _ end] =>
      let hd := head_of X in is_const hd; let E := fresh "E" in destruct X eqn:E
  | context [match ?X with Some _ => _ | None => _ end] =>
      let hd := head_of X in is_const hd; let E := fresh "E" in destruct X eqn:E
  end.

(** Walks a row of a derived frame back to the rows it comes from. *)
Ltac walk_step :=
  match goal with
  | H1 : ?l !! ?i = Some ?x, H2 : ?l !! ?i = Some ?y |- _ =>
      rewrite H1 in H2; injection H2 as H2
  | H : ?x = ?y |- _ => is_var x; subst x
  | H : ?x = ?y |- _ => is_var y; subst y
  | H : Num _ = Num _ |- _ => injection H as H
  | H1 : cell_at ?r ?c = ?x, H2 : cell_at ?r ?c = ?y |- _ =>
      rewrite H1 in H2; injection H2 as H2
  | H : context [cell_at (<[?c:=_]> _) ?c] |- _ => rewrite cell_at_insert_eq in H
  | H : context [cell_at (<[_:=_]> _) _] |- _ => rewrite cell_at_insert_ne in H by discriminate
  | H : rows (assign _ _ _) !! _ = Some _ |- _ =>
      apply assign_lookup in H as (? & ? & ? & ? & ->)
  | H : ?l !! ?i = Some _, E : mapE _ ?l' = inr ?l |- _ =>
      destruct (mapE_lookup _ _ _ _ _ E H) as (? & ? & ?); clear H
  | H : ?l !! ?i = Some _, E : col_binop _ _ _ = inr ?l |- _ =>
      destruct (col_binop_lookup _ _ _ _ _ _ E H) as (? & ? & ? & ? & ?); clear H
  | H : ?l !! ?i = Some _, E : get_col _ _ = inr ?l |- _ =>
      destruct (get_col_lookup _ _ _ _ _ E H) as (? & ? & ?); clear H
  | H : replicate _ _ !! _ = Some _ |- _ =>
      apply lookup_replicate_1 in H as [? _]
  | H : num_unop _ _ = inr _ |- _ =>
      apply num_unop_inr in H as (? & ? & ?)
  end.



Lemma mask_rows_lookup rs mask j r :
  mask_rows rs mask !! j = Some r -> exists k, rs !! k = Some r /\ mask !! k = Some true.
Proof.
  revert mask j; induction rs as [|r0 rs IH]; intros [|b mask] j H; cbn in H; try discriminate.
  destruct b.
  - destruct j as [|j]; cbn in H.
    + injection H as <-. by exists 0.
    + destruct (IH _ _ H) as (k & ? & ?). by exists (S k).
  - destruct (IH _ _ H) as (k & ? & ?). by exists (S k).
Qed.

Lemma take_rows_lookup mask f j r :
  rows (take_rows mask f) !! j = Some r -> exists k, rows f !! k = Some r /\ mask !! k = Some true.
Proof. apply mask_rows_lookup. Qed.

Lemma gt_scalar_lookup col x bs j :
  gt_scalar col x = inr bs -> bs !! j = Some true ->
  exists a, col !! j = Some (Num a) /\ (x <? a)%float = true.
Proof.
  unfold gt_scalar. intros H Hj. destruct (mapE_lookup _ _ _ _ _ H Hj) as ([|a] & ? & Hg);
    cbn in Hg; [discriminate|]. injection Hg as ?. eauto.
Qed.

Lemma eq_str_lookup col s k :
  eq_str col s !! k = Some true -> col !! k = Some (Str s).
Proof.
  unfold eq_str. intros H. apply list_lookup_fmap_Some in H as ([t|x] & Ht & Hk); [|discriminate].
  symmetry in Ht. apply String.eqb_eq in Ht as <-. done.
Qed.

Lemma fillna0_clean_lookup nt l j v :
  fillna0 (clean_currency_column nt l) !! j = Some v -> exists x, v = Num x.
Proof.
  unfold fillna0, clean_currency_column, to_numeric. rewrite list_lookup_fmap, list_lookup_fmap.
  destruct (Pd.maybe_convert_numeric _ !! j) as [x|]; cbn; intros H; [|discriminate].
  injection H as <-. case_match; eauto.
Qed.

Lemma drop_cols_lookup cs f f' j r :
  drop_cols cs f = inr f' -> rows f' !! j = Some r ->
  exists r0, rows f !! j = Some r0 /\ forall c, c ∉ cs -> cell_at r c = cell_at r0 c.
Proof.
  unfold drop_cols. destruct list_find as [[]|]; [discriminate|]. intros [= <-] Hj.
  cbn in Hj. apply list_lookup_fmap_Some in Hj as (r0 & -> & Hr0).
  exists r0. split; [done|]. intros c Hc. unfold cell_at. rewrite map_lookup_filter.
  destruct (r0 !! c); cbn; [|done]. by rewrite option_guard_True.
Qed.

Lemma not_dropped (P : string -> Prop) `{!forall c, Decision (P c)} c :
  bool_decide (c ∉ COLUMNS_TO_DROP) = true -> c ∉ filter P COLUMNS_TO_DROP.
Proof.
  intros Hc%bool_decide_eq_true_1 Hin. apply list_elem_of_filter in Hin as [_ Hin]. done.
Qed.

Lemma process_excel_frame_rows nt f0 due daily wd ob f :
  process_excel_frame nt f0 due daily wd ob = inr f ->
  exists fk fs,
    sort_values "Customer Name" fk = inr fs /\
    (forall r, r ∈ rows fk ->
      cell_at r "Status" = Str "Overdue" /\
      (exists a, cell_at r "Age" = Num a /\ (due <? a)%float = true) /\
      (exists bd, cell_at r "Balance Due" = Num bd)) /\
    (forall r, r ∈ rows fk -> exists r0, r0 ∈ rows f0 /\
      cell_at r "Customer Name" = cell_at r0 "Customer Name") /\
    columns f = FINAL_COLUMNS /\
    forall i r, rows f !! i = Some r -> exists rs a bd, rows fs !! i = Some rs /\
      cell_at rs "Age" = Num a /\ cell_at rs "Balance Due" = Num bd /\
      cell_at r "Status" = cell_at rs "Status" /\
      cell_at r "Customer Name" = cell_at rs "Customer Name" /\
      cell_at r "Age" = Num a /\ cell_at r "Balance Due" = Num bd /\
      cell_at r "Due days" = Num due /\
      cell_at r "interst working" = Num (a - due)%float /\
      cell_at r "Previous interst" = Num (clip0 ((a - due) - (a - due)))%float /\
      cell_at r "per day interst%" = Num daily /\
      cell_at r "working interst in %" = Num ((a - due) * daily)%float /\
      cell_at r "interest amount" = Num (Py.np_round4 (bd * (((a - due) * daily) / 100)))%float.
Proof.
  unfold process_excel_frame. intros H. split_hyp H; try discriminate H.
  do 2 eexists. split; [eassumption|].
  split.
  { intros r Hr. apply list_elem_of_lookup in Hr as [j Hj].
  apply take_rows_lookup in Hj as (k & Hk & Hm).
  destruct (gt_scalar_lookup _ _ _ _ E6 Hm) as (a & Ha & Hlt).
  destruct (get_col_lookup _ _ _ _ _ E5 Ha) as (r' & Hr' & Hage).
  rewrite Hk in Hr'. injection Hr' as <-.
  apply loc_set_lookup in Hk as (r1 & b & Hr1 & Hb & ->).
  assert (forall c, c <> "Age" -> cell_at (if b then <["Age":=Num ob]> r1 else r1) c = cell_at r1 c)
    as Hif by (intros c Hc; destruct b; [by apply cell_at_insert_ne|done]).
  rewrite !Hif by discriminate.
  split; [|split; [eauto|]].
  - repeat walk_step. repeat (rewrite cell_at_insert_ne by discriminate).
    match goal with Hd : rows _ !! _ = Some ?r0 |- cell_at ?r0 _ = _ =>
      destruct (drop_cols_lookup _ _ _ _ _ E0 Hd) as (r2 & Hr2 & Hkeep) end.
    rewrite Hkeep by (apply not_dropped; vm_compute; reflexivity).
    apply take_rows_lookup in Hr2 as (k' & Hr2 & Hm').
    apply eq_str_lookup in Hm'.
    destruct (get_col_lookup _ _ _ _ _ E Hm') as (r3 & Hr3 & Hst).
    rewrite Hr2 in Hr3. by injection Hr3 as <-.
  - rewrite Hif by discriminate.
    repeat walk_step. repeat (rewrite cell_at_insert_ne by discriminate).
    rewrite cell_at_insert_eq.
    match goal with Hv : fillna0 (clean_currency_column _ _) !! _ = Some ?v |- _ =>
      destruct (fillna0_clean_lookup _ _ _ _ Hv) as [y ->] end.
    by eexists.
  }
  split.
  { intros r Hr. apply list_elem_of_lookup in Hr as [j Hj].
    apply take_rows_lookup in Hj as (k & Hk & _).
    apply loc_set_lookup in Hk as (r1 & b & Hr1 & _ & ->).
    assert (Hn : cell_at (if b then <["Age":=Num ob]> r1 else r1) "Customer Name" =
                 cell_at r1 "Customer Name")
      by (destruct b; [by apply cell_at_insert_ne|done]).
    rewrite Hn. clear Hn.
    repeat walk_step. repeat (rewrite cell_at_insert_ne by discriminate).
    match goal with Hd : rows _ !! _ = Some ?r0 |- context [cell_at ?r0 "Customer Name"] =>
      destruct (drop_cols_lookup _ _ _ _ _ E0 Hd) as (r2 & Hr2 & Hkeep) end.
    rewrite Hkeep by (apply not_dropped; vm_compute; reflexivity).
    apply take_rows_lookup in Hr2 as (k' & Hr2 & _).
    exists r2. split; [by eapply list_elem_of_lookup_2|done]. }
  split; [by eapply select_columns|].
  intros i r Hr. destruct (select_lookup _ _ _ _ _ H Hr) as (r0 & Hr0 & Hsel).
  repeat walk_step.
  match goal with
  | H0 : rows _ !! i = Some ?rs, HA : cell_at ?rs "Age" = Num ?a,
    HB : cell_at ?rs "Balance Due" = Num ?bd |- _ =>
      exists rs, a, bd; split; [exact H0|]; rewrite HA, HB
  end.
  rewrite !Hsel by (apply (bool_decide_unpack _); vm_compute; exact I).
  (repeat first [rewrite cell_at_insert_eq | rewrite cell_at_insert_ne by discriminate]).
  match goal with HA : cell_at _ "Age" = _, HB : cell_at _ "Balance Due" = _ |- _ => rewrite HA, HB end.
  (repeat split).
Qed.

(** ** Observing runs *)

Lemma computes_returns m h r (P : frame -> Prop) :
  computes m h r -> (forall f, r = inr f -> P f) -> returns m h P.
Proof.
  unfold computes, returns. destruct (m h) as [e|[p h']]; [done|].
  intros (f & -> & Hp & _) HP. eauto.
Qed.

Lemma computes_preserves m (n : nat) o r :
  heap_wf (Heap n o) -> computes m (Heap n o) r -> preserves m (Heap n o).
Proof.
  unfold computes, preserves. destruct (m _) as [e|[p h']]; [done|].
  intros Hwf (f & _ & _ & _ & Hq) q g Hg. rewrite Hq; [done|]. by eapply Hwf.
Qed.

Lemma heap_wf_decide (n : nat) (o : gmap nat frame) :
  bool_decide (map_Forall (fun p _ => p < n) o) = true -> heap_wf (Heap n o).
Proof. intros H%bool_decide_eq_true_1. exact H. Qed.

Lemma sample_heap_wf : heap_wf sample_heap.
Proof. apply heap_wf_decide. vm_compute. reflexivity. Qed.

Lemma ltb_not_nan x a : (x <? a)%float = true -> is_nan a = false.
Proof.
  rewrite FloatAxioms.ltb_spec. unfold is_nan. rewrite FloatAxioms.eqb_spec.
  destruct (Prim2SF x) as [[]|[]| |[] m e], (Prim2SF a) as [[]|[]| |[] m' e'];
    cbn; try discriminate; intros _;
    try rewrite Z.compare_refl; try rewrite Pos.compare_cont_refl; reflexivity.
Qed.

Lemma select_keys cs f f' :
  select cs f = inr f' -> forall r c, r ∈ rows f' -> c ∉ cs -> r !! c = None.
Proof.
  unfold select. destruct list_find as [[]|]; [discriminate|]. intros [= <-] r c Hr Hc.
  cbn in Hr. apply list_elem_of_fmap in Hr as (r0 & -> & _).
  rewrite map_lookup_filter. destruct (r0 !! c); cbn; [|done].
  by rewrite option_guard_False.
Qed.

Lemma sub_self_finite x : is_finite x = true -> (x - x)%float = zero.
Proof.
  intros H. apply Prim2SF_inj. rewrite FloatAxioms.sub_spec.
  unfold is_finite, is_nan, is_infinity in H.
  rewrite FloatAxioms.eqb_spec, FloatAxioms.eqb_spec, FloatAxioms.abs_spec in H.
  destruct (Prim2SF x) as [[]|[]| |[] m e]; cbn in H |- *; try discriminate; try reflexivity;
  first [rewrite Z.sub_diag | rewrite Z.pos_sub_diag]; reflexivity.
Qed.

(** ** Composite keys and the verifier's records *)

Lemma composite_key_rows num_str f kc k :
  composite_key num_str f kc = inr k -> k = map (row_key num_str kc) (rows f).
Proof.
  unfold composite_key. destruct (select kc f) as [|sub] eqn:Hs; [discriminate|].
  case_bool_decide; [discriminate|]. intros [= <-].
  unfold select in Hs. destruct list_find as [[]|]; [discriminate|]. injection Hs as <-.
  cbn. rewrite map_map. apply map_ext_in. intros r Hr. unfold row_key, key_text_of. f_equal. f_equal.
  apply map_ext_in. intros c Hc%list_elem_of_In. f_equal. unfold cell_at.
  rewrite map_lookup_filter. destruct (r !! c); cbn; [|done].
  by rewrite option_guard_True.
Qed.

Lemma get_col_assign_same c vals f l :
  length vals = length (rows f) -> get_col (assign c vals f) c = inr l -> l = vals.
Proof.
  intros Hlen [_ ->]%get_col_inr. cbn. clear -Hlen. revert vals Hlen.
  induction (rows f) as [|r rs IH]; intros [|v vals] Hlen; cbn in *; try done.
  rewrite cell_at_insert_eq. f_equal. apply IH. lia.
Qed.

Lemma row_get_add_label cols r c v c' :
  c' <> c -> row_get (add_label c cols) (<[c:=v]> r) c' = row_get cols r c'.
Proof.
  intros Hne. unfold row_get, add_label. rewrite cell_at_insert_ne by done.
  assert (Hiff : c' ∈ (if bool_decide (c ∈ cols) then cols else (cols ++ [c])%list) <-> c' ∈ cols).
  { case_bool_decide; [done|]. rewrite elem_of_app, list_elem_of_singleton. naive_solver. }
  by rewrite (bool_decide_ext _ _ Hiff).
Qed.

Lemma mismatch_record_key kind cols r v :
  mismatch_record kind (add_label "_composite_key" cols) (<["_composite_key":=v]> r) =
  mismatch_record kind cols r.
Proof. unfold mismatch_record. by rewrite !row_get_add_label. Qed.

Lemma mask_records kind cols (g : row -> cell) ek (rs : list row) :
  map (mismatch_record kind (add_label "_composite_key" cols))
    (mask_rows (zip_with (fun (r : row) v => <["_composite_key":=v]> r) rs (map g rs))
       (map (fun k => negb (isin k ek)) (map g rs))) =
  map (mismatch_record kind cols) (filter (fun r => negb (isin (g r) ek)) rs).
Proof.
  induction rs as [|r rs IH]; [done|]. cbn [map zip_with mask_rows negb].
  destruct (isin (g r) ek) eqn:Hk; cbn [negb].
  - rewrite filter_cons_False by (rewrite Hk; auto). done.
  - rewrite filter_cons_True by (rewrite Hk; exact I). cbn [map]. by rewrite mismatch_record_key, IH.
Qed.

Lemma zip_with_map_self {A B C} (h : A -> B -> C) (g : A -> B) (l : list A) :
  zip_with h l (map g l) = (fun x => h x (g x)) <$> l.
Proof. induction l as [|x l IH]; [done|]. cbn. by rewrite IH. Qed.

Lemma first_with_key_keyed num_str kc f key r :
  first_with_key (assign "_composite_key" (map (row_key num_str kc) (rows f)) f) key = inr r ->
  key_row num_str kc f key = Some r.
Proof.
  unfold first_with_key, key_row. cbn [rows assign].
  rewrite zip_with_map_self, list_find_fmap.
  rewrite (list_find_ext _ (fun r => String.eqb (key_text_of num_str kc r) key = true));
    [|intros x; cbn; by rewrite cell_at_insert_eq].
  destruct list_find as [[i r0]|] eqn:E; cbn; [|discriminate]. intros [= <-].
  apply list_find_Some in E as (_ & Hk & _). apply String.eqb_eq in Hk. by subst.
Qed.

Lemma compare_value_spec num_str decimal prow col pv ev rec :
  compare_value num_str decimal prow col pv ev = Some rec <->
  is_na pv = false /\ is_na ev = false /\
  ((exists p e, py_float decimal pv = Some p /\ py_float decimal ev = Some e /\
      (0.01 <? PrimFloat.abs (p - e))%float = true /\
      rec = value_record prow col pv ev (Num (Py.py_round4 (p - e)))) \/
   ((py_float decimal pv = None \/ py_float decimal ev = None) /\
      py_str num_str pv <> py_str num_str ev /\
      rec = value_record prow col pv ev (Str "N/A"))).
Proof.
  unfold compare_value.
  destruct (is_na pv), (is_na ev); cbn; try (split; [discriminate|intros (? & ? & _); discriminate]).
  destruct (py_float decimal pv) as [p|], (py_float decimal ev) as [e|].
  - destruct (0.01 <? _)%float eqn:Hlt; split.
    + intros [= <-]. split; [done|]. split; [done|]. left. eauto 7.
    + intros (_ & _ & [(p' & e' & [= <-] & [= <-] & _ & ->)|([?|?] & _)]); done.
    + discriminate.
    + intros (_ & _ & [(p' & e' & [= <-] & [= <-] & Hlt' & _)|([?|?] & _)]); congruence.
  - destruct (String.eqb _ _) eqn:Hs; cbn; split.
    + discriminate.
    + intros (_ & _ & [(? & ? & _ & ? & _)|(_ & Hne & _)]); [discriminate|].
      by apply String.eqb_eq in Hs.
    + intros [= <-]. do 2 (split; [done|]). right. split; [by right|]. split; [|done].
      intros Heq. apply String.eqb_eq in Heq. congruence.
    + intros (_ & _ & [(? & ? & _ & ? & _)|(_ & _ & ->)]); [discriminate|done].
  - destruct (String.eqb _ _) eqn:Hs; cbn; split.
    + discriminate.
    + intros (_ & _ & [(? & ? & ? & _)|(_ & Hne & _)]); [discriminate|].
      by apply String.eqb_eq in Hs.
    + intros [= <-]. do 2 (split; [done|]). right. split; [by left|]. split; [|done].
      intros Heq. apply String.eqb_eq in Heq. congruence.
    + intros (_ & _ & [(? & ? & ? & _)|(_ & _ & ->)]); [discriminate|done].
  - destruct (String.eqb _ _) eqn:Hs; cbn; split.
    + discriminate.
    + intros (_ & _ & [(? & ? & ? & _)|(_ & Hne & _)]); [discriminate|].
      by apply String.eqb_eq in Hs.
    + intros [= <-]. do 2 (split; [done|]). right. split; [by left|]. split; [|done].
      intros Heq. apply String.eqb_eq in Heq. congruence.
    + intros (_ & _ & [(? & ? & ? & _)|(_ & _ & ->)]); [discriminate|done].
Qed.

(** ** compare_dataframes on equal inputs *)

Lemma filter_all_false {A} (P : A -> Prop) `{!forall x, Decision (P x)} (l : list A) :
  (forall x, x ∈ l -> ~ P x) -> filter P l = [].
Proof.
  induction l as [|x l IH]; intros Hl; [done|].
  rewrite filter_cons_False; [|apply Hl; left]. apply IH. intros y Hy. apply Hl. by right.
Qed.

Lemma unique_acc_elem acc l x : x ∈ unique_acc acc l -> x ∈ acc \/ x ∈ l.
Proof.
  revert acc; induction l as [|y l IH]; intros acc Hx; cbn in Hx.
  - left. apply list_elem_of_In, in_rev, list_elem_of_In in Hx. done.
  - destruct existsb.
    + destruct (IH _ Hx) as [?|?]; [by left|right; by right].
    + destruct (IH _ Hx) as [Hx'|?]; [|right; by right].
      apply elem_of_cons in Hx' as [->|?]; [right; left|by left].
Qed.

Lemma py_eq_refl x : is_na x = false -> py_eq x x = true.
Proof.
  destruct x as [s|y]; cbn; [intros _; apply String.eqb_refl|].
  unfold is_nan. by destruct (y =? y)%float.
Qed.

Lemma set_diff_self l : Forall (fun x => is_na x = false) l -> set_diff (unique l) (unique l) = [].
Proof.
  intros Hl. unfold set_diff. apply filter_all_false. intros x Hx Hn.
  assert (Hxl : x ∈ l) by (destruct (unique_acc_elem _ _ _ Hx) as [Hx'|]; [by apply not_elem_of_nil in Hx'|done]).
  rewrite Forall_forall in Hl. specialize (Hl _ Hxl).
  assert (He : existsb (py_eq x) (unique l) = true).
  { apply existsb_exists. exists x. split; [by apply list_elem_of_In|by apply py_eq_refl]. }
  rewrite He in Hn. exact Hn.
Qed.

(* ================================================================== *)
(** * The specification's claims *)

(** ** process_excel *)

(** C1: for every row of the frame process_excel returns, "per day interst%" is the
    configured daily rate, "working interst in %" is the row's "interst working" times that
    rate, and "interest amount" is Balance Due * (working interst in % / 100) rounded to
    4 decimals. *)
Theorem process_excel_interest_amount nt df due daily wd ob (n : nat) o f0 :
  heap_wf (Heap n o) -> o !! df = Some f0 ->
  returns (process_excel nt df due daily wd ob) (Heap n o) (fun f =>
    forall r, r ∈ rows f -> exists bd iw,
      cell_at r "Balance Due" = Num bd /\
      cell_at r "interst working" = Num iw /\
      cell_at r "per day interst%" = Num daily /\
      cell_at r "working interst in %" = Num (iw * daily)%float /\
      cell_at r "interest amount" = Num (Py.np_round4 (bd * ((iw * daily) / 100)))%float).
Proof.
  intros Hwf Hdf. eapply computes_returns; [by apply process_excel_computes|].
  intros f Hf r Hr. apply list_elem_of_lookup in Hr as [i Hi].
  destruct (process_excel_frame_rows _ _ _ _ _ _ _ Hf) as (fk & fs & _ & _ & _ & _ & Hrows).
  destruct (Hrows _ _ Hi) as (rs & a & bd & _ & _ & _ & _ & _ & _ & Hbd & _ & Hiw & _ & Hd & Hwi & Hia).
  exists bd, (a - due)%float. repeat split; assumption.
Qed.

Lemma C1_witness :
  heap_wf sample_heap /\ objs sample_heap !! 0 = Some sample_input /\
  returns (process_excel no_numbers 0 150 0.06 31 200) sample_heap (fun f =>
    forall r, r ∈ rows f -> exists bd iw,
      cell_at r "Balance Due" = Num bd /\
      cell_at r "interst working" = Num iw /\
      cell_at r "per day interst%" = Num 0.06 /\
      cell_at r "working interst in %" = Num (iw * 0.06)%float /\
      cell_at r "interest amount" = Num (Py.np_round4 (bd * ((iw * 0.06) / 100)))%float).
Proof.
  split; [apply heap_wf_decide; vm_compute; reflexivity|]. split; [reflexivity|].
  apply (process_excel_interest_amount no_numbers 0 150 0.06 31 200 1 {[0 := sample_input]} sample_input);
    [apply heap_wf_decide; vm_compute; reflexivity | reflexivity].
Defined.

(** C2: every row of the frame process_excel returns has Status "Overdue" and a cleaned Age
    that is a number, not NaN, and strictly greater than the due-days threshold. *)
Theorem process_excel_overdue_rows nt df due daily wd ob (n : nat) o f0 :
  heap_wf (Heap n o) -> o !! df = Some f0 ->
  returns (process_excel nt df due daily wd ob) (Heap n o) (fun f =>
    forall r, r ∈ rows f ->
      cell_at r "Status" = Str "Overdue" /\
      exists a, cell_at r "Age" = Num a /\ is_nan a = false /\ (due <? a)%float = true).
Proof.
  intros Hwf Hdf. eapply computes_returns; [by apply process_excel_computes|].
  intros f Hf r Hr. apply list_elem_of_lookup in Hr as [i Hi].
  destruct (process_excel_frame_rows _ _ _ _ _ _ _ Hf) as (fk & fs & Hsort & Hpre & _ & _ & Hrows).
  destruct (Hrows _ _ Hi) as (rs & a & bd & Hrs & Hage & _ & Hst & _ & Hage' & _).
  apply list_elem_of_lookup_2 in Hrs.
  apply sort_values_rows in Hsort as [_ Hsub].
  destruct (Hpre _ (Hsub _ Hrs)) as (Hov & (a' & Ha' & Hlt) & _).
  rewrite Hage in Ha'. injection Ha' as <-.
  split; [by rewrite Hst|]. exists a. split; [done|]. split; [by eapply ltb_not_nan|done].
Qed.

Lemma C2_witness :
  heap_wf sample_heap /\ objs sample_heap !! 0 = Some sample_input /\
  returns (process_excel no_numbers 0 150 0.06 31 200) sample_heap (fun f =>
    forall r, r ∈ rows f ->
      cell_at r "Status" = Str "Overdue" /\
      exists a, cell_at r "Age" = Num a /\ is_nan a = false /\ (150 <? a)%float = true).
Proof.
  split; [apply heap_wf_decide; vm_compute; reflexivity|]. split; [reflexivity|].
  apply (process_excel_overdue_rows no_numbers 0 150 0.06 31 200 1 {[0 := sample_input]} sample_input);
    [apply heap_wf_decide; vm_compute; reflexivity | reflexivity].
Defined.


(** An Age of "inf Days" parses to infinity: interst working is infinity and
    Previous interst is clip(inf - inf) = NaN, which is not >= 0. *)
Lemma process_excel_infinite_age_counterexample :
  output_cells (process_excel no_numbers 0 150 0.06 31 200) (single_row_heap "inf Days" "10,000")
    ["Age"; "interst working"; "Previous interst"] =
  Some [[Num infinity; Num infinity; Num nan]] /\ (0 <=? nan)%float = false.
Proof. vm_compute. split; reflexivity. Qed.

(** C4 (amended): for every row of the frame process_excel returns, interst working is
    Age - due days with no cap, Previous interst is clip(Age - due days - interst working, 0),
    and Previous interst is 0 whenever Age - due days is finite. *)
Theorem process_excel_interest_days nt df due daily wd ob (n : nat) o f0 :
  heap_wf (Heap n o) -> o !! df = Some f0 ->
  returns (process_excel nt df due daily wd ob) (Heap n o) (fun f =>
    forall r, r ∈ rows f -> exists a,
      cell_at r "Age" = Num a /\
      cell_at r "interst working" = Num (a - due)%float /\
      cell_at r "Previous interst" = Num (clip0 ((a - due) - (a - due)))%float /\
      (is_finite (a - due) = true -> cell_at r "Previous interst" = Num 0)).
Proof.
  intros Hwf Hdf. eapply computes_returns; [by apply process_excel_computes|].
  intros f Hf r Hr. apply list_elem_of_lookup in Hr as [i Hi].
  destruct (process_excel_frame_rows _ _ _ _ _ _ _ Hf) as (fk & fs & _ & _ & _ & _ & Hrows).
  destruct (Hrows _ _ Hi) as (rs & a & bd & _ & _ & _ & _ & _ & Ha & _ & _ & Hiw & Hp & _).
  exists a. do 3 (split; [done|]). intros Hfin. rewrite Hp, sub_self_finite by done.
  reflexivity.
Qed.

Lemma C4_witness :
  heap_wf sample_heap /\ objs sample_heap !! 0 = Some sample_input /\
  returns (process_excel no_numbers 0 150 0.06 31 200) sample_heap (fun f =>
    forall r, r ∈ rows f -> exists a,
      cell_at r "Age" = Num a /\
      cell_at r "interst working" = Num (a - 150)%float /\
      cell_at r "Previous interst" = Num (clip0 ((a - 150) - (a - 150)))%float /\
      (is_finite (a - 150) = true -> cell_at r "Previous interst" = Num 0)).
Proof.
  split; [apply heap_wf_decide; vm_compute; reflexivity|]. split; [reflexivity|].
  apply (process_excel_interest_days no_numbers 0 150 0.06 31 200 1 {[0 := sample_input]} sample_input);
    [apply heap_wf_decide; vm_compute; reflexivity | reflexivity].
Defined.

(** C5: the frame process_excel returns has exactly the columns FINAL_COLUMNS, in that
    order, and no row of it holds a cell of any other column. *)
Theorem process_excel_columns nt df due daily wd ob (n : nat) o f0 :
  heap_wf (Heap n o) -> o !! df = Some f0 ->
  returns (process_excel nt df due daily wd ob) (Heap n o) (fun f =>
    columns f = FINAL_COLUMNS /\
    forall r c, r ∈ rows f -> c ∉ FINAL_COLUMNS -> r !! c = None).
Proof.
  intros Hwf Hdf. eapply computes_returns; [by apply process_excel_computes|].
  intros f Hf. unfold process_excel_frame in Hf. split_hyp Hf; try discriminate Hf.
  split; [by eapply select_columns|]. by eapply select_keys.
Qed.

Lemma C5_witness :
  heap_wf sample_heap /\ objs sample_heap !! 0 = Some sample_input /\
  returns (process_excel no_numbers 0 150 0.06 31 200) sample_heap (fun f =>
    columns f = FINAL_COLUMNS /\
    forall r c, r ∈ rows f -> c ∉ FINAL_COLUMNS -> r !! c = None).
Proof.
  split; [apply heap_wf_decide; vm_compute; reflexivity|]. split; [reflexivity|].
  apply (process_excel_columns no_numbers 0 150 0.06 31 200 1 {[0 := sample_input]} sample_input);
    [apply heap_wf_decide; vm_compute; reflexivity | reflexivity].
Defined.

(** ** data_verifier.py *)


(** Eighteen rows with the same Customer Name, Transaction# "a" to "r" in
    this order: the sort returns them as a, p, o, ..., b, q, r, so rows with
    equal names do not keep the order of the filtered table. *)
Lemma process_excel_tie_order_counterexample :
  output_cells (process_excel no_numbers 0 30 0.06 31 200) tie_heap ["Customer Name"; "Transaction#"] =
  Some (map (fun k => [Str "Alpha Stores"; Str (String (Ascii.ascii_of_nat (97 + k)) EmptyString)])
          (0 :: rev (seq 1 15) ++ [16; 17])).
Proof. vm_compute. reflexivity. Qed.

(** C6 (amended): when every Customer Name of the input is a string or missing, the rows
    of the frame process_excel returns with a string Customer Name come first, in ascending
    case-sensitive lexical order (String.compare) of Customer Name. *)
Theorem process_excel_sorted_by_name nt df due daily wd ob (n : nat) o f0 :
  heap_wf (Heap n o) -> o !! df = Some f0 ->
  forallb (fun r => match cell_at r "Customer Name" with Str _ => true | Num x => is_nan x end)
    (rows f0) = true ->
  returns (process_excel nt df due daily wd ob) (Heap n o) (fun f =>
    forall i j ri rj u, i < j -> rows f !! i = Some ri -> rows f !! j = Some rj ->
      cell_at rj "Customer Name" = Str u ->
      exists t, cell_at ri "Customer Name" = Str t /\ String.compare t u <> Gt).
Proof.
  intros Hwf Hdf Hnames. eapply computes_returns; [by apply process_excel_computes|].
  intros f Hf. destruct (process_excel_frame_rows _ _ _ _ _ _ _ Hf) as (fk & fs & Hsort & _ & Hprov & _ & Hrows).
  intros i j ri rj u Hij Hi Hj Hu.
  destruct (Hrows i ri Hi) as (rsi & ai & bdi & Hrsi & _ & _ & _ & Hcni & _).
  destruct (Hrows j rj Hj) as (rsj & aj & bdj & Hrsj & _ & _ & _ & Hcnj & _).
  rewrite Hcnj in Hu. rewrite Hcni.
  assert (Hfk : forall r, r ∈ rows fk ->
            is_na (cell_at r "Customer Name") = true \/ exists t, cell_at r "Customer Name" = Str t).
  { intros r Hr. destruct (Hprov r Hr) as (r0 & Hr0 & ->).
    apply forallb_forall with (x := r0) in Hnames; [|by apply list_elem_of_In].
    destruct (cell_at r0 "Customer Name") as [t|x]; [eauto|by left]. }
  destruct (sort_values_sorted _ _ _ Hfk Hsort i j rsi rsj u Hij Hrsi Hrsj Hu) as (t & Ht & Hc).
  exists t. split; [done|]. rewrite String.compare_antisym. by destruct (String.compare u t).
Qed.

Lemma C6_witness :
  heap_wf sample_heap /\ objs sample_heap !! 0 = Some sample_input /\
  returns (process_excel no_numbers 0 30 0.06 31 200) sample_heap (fun f =>
    forall i j ri rj u, i < j -> rows f !! i = Some ri -> rows f !! j = Some rj ->
      cell_at rj "Customer Name" = Str u ->
      exists t, cell_at ri "Customer Name" = Str t /\ String.compare t u <> Gt).
Proof.
  split; [apply heap_wf_decide; vm_compute; reflexivity|]. split; [reflexivity|].
  apply (process_excel_sorted_by_name no_numbers 0 30 0.06 31 200 1 {[0 := sample_input]} sample_input);
    [apply heap_wf_decide; vm_compute; reflexivity | reflexivity | vm_compute; reflexivity].
Defined.

(** A missing processed Age against the non-numeric expected Age "abc": the string forms
    differ and "abc" is not numeric, yet no mismatch is reported, because values are
    compared only when both are present. *)
Lemma get_value_comparison_missing_value_counterexample :
  output_cells (get_value_comparison (fun _ => "nan") (fun l => l) (fun _ => None) 0 1 None)
    (pair_heap (age_frame NaN) (age_frame (Str "abc"))) ["Message"] =
  Some [[Str "All compared values match!"]] /\
  py_float (fun _ => None) (Str "abc") = None /\ py_str (fun _ => "nan") NaN <> py_str (fun _ => "nan") (Str "abc").
Proof. vm_compute. split; [reflexivity|]. split; [reflexivity|]. discriminate. Qed.

(** C8 (amended): get_value_comparison compares at most 100 matched composite keys (the first
    100 of the common keys in the order [set_order] gives them), each against the first row
    of either frame with that key, and for each compared column present in both frames it
    reports a record if and only if both values are present and either both are numeric
    and their absolute difference exceeds 0.01 (Difference: the signed difference rounded to
    4 decimals), or one is not numeric and their string forms differ (Difference "N/A"). *)
Theorem get_value_comparison_records num_str set_order decimal P E cc (n : nat) o pf ef :
  heap_wf (Heap n o) -> o !! P = Some pf -> o !! E = Some ef ->
  (forall prow col pv ev rec,
    compare_value num_str decimal prow col pv ev = Some rec <->
    is_na pv = false /\ is_na ev = false /\
    ((exists p e, py_float decimal pv = Some p /\ py_float decimal ev = Some e /\
        (0.01 <? PrimFloat.abs (p - e))%float = true /\
        rec = value_record prow col pv ev (Num (Py.py_round4 (p - e)))) \/
     ((py_float decimal pv = None \/ py_float decimal ev = None) /\
        py_str num_str pv <> py_str num_str ev /\
        rec = value_record prow col pv ev (Str "N/A")))) /\
  returns (get_value_comparison num_str set_order decimal P E cc) (Heap n o) (fun f =>
    let rk := row_key num_str DEFAULT_KEY_COLUMNS in
    let common := common_keys num_str (map rk (rows pf)) (map rk (rows ef)) in
    let keys := take 100 (set_order common) in
    length keys <= 100 /\
    (common = [] -> f = message_frame "Message" "No matching rows found for comparison") /\
    (common <> [] -> exists recs,
       Forall2 (fun key recs_k => exists prow erow,
            key_row num_str DEFAULT_KEY_COLUMNS pf key = Some prow /\
            key_row num_str DEFAULT_KEY_COLUMNS ef key = Some erow /\
            recs_k = omap (fun col =>
              if bool_decide (col ∈ add_label "_composite_key" (columns pf) /\
                              col ∈ add_label "_composite_key" (columns ef))
              then compare_value num_str decimal prow col (cell_at prow col) (cell_at erow col)
              else None) (default DEFAULT_COMPARE_COLUMNS cc)) keys recs /\
       f = match concat recs with
           | [] => message_frame "Message" "All compared values match!"
           | comparisons => Frame VALUE_COLUMNS comparisons
           end)).
Proof.
  intros Hwf Hp He. split; [apply compare_value_spec|].
  eapply computes_returns; [by apply get_value_comparison_computes|].
  intros f Hf. unfold value_comparison_frame in Hf.
  destruct (composite_key num_str pf _) as [|kp] eqn:Hkp; [discriminate|].
  destruct (composite_key num_str ef _) as [|ke] eqn:Hke; [discriminate|].
  apply composite_key_rows in Hkp as ->, Hke as ->.
  destruct (get_col _ "_composite_key") as [|pk] eqn:Hpk; [discriminate|].
  destruct (get_col (assign _ _ ef) "_composite_key") as [|ek] eqn:Hek; [discriminate|].
  apply get_col_assign_same in Hpk, Hek; try apply length_map. subst pk ek.
  cbn zeta. split; [rewrite length_take; lia|].
  destruct (common_keys _ _ _) as [|k0 ks] eqn:Hc.
  - split; [by injection Hf as <-|]. by intros [].
  - split; [discriminate|]. intros _.
    destruct (mapE _ _) as [|recs] eqn:Hm; [discriminate|]. exists recs. split.
    + apply mapE_Forall2 in Hm. eapply Forall2_impl; [exact Hm|]. intros key rs Hk.
      unfold key_records in Hk.
      destruct (first_with_key _ key) as [|prow] eqn:E1; [discriminate|].
      destruct (first_with_key (assign _ _ ef) key) as [|erow] eqn:E2; [discriminate|].
      injection Hk as <-. apply first_with_key_keyed in E1, E2. eauto.
    + destruct (concat recs); by injection Hf as <-.
Qed.

Lemma C8_witness :
  heap_wf (pair_heap sample_input sample_input) /\
  objs (pair_heap sample_input sample_input) !! 0 = Some sample_input /\
  objs (pair_heap sample_input sample_input) !! 1 = Some sample_input /\
  returns (get_value_comparison (fun _ => "nan") (fun l => l) (fun _ => None) 0 1 None)
    (pair_heap sample_input sample_input) (fun f =>
    let rk := row_key (fun _ => "nan") DEFAULT_KEY_COLUMNS in
    let common := common_keys (fun _ => "nan") (map rk (rows sample_input)) (map rk (rows sample_input)) in
    let keys := take 100 common in
    length keys <= 100 /\
    (common = [] -> f = message_frame "Message" "No matching rows found for comparison") /\
    (common <> [] -> exists recs,
       Forall2 (fun key recs_k => exists prow erow,
            key_row (fun _ => "nan") DEFAULT_KEY_COLUMNS sample_input key = Some prow /\
            key_row (fun _ => "nan") DEFAULT_KEY_COLUMNS sample_input key = Some erow /\
            recs_k = omap (fun col =>
              if bool_decide (col ∈ add_label "_composite_key" (columns sample_input) /\
                              col ∈ add_label "_composite_key" (columns sample_input))
              then compare_value (fun _ => "nan") (fun _ => None) prow col (cell_at prow col) (cell_at erow col)
              else None) (default DEFAULT_COMPARE_COLUMNS None)) keys recs /\
       f = match concat recs with
           | [] => message_frame "Message" "All compared values match!"
           | comparisons => Frame VALUE_COLUMNS comparisons
           end)).
Proof.
  split; [apply heap_wf_decide; vm_compute; reflexivity|].
  split; [reflexivity|]. split; [reflexivity|].
  apply (get_value_comparison_records (fun _ => "nan") (fun l => l) (fun _ => None) 0 1 None 2
           {[0 := sample_input; 1 := sample_input]} sample_input sample_input);
    first [apply heap_wf_decide; vm_compute; reflexivity | reflexivity].
Defined.

(** A frame whose only Customer Name is missing, compared with itself: the missing name
    is not equal to itself, so it is reported both as extra and as missing. *)
Lemma compare_dataframes_self_nan_counterexample :
  let c := compare_dataframes nan_customer_frame nan_customer_frame in
  extra_in_processed c = Some [NaN] /\ missing_in_processed c = Some [NaN] /\
  sm_extra_customers c = 1 /\ sm_missing_customers c = 1.
Proof. vm_compute. repeat split. Qed.

(** C9 (amended): compare_dataframes T T has row difference 0, matching columns with empty
    extra and missing column lists; and when no Customer Name of T is missing, its extra and
    missing customer lists are empty and their counts are 0. *)
Theorem compare_dataframes_self T :
  let c := compare_dataframes T T in
  rc_difference c = 0%Z /\ cc_columns_match c = true /\
  cc_extra_in_processed c = [] /\ cc_missing_in_processed c = [] /\
  sm_row_difference c = 0%Z /\ sm_columns_match c = true /\
  (Forall (fun r => is_na (cell_at r "Customer Name") = false) (rows T) ->
   default [] (extra_in_processed c) = [] /\ default [] (missing_in_processed c) = [] /\
   sm_extra_customers c = 0 /\ sm_missing_customers c = 0).
Proof.
  cbn zeta. unfold compare_dataframes. cbn [rc_difference cc_columns_match cc_extra_in_processed
    cc_missing_in_processed sm_row_difference sm_columns_match extra_in_processed
    missing_in_processed sm_extra_customers sm_missing_customers].
  assert (Hm : forallb (fun c => bool_decide (c ∈ columns T)) (columns T) = true).
  { apply forallb_forall. intros c Hc. apply bool_decide_eq_true_2. by apply list_elem_of_In. }
  assert (Hf : filter (fun c => c ∉ columns T) (columns T) = []).
  { apply filter_all_false. intros c Hc Hn. by apply Hn. }
  rewrite Hm, Hf, Z.sub_diag. cbn [andb]. do 6 (split; [done|]).
  intros Hna. destruct (bool_decide _ && bool_decide _); [|done]. cbn [fst snd default len_or_zero].
  rewrite set_diff_self; [done|]. by apply List.Forall_map.
Qed.

(** ** No input is changed *)

(** C10: process_excel, get_detailed_mismatches and get_value_comparison leave every object
    that existed before the call, and so the caller's input frames, unchanged. *)
Theorem core_operations_preserve_inputs nt df P E due daily wd ob num_str set_order decimal kc cc
    (n : nat) o f0 pf ef :
  heap_wf (Heap n o) -> o !! df = Some f0 -> o !! P = Some pf -> o !! E = Some ef ->
  preserves (process_excel nt df due daily wd ob) (Heap n o) /\
  preserves (get_detailed_mismatches num_str P E kc) (Heap n o) /\
  preserves (get_value_comparison num_str set_order decimal P E cc) (Heap n o).
Proof.
  intros Hwf Hdf Hp He. split; [|split]; eapply computes_preserves; try done.
  - by apply process_excel_computes.
  - by apply get_detailed_mismatches_computes.
  - by apply get_value_comparison_computes.
Qed.

Lemma C10_witness :
  heap_wf sample_heap /\ objs sample_heap !! 0 = Some sample_input /\
  preserves (process_excel no_numbers 0 150 0.06 31 200) sample_heap /\
  preserves (get_detailed_mismatches (fun _ => "0") 0 0 None) sample_heap /\
  preserves (get_value_comparison (fun _ => "0") (fun l => l) (fun _ => None) 0 0 None) sample_heap.
Proof.
  split; [apply heap_wf_decide; vm_compute; reflexivity|]. split; [reflexivity|].
  apply (core_operations_preserve_inputs no_numbers 0 0 0 150 0.06 31 200 (fun _ => "0") (fun l => l)
           (fun _ => None) None None 1 {[0 := sample_input]} sample_input sample_input sample_input);
    first [apply heap_wf_decide; vm_compute; reflexivity | reflexivity].
Defined.

(** * Further properties of the code *)

Lemma process_excel_frame_split nt df due daily wd ob :
  process_excel_frame nt df due daily wd ob =
  (let! f := process_excel_front nt df due ob in process_excel_back f due daily).
Proof.
  unfold process_excel_frame, process_excel_front.
  repeat (split_scrutinee; try reflexivity).
Qed.

(** ** Generic lemmas *)

Lemma get_col_inl f c e : get_col f c = inl e -> e = KeyError c /\ c ∉ columns f.
Proof. unfold get_col. case_bool_decide; [discriminate|]. by intros [= <-]. Qed.

Lemma get_col_map f c : c ∈ columns f -> get_col f c = inr (map (fun r => cell_at r c) (rows f)).
Proof. intros H. unfold get_col. by rewrite bool_decide_eq_true_2. Qed.

Lemma add_label_elem c c' cs : c ∈ add_label c' cs <-> c = c' \/ c ∈ cs.
Proof.
  unfold add_label. case_bool_decide.
  - split; [by right|]. intros [->|?]; done.
  - rewrite elem_of_app, list_elem_of_singleton. naive_solver.
Qed.

Lemma assign_map c (g : row -> cell) f :
  rows (assign c (map g (rows f)) f) = map (fun r => <[c := g r]> r) (rows f).
Proof. cbn. apply zip_with_map_self. Qed.

Lemma mask_rows_map (p : row -> bool) rs : mask_rows rs (map p rs) = filter p rs.
Proof.
  induction rs as [|r rs IH]; [done|]. cbn [mask_rows map]. destruct (p r) eqn:Hp.
  - rewrite filter_cons_True by (rewrite Hp; done). by f_equal.
  - rewrite filter_cons_False by (rewrite Hp; auto). done.
Qed.

Lemma filter_map_comm {A B} (p : B -> bool) (g : A -> B) (l : list A) :
  filter p (map g l) = map g (filter (fun x => p (g x)) l).
Proof.
  induction l as [|x l IH]; [done|]. cbn [map]. destruct (p (g x)) eqn:Hp.
  - rewrite !filter_cons_True by (rewrite ?Hp; done). cbn. by f_equal.
  - rewrite !filter_cons_False by (rewrite Hp; auto). done.
Qed.

Lemma filter_filter_andb {A} (p q : A -> bool) (l : list A) :
  filter p (filter q l) = filter (fun x => q x && p x) l.
Proof.
  induction l as [|x l IH]; [done|]. destruct (q x) eqn:Hq.
  - rewrite filter_cons_True by (rewrite Hq; done). destruct (p x) eqn:Hp.
    + rewrite !filter_cons_True by (rewrite ?Hq, ?Hp; done). by f_equal.
    + rewrite !filter_cons_False by (rewrite ?Hq, ?Hp; auto). done.
  - rewrite !filter_cons_False by (rewrite ?Hq; auto). done.
Qed.

Lemma filter_ext_bool {A} (p q : A -> bool) (l : list A) :
  (forall x, x ∈ l -> p x = q x) -> filter p l = filter q l.
Proof.
  induction l as [|x l IH]; intros H; [done|].
  assert (Hx : p x = q x) by (apply H; left).
  pose proof (IH (fun y Hy => H y (proj2 (elem_of_cons _ _ _) (or_intror Hy)))) as IH'.
  destruct (q x) eqn:Hq.
  - rewrite !filter_cons_True by (rewrite ?Hx, ?Hq; done). by rewrite IH'.
  - rewrite !filter_cons_False by (rewrite ?Hx, ?Hq; auto). done.
Qed.

Lemma mapE_cons {A B} (g : A -> exn + B) x l :
  mapE g (x :: l) = (let! y := g x in let! ys := mapE g l in inr (y :: ys)).
Proof. reflexivity. Qed.

Lemma gt_scalar_map c x rs :
  (forall r, r ∈ rs -> exists a, cell_at r c = Num a) ->
  gt_scalar (map (fun r => cell_at r c) rs) x =
  inr (map (fun r => match cell_at r c with Num a => (x <? a)%float | Str _ => false end) rs).
Proof.
  induction rs as [|r rs IH]; intros H; [done|]. unfold gt_scalar in *. cbn [map].
  rewrite mapE_cons. destruct (H r ltac:(left)) as [a Ha]. rewrite Ha.
  rewrite IH by (intros r' Hr'; apply H; by right). done.
Qed.

Lemma cell_at_filter (P : string -> Prop) `{!forall c, Decision (P c)} (r : row) c :
  P c -> cell_at (filter (fun kv : string * cell => P kv.1) r) c = cell_at r c.
Proof.
  intros Hc. unfold cell_at. rewrite map_lookup_filter.
  destruct (r !! c); cbn; [|done]. by rewrite option_guard_True.
Qed.

Lemma drop_cols_filter cs f :
  drop_cols (filter (fun c => c ∈ columns f) cs) f =
  inr (Frame (filter (fun c => c ∉ filter (fun c => c ∈ columns f) cs) (columns f))
         (map (fun r : row => filter (fun kv : string * cell => kv.1 ∉ filter (fun c => c ∈ columns f) cs) r) (rows f))).
Proof.
  unfold drop_cols. rewrite (proj2 (list_find_None _ _)); [done|].
  apply Forall_forall. intros c Hc. apply list_elem_of_filter in Hc as [Hc _]. by intros Hn.
Qed.

Lemma get_col_notin f c : c ∉ columns f -> get_col f c = inl (KeyError c).
Proof. intros H. unfold get_col. by rewrite bool_decide_eq_false_2. Qed.

Lemma eq_str_map {A} (h : A -> cell) (rs : list A) s : eq_str (map h rs) s = map (fun r => is_str (h r) s) rs.
Proof. unfold eq_str. by rewrite map_map. Qed.

Lemma zip_with_map_map {A B C D} (k : B -> C -> D) (h : A -> B) (g : A -> C) (l : list A) :
  zip_with k (map h l) (map g l) = map (fun x => k (h x) (g x)) l.
Proof. induction l as [|x l IH]; [done|]. cbn. by rewrite IH. Qed.

Lemma assign_map_frame {A} c (g : A -> cell) (h : A -> row) cs (l : list A) :
  assign c (map g l) (Frame cs (map h l)) =
  Frame (add_label c cs) (map (fun x => <[c:=g x]> (h x)) l).
Proof. unfold assign. cbn. by rewrite zip_with_map_map. Qed.

Lemma loc_set_map_frame {A} (p : A -> bool) c v (h : A -> row) cs (l : list A) :
  loc_set (map p l) c v (Frame cs (map h l)) =
  Frame (add_label c cs) (map (fun x => if p x then <[c:=v]> (h x) else h x) l).
Proof. unfold loc_set. cbn. by rewrite zip_with_map_map. Qed.

Ltac not_drop := apply (bool_decide_unpack _); vm_compute; exact I.

Ltac col_in := cbn [columns]; rewrite ?add_label_elem;
  repeat first [left; reflexivity | right]; assumption.

Ltac col_notin := cbn [columns]; rewrite ?add_label_elem;
  let Hx := fresh "Hx" in intros Hx;
  repeat match goal with H : _ \/ _ |- _ => destruct H as [H|H] end;
  try discriminate; contradiction.

Lemma map_zip_fst {A B C} (h : A -> C) (l : list A) (k : list B) :
  length l = length k -> map (fun x => h x.1) (zip l k) = map h l.
Proof.
  revert k. induction l as [|a l IH]; intros [|b k] Hlen; cbn in *; try done.
  f_equal. apply IH. lia.
Qed.

Lemma map_zip_snd {A B C} (h : B -> C) (l : list A) (k : list B) :
  length l = length k -> map (fun x => h x.2) (zip l k) = map h k.
Proof.
  revert k. induction l as [|a l IH]; intros [|b k] Hlen; cbn in *; try done.
  f_equal. apply IH. lia.
Qed.

Lemma length_zip_eq {A B} (l : list A) (k : list B) :
  length l = length k -> length (zip l k) = length l.
Proof.
  revert k. induction l as [|a l IH]; intros [|b k] Hlen; cbn in *; try done.
  f_equal. apply IH. lia.
Qed.

Lemma maybe_convert_numeric_length vals : length (Pd.maybe_convert_numeric vals) = length vals.
Proof. unfold Pd.maybe_convert_numeric. case_match; by rewrite !length_map. Qed.

Lemma clean_currency_column_length nt col : length (clean_currency_column nt col) = length col.
Proof. unfold clean_currency_column, to_numeric. by rewrite length_map, maybe_convert_numeric_length, length_map. Qed.

Lemma clean_age_column_length nt col : length (clean_age_column nt col) = length col.
Proof. unfold clean_age_column, to_numeric. by rewrite length_map, maybe_convert_numeric_length, length_map. Qed.

Lemma fillna0_length col : length (fillna0 col) = length col.
Proof. apply length_map. Qed.

Lemma overdue_col_length df c : length (overdue_col df c) = length (overdue_rows df).
Proof. apply length_map. Qed.

(** The raw rows and the three cleaned columns are the projections of [cleaned_rows]. *)
Lemma cleaned_rows_proj nt df :
  map (fun x : cleaned => x.1) (cleaned_rows nt df) = overdue_rows df /\
  map (fun x : cleaned => x.2.1) (cleaned_rows nt df) =
    fillna0 (clean_currency_column (nt "Balance Due") (overdue_col df "Balance Due")) /\
  map (fun x : cleaned => x.2.2.1) (cleaned_rows nt df) =
    clean_currency_column (nt "Amount") (overdue_col df "Amount") /\
  map (fun x : cleaned => x.2.2.2) (cleaned_rows nt df) =
    clean_age_column (nt "Age") (overdue_col df "Age").
Proof.
  unfold cleaned_rows.
  set (L := overdue_rows df).
  assert (Hb : length (fillna0 (clean_currency_column (nt "Balance Due") (overdue_col df "Balance Due"))) = length L)
    by (rewrite fillna0_length, clean_currency_column_length; apply overdue_col_length).
  assert (Ha : length (clean_currency_column (nt "Amount") (overdue_col df "Amount")) = length L)
    by (rewrite clean_currency_column_length; apply overdue_col_length).
  assert (Hg : length (clean_age_column (nt "Age") (overdue_col df "Age")) = length L)
    by (rewrite clean_age_column_length; apply overdue_col_length).
  assert (Hz2 : length (zip (clean_currency_column (nt "Amount") (overdue_col df "Amount"))
                            (clean_age_column (nt "Age") (overdue_col df "Age"))) = length L)
    by (rewrite length_zip_eq; lia).
  assert (Hz1 : length (zip (fillna0 (clean_currency_column (nt "Balance Due") (overdue_col df "Balance Due")))
                   (zip (clean_currency_column (nt "Amount") (overdue_col df "Amount"))
                        (clean_age_column (nt "Age") (overdue_col df "Age")))) = length L)
    by (rewrite length_zip_eq; lia).
  split_and!.
  - etransitivity; [apply (map_zip_fst (fun r => r)); lia|apply List.map_id].
  - etransitivity; [apply (map_zip_snd (fun y => y.1)); lia|].
    etransitivity; [apply (map_zip_fst (fun y => y)); lia|apply List.map_id].
  - etransitivity; [apply (map_zip_snd (fun y => y.2.1)); lia|].
    etransitivity; [apply (map_zip_snd (fun y => y.1)); lia|].
    etransitivity; [apply (map_zip_fst (fun y => y)); lia|apply List.map_id].
  - etransitivity; [apply (map_zip_snd (fun y => y.2.2)); lia|].
    etransitivity; [apply (map_zip_snd (fun y => y.2)); lia|].
    etransitivity; [apply (map_zip_snd (fun y => y)); lia|apply List.map_id].
Qed.

Lemma cleaned_age_num nt df x : x ∈ cleaned_rows nt df -> exists a, x.2.2.2 = Num a.
Proof.
  intros Hx. destruct (cleaned_rows_proj nt df) as (_ & _ & _ & HG).
  assert (Hin : x.2.2.2 ∈ map (fun x : cleaned => x.2.2.2) (cleaned_rows nt df))
    by (apply list_elem_of_fmap; eauto).
  rewrite HG in Hin. unfold clean_age_column, to_numeric in Hin.
  apply list_elem_of_fmap in Hin as (a & -> & _). eauto.
Qed.

Lemma process_excel_front_spec nt df due ob :
  match process_excel_front nt df due ob with
  | inl e => exists c, e = KeyError c /\ c ∈ ["Status"; "Balance Due"; "Amount"; "Age"; "Type"] /\ c ∉ columns df
  | inr f => (forall c, c ∈ columns f <-> c ∈ columns df /\ c ∉ COLUMNS_TO_DROP) /\
             Forall2 (row_from ob) (rows f) (kept_rows nt due ob df)
  end.
Proof.
  unfold process_excel_front.
  destruct (get_col df "Status") as [e|status] eqn:E0.
  { apply get_col_inl in E0 as [-> ?]. eexists; split; [done|]. split; [set_solver|done]. }
  apply get_col_inr in E0 as [Hst ->].
  rewrite drop_cols_filter. cbn [columns rows take_rows].
  set (ds := filter (fun c => c ∈ columns df) COLUMNS_TO_DROP).
  set (cs1 := filter (fun c => c ∉ ds) (columns df)).
  assert (Hcols : forall c, c ∈ cs1 <-> c ∈ columns df /\ c ∉ COLUMNS_TO_DROP).
  { intros c. unfold cs1. rewrite list_elem_of_filter. unfold ds. rewrite list_elem_of_filter. naive_solver. }
  assert (Hds : forall c, c ∈ ds -> c ∈ COLUMNS_TO_DROP).
  { intros c Hc. unfold ds in Hc. apply list_elem_of_filter in Hc. tauto. }
  clearbody cs1 ds.
  rewrite eq_str_map, mask_rows_map.
  change (filter (fun r => is_str (cell_at r "Status") "Overdue") (rows df)) with (overdue_rows df).
  set (g1 := fun r : row => filter (fun kv : string * cell => kv.1 ∉ ds) r).
  assert (Hg1 : forall x c, c ∉ COLUMNS_TO_DROP -> cell_at (g1 x) c = cell_at x c).
  { intros x c Hc. unfold g1, cell_at. rewrite map_lookup_filter.
    destruct (x !! c); cbn; [|done]. rewrite option_guard_True; [done|].
    intros Hd. by apply Hc, Hds. }
  assert (Hmiss : forall c, c ∉ COLUMNS_TO_DROP -> c ∉ cs1 -> c ∉ columns df).
  { intros c Hc Hn Hd. apply Hn, Hcols. done. }
  destruct (cleaned_rows_proj nt df) as (HL & HB & HA & HG).
  set (X := cleaned_rows nt df) in *.
  assert (Hcolx : forall (h : cleaned -> row) c, (forall x, cell_at (h x) c = cell_at x.1 c) ->
            map (fun r => cell_at r c) (map h X) = overdue_col df c).
  { intros h c Hh. rewrite map_map. unfold overdue_col. rewrite <- HL, map_map. apply List.map_ext, Hh. }
  rewrite <- HL, map_map.
  (* Balance Due *)
  destruct (decide ("Balance Due" ∈ cs1)) as [Hbd|Hbd].
  2:{ rewrite get_col_notin by done. cbn beta iota. eexists; split; [done|].
      split; [set_solver|]. apply Hmiss; [not_drop|done]. }
  rewrite get_col_map by done. cbn [columns rows].
  rewrite Hcolx by (intros x; apply Hg1; not_drop).
  rewrite <- HB, assign_map_frame.
  (* Amount *)
  destruct (decide ("Amount" ∈ cs1)) as [Ham|Ham].
  2:{ rewrite get_col_notin by col_notin. cbn beta iota. eexists; split; [done|].
      split; [set_solver|]. apply Hmiss; [not_drop|done]. }
  rewrite get_col_map by col_in. cbn [columns rows].
  rewrite Hcolx by (intros x; rewrite cell_at_insert_ne by discriminate; apply Hg1; not_drop).
  rewrite <- HA, assign_map_frame.
  (* Age *)
  destruct (decide ("Age" ∈ cs1)) as [Hag|Hag].
  2:{ rewrite get_col_notin by col_notin. cbn beta iota. eexists; split; [done|].
      split; [set_solver|]. apply Hmiss; [not_drop|done]. }
  rewrite get_col_map by col_in. cbn [columns rows].
  rewrite Hcolx by (intros x; rewrite !cell_at_insert_ne by discriminate; apply Hg1; not_drop).
  rewrite <- HG, assign_map_frame.
  (* Type *)
  destruct (decide ("Type" ∈ cs1)) as [Hty|Hty].
  2:{ rewrite get_col_notin by col_notin. cbn beta iota. eexists; split; [done|].
      split; [set_solver|]. apply Hmiss; [not_drop|done]. }
  rewrite get_col_map by col_in. cbn [columns rows].
  rewrite !map_map, eq_str_map, loc_set_map_frame.
  rewrite get_col_map by col_in. cbn [columns rows].
  match goal with |- context [gt_scalar (map _ (map ?G X)) _] => set (GG := G) end.
  assert (HGG : forall x, row_from ob (GG x) x).
  { intros x. unfold GG, row_from, effective_age.
    repeat first [rewrite cell_at_insert_eq | rewrite cell_at_insert_ne by discriminate].
    rewrite !Hg1 by not_drop.
    destruct (is_str (cell_at x.1 "Type") "Customer Opening Balance").
    - split; [|split; [|split]]; repeat first [rewrite cell_at_insert_eq | rewrite cell_at_insert_ne by discriminate];
        rewrite ?Hg1 by not_drop; try done.
      intros c Hc Hc'. rewrite !cell_at_insert_ne by (intros Heq; subst c; apply Hc'; set_solver). by apply Hg1.
    - split; [|split; [|split]]; repeat first [rewrite cell_at_insert_eq | rewrite cell_at_insert_ne by discriminate];
        rewrite ?Hg1 by not_drop; try done.
      intros c Hc Hc'. rewrite !cell_at_insert_ne by (intros Heq; subst c; apply Hc'; set_solver). by apply Hg1. }
  rewrite gt_scalar_map.
  2:{ intros r Hr. apply list_elem_of_fmap in Hr as (x & -> & Hx). destruct (HGG x) as (_ & _ & _ & ->).
      unfold effective_age. destruct is_str; [eauto|].
      by apply cleaned_age_num in Hx. }
  cbn beta iota. unfold take_rows. cbn [columns rows]. rewrite mask_rows_map.
  split.
  { intros c. rewrite !add_label_elem, <- Hcols. naive_solver. }
  rewrite filter_map_comm. unfold kept_rows. fold X.
  erewrite (filter_ext_bool _ (kept_row due ob)).
  2:{ intros x _. unfold kept_row. destruct (HGG x) as (_ & _ & _ & ->). done. }
  apply Forall2_fmap_l. apply Forall_Forall2_diag, Forall_forall. intros x _. apply HGG.
Qed.

Lemma filter_partition_length {A} (p : A -> bool) (l : list A) :
  length (filter (fun x => p x = false) l) + length (filter (fun x => p x = true) l) = length l.
Proof.
  induction l as [|x l IH]; [done|]. destruct (p x) eqn:Hp.
  - rewrite filter_cons_False by (rewrite Hp; discriminate).
    rewrite filter_cons_True by done. cbn. lia.
  - rewrite filter_cons_True by done.
    rewrite filter_cons_False by (rewrite Hp; discriminate). cbn. lia.
Qed.

Lemma nargsort_length col order : nargsort col = inr order -> length order = length col.
Proof.
  unfold nargsort. destruct NpSort.failed; [discriminate|]. intros [= <-].
  rewrite length_app, length_map.
  destruct (NpSortFacts.aquicksort_inv
    (map (fun i => col !!! i) (filter (fun i => is_na (col !!! i) = false) (seq 0 (length col))))) as [Hl _].
  rewrite Hl, length_map, (filter_partition_length (fun i => is_na (col !!! i))), length_seq. done.
Qed.

Lemma sort_values_length c f f' : sort_values c f = inr f' -> length (rows f') = length (rows f).
Proof.
  unfold sort_values. destruct (get_col f c) as [|col] eqn:Ec; [discriminate|].
  destruct (nargsort col) as [|order] eqn:Eo; [discriminate|]. intros [= <-]. cbn.
  rewrite length_map. apply nargsort_length in Eo. apply get_col_length in Ec. lia.
Qed.

Lemma select_length cs f f' : select cs f = inr f' -> length (rows f') = length (rows f).
Proof. unfold select. destruct list_find as [[]|]; [discriminate|]. intros [= <-]. apply length_map. Qed.

Ltac len_step :=
  match goal with
  | E : sort_values _ _ = inr _ |- _ => apply sort_values_length in E
  | E : select _ _ = inr _ |- _ => apply select_length in E
  | E : get_col _ _ = inr _ |- _ => apply get_col_length in E
  | E : mapE _ _ = inr _ |- _ => apply mapE_length in E
  | E : col_binop _ _ _ = inr _ |- _ => apply col_binop_length in E
  end.

Lemma process_excel_back_rows f due daily g :
  process_excel_back f due daily = inr g ->
  columns g = FINAL_COLUMNS /\ length (rows g) = length (rows f) /\
  forall r, r ∈ rows g -> exists r0, r0 ∈ rows f /\
    forall c, c ∈ FINAL_COLUMNS -> c ∉ COMPUTED_COLUMNS -> cell_at r c = cell_at r0 c.
Proof.
  unfold process_excel_back. intros H. split_hyp H; try discriminate H.
  split; [by eapply select_columns|]. split.
  - repeat len_step. cbn [rows assign] in *.
    rewrite ?length_zip_with, ?length_replicate in *. lia.
  - intros r Hr. apply list_elem_of_lookup in Hr as [i Hi].
    destruct (select_lookup _ _ _ _ _ H Hi) as (r1 & Hr1 & Hsel).
    repeat (apply assign_lookup in Hr1 as (? & ? & Hr1 & _ & ->)).
    match goal with E : sort_values _ _ = inr _ |- _ => apply sort_values_rows in E as [_ Hsub] end.
    eexists; split; [apply Hsub; by eapply list_elem_of_lookup_2|].
    intros c Hc Hc'. rewrite Hsel by done.
    rewrite !cell_at_insert_ne by (intros Heq; subst c; apply Hc'; set_solver). done.
Qed.

Lemma mapE_inl {A B} (g : A -> exn + B) l e :
  mapE g l = inl e -> exists x, x ∈ l /\ g x = inl e.
Proof.
  induction l as [|x l IH]; cbn; [discriminate|].
  destruct (g x) eqn:Ex.
  - intros [= <-]. exists x. split; [left|done].
  - destruct (mapE g l) eqn:El; [|discriminate]. intros [= <-].
    destruct IH as (y & ? & ?); [done|]. exists y. split; [by right|done].
Qed.

Lemma mapE_elem {A B} (g : A -> exn + B) l l' y :
  mapE g l = inr l' -> y ∈ l' -> exists x, x ∈ l /\ g x = inr y.
Proof.
  intros H Hy. apply list_elem_of_lookup in Hy as [i Hi].
  destruct (mapE_lookup _ _ _ _ _ H Hi) as (x & Hx & Hg).
  exists x. split; [by eapply list_elem_of_lookup_2|done].
Qed.

Lemma mapE_num_unop op l :
  Forall num_cell l -> exists l', mapE (num_unop op) l = inr l' /\ Forall num_cell l'.
Proof.
  induction l as [|x l IH]; intros Hl; [by exists []|].
  apply Forall_cons in Hl as [[a ->] Hl]. destruct (IH Hl) as (l' & El & Hl').
  exists (Num (op a) :: l'). cbn. rewrite El. split; [done|]. constructor; [eexists; done|done].
Qed.

Lemma col_binop_num op xs ys :
  Forall num_cell xs -> Forall num_cell ys ->
  exists zs, col_binop op xs ys = inr zs /\ Forall num_cell zs.
Proof.
  unfold col_binop. revert ys. induction xs as [|x xs IH]; intros ys Hx Hy; [by exists []|].
  destruct ys as [|y ys]; [by exists []|].
  apply Forall_cons in Hx as [[a ->] Hx]. apply Forall_cons in Hy as [[b ->] Hy].
  destruct (IH ys Hx Hy) as (zs & Ez & Hz).
  exists (Num (op a b) :: zs). cbn. cbn in Ez. rewrite Ez. split; [done|].
  constructor; [eexists; done|done].
Qed.

Lemma replicate_num n x : Forall num_cell (replicate n (Num x)).
Proof. apply Forall_replicate. by eexists. Qed.

Lemma get_col_assigned c vals F : exists l, get_col (assign c vals F) c = inr l.
Proof. eexists. apply get_col_map. cbn [columns assign]. apply add_label_elem. by left. Qed.

Lemma select_inl cs f e : select cs f = inl e -> exists c, e = KeyError c /\ c ∈ cs /\ c ∉ columns f.
Proof.
  unfold select. destruct list_find as [[i c]|] eqn:Ef; [|discriminate]. intros [= <-].
  apply list_find_Some in Ef as (Hi & Hc & _). exists c. split; [done|].
  split; [by eapply list_elem_of_lookup_2|done].
Qed.

Lemma aquicksort_nil : NpSort.failed (NpSort.aquicksort []) = false.
Proof. reflexivity. Qed.

Lemma nargsort_inl col e :
  nargsort col = inl e -> e = TypeError /\ exists x, Num x ∈ col /\ is_nan x = false.
Proof.
  unfold nargsort.
  set (nn := filter (fun i => is_na (col !!! i) = false) (seq 0 (length col))).
  set (items := map (fun i => col !!! i) nn).
  destruct (NpSort.failed (NpSort.aquicksort items)) eqn:Ef; [|discriminate]. intros [= <-].
  split; [done|].
  set (p := fun v => match v with Num x => negb (is_nan x) | Str _ => false end).
  destruct (existsb p col) eqn:Hex.
  - apply existsb_exists in Hex as ([t|x] & Hx & Hb); [discriminate|].
    exists x. split; [by apply list_elem_of_In|]. unfold p in Hb. by destruct (is_nan x).
  - exfalso.
    assert (Hstr : forall a, a < length items -> exists t, items !!! a = Str t).
    { intros a Ha. unfold items in Ha |- *. rewrite length_map in Ha.
      destruct (lookup_lt_is_Some_2 _ _ Ha) as [i Hi].
      rewrite (list_lookup_total_correct (map _ nn) a (col !!! i)) by (rewrite list_lookup_fmap, Hi; done).
      apply list_elem_of_lookup_2, list_elem_of_filter in Hi as [Hna Hi%elem_of_seq].
      destruct (lookup_lt_is_Some_2 col i ltac:(lia)) as [v Hv].
      rewrite (list_lookup_total_correct _ _ _ Hv) in Hna |- *.
      destruct v as [t|x]; [eauto|]. exfalso.
      assert (Hin : In (Num x) col) by (apply list_elem_of_In; by eapply list_elem_of_lookup_2).
      assert (Hp : p (Num x) = true) by (cbn in Hna |- *; by rewrite Hna).
      pose proof (proj2 (existsb_exists p col) (ex_intro _ (Num x) (conj Hin Hp))) as Hc.
      congruence. }
    destruct (length items) as [|k] eqn:Hl.
    + apply nil_length_inv in Hl. rewrite Hl, aquicksort_nil in Ef. discriminate.
    + destruct (NpSortCorrect.aquicksort_sorted items) as [[_ Hok] _]; [|lia|congruence].
      intros a Ha. apply Hstr. lia.
Qed.

Lemma sort_values_inl c f e :
  sort_values c f = inl e ->
  (e = KeyError c /\ c ∉ columns f) \/
  (e = TypeError /\ exists r x, r ∈ rows f /\ cell_at r c = Num x /\ is_nan x = false).
Proof.
  unfold sort_values. destruct (get_col f c) as [e'|col] eqn:Ec.
  - intros [= <-]. left. by apply get_col_inl.
  - destruct (nargsort col) as [e'|order] eqn:Eo; [|discriminate]. intros [= <-]. right.
    apply nargsort_inl in Eo as [-> (x & Hx & Hn)]. split; [done|].
    apply get_col_inr in Ec as [_ ->]. apply list_elem_of_fmap in Hx as (r & Hr & Hin).
    exists r, x. done.
Qed.

Lemma col_num_assign_same c vals F : Forall num_cell vals -> col_num c (assign c vals F).
Proof.
  intros Hv r Hr. apply list_elem_of_lookup in Hr as [i Hi].
  apply assign_lookup in Hi as (r0 & v & _ & Hvi & ->). rewrite cell_at_insert_eq.
  by eapply Forall_lookup_1.
Qed.

Lemma col_num_assign_other c c' vals F : c' <> c -> col_num c F -> col_num c (assign c' vals F).
Proof.
  intros Hne HF r Hr. apply list_elem_of_lookup in Hr as [i Hi].
  apply assign_lookup in Hi as (r0 & v & Hr0 & _ & ->). rewrite cell_at_insert_ne by done.
  apply HF. by eapply list_elem_of_lookup_2.
Qed.

Lemma col_num_sort c c' f f' : col_num c f -> sort_values c' f = inr f' -> col_num c f'.
Proof. intros Hf [_ Hsub]%sort_values_rows r Hr. apply Hf, Hsub, Hr. Qed.

Lemma get_col_col_num c F l : col_num c F -> get_col F c = inr l -> Forall num_cell l.
Proof.
  intros HF [_ ->]%get_col_inr. apply Forall_forall. intros v Hv.
  apply list_elem_of_fmap in Hv as (r & -> & Hr). by apply HF.
Qed.

Lemma mapE_num_unop_out op l l' : mapE (num_unop op) l = inr l' -> Forall num_cell l'.
Proof.
  intros H%mapE_Forall2. induction H as [|x y l l' Hxy _ IH]; constructor; [|done].
  apply num_unop_inr in Hxy as (a & _ & ->). by eexists.
Qed.

Lemma col_binop_out op xs ys zs : col_binop op xs ys = inr zs -> Forall num_cell zs.
Proof.
  intros H. apply Forall_forall. intros z Hz. apply list_elem_of_lookup in Hz as [i Hi].
  destruct (col_binop_lookup _ _ _ _ _ _ H Hi) as (a & b & _ & _ & ->). by eexists.
Qed.

Lemma mapE_num_unop_inl op l e : Forall num_cell l -> mapE (num_unop op) l = inl e -> False.
Proof. intros Hl. destruct (mapE_num_unop op l Hl) as (l' & -> & _). discriminate. Qed.

Lemma col_binop_inl op xs ys e :
  Forall num_cell xs -> Forall num_cell ys -> col_binop op xs ys = inl e -> False.
Proof. intros Hx Hy. destruct (col_binop_num op xs ys Hx Hy) as (zs & -> & _). discriminate. Qed.

Ltac col_num_tac :=
  repeat first
    [ assumption
    | apply col_num_assign_same
    | apply col_num_assign_other; [discriminate|]
    | apply replicate_num
    | match goal with E : mapE (num_unop _) _ = inr ?l |- Forall num_cell ?l => exact (mapE_num_unop_out _ _ _ E) end
    | match goal with E : col_binop _ _ _ = inr ?l |- Forall num_cell ?l => exact (col_binop_out _ _ _ _ E) end
    | match goal with E : get_col _ _ = inr ?l |- Forall num_cell ?l => eapply get_col_col_num; [|exact E] end
    | match goal with E : sort_values _ _ = inr ?f |- col_num _ ?f => eapply col_num_sort; [|exact E] end ].

Ltac dec_in := apply (bool_decide_unpack _); vm_compute; exact I.

Lemma process_excel_back_inl f due daily e :
  col_num "Age" f -> col_num "Balance Due" f ->
  process_excel_back f due daily = inl e ->
  (exists c, e = KeyError c /\ c ∈ FINAL_COLUMNS /\ c ∉ COMPUTED_COLUMNS /\ c ∉ columns f) \/
  (e = TypeError /\ (exists r x, r ∈ rows f /\ cell_at r "Customer Name" = Num x /\ is_nan x = false)).
Proof.
  intros Hage Hbd. unfold process_excel_back. intros H.
  destruct (sort_values "Customer Name" f) as [e0|fs] eqn:Es.
  { injection H as <-. apply sort_values_inl in Es as [[-> Hn]|[-> Hr]]; [left|by right].
    exists "Customer Name". split_and!; [done|dec_in|dec_in|done]. }
  pose proof (sort_values_rows _ _ _ Es) as [Hcs _].
  split_hyp H; try discriminate H; try (injection H as <-);
  first
    [ exfalso; eapply mapE_num_unop_inl; [|eassumption]; col_num_tac
    | exfalso; eapply col_binop_inl; [| |eassumption]; col_num_tac
    | match goal with E : get_col _ _ = inl _ |- _ => apply get_col_inl in E as [-> Hn] end;
      first
        [ exfalso; apply Hn; cbn [columns assign]; rewrite ?add_label_elem; tauto
        | left; eexists; split_and!; [reflexivity|dec_in|dec_in|];
          intros Hin; apply Hn; cbn [columns assign]; rewrite ?add_label_elem, Hcs; tauto ]
    | match goal with E : select _ _ = inl _ |- _ => apply select_inl in E as (c & -> & Hc & Hn) end;
      left; exists c; split_and!; [done|done| |];
      [ intros Hin; apply Hn; cbn [columns assign]; rewrite ?add_label_elem;
        unfold COMPUTED_COLUMNS in Hin;
        repeat match goal with H : _ ∈ _ :: _ |- _ => apply elem_of_cons in H as [->|H] end;
        [tauto ..|by apply not_elem_of_nil in Hin]
      | intros Hin; apply Hn; cbn [columns assign]; rewrite ?add_label_elem, Hcs; tauto ] ].
Qed.

Lemma select_inr_cols cs F g : select cs F = inr g -> forall c, c ∈ cs -> c ∈ columns F.
Proof.
  unfold select. destruct list_find as [[]|] eqn:Ef; [discriminate|]. intros _ c Hc.
  apply list_find_None in Ef. rewrite Forall_forall in Ef. specialize (Ef c Hc). cbn in Ef.
  destruct (decide (c ∈ columns F)); [done|]. by exfalso.
Qed.

Lemma process_excel_back_cols f due daily g :
  process_excel_back f due daily = inr g ->
  forall c, c ∈ FINAL_COLUMNS -> c ∉ COMPUTED_COLUMNS -> c ∈ columns f.
Proof.
  unfold process_excel_back. intros H. split_hyp H; try discriminate H.
  intros c Hc Hc'. pose proof (select_inr_cols _ _ _ H c Hc) as Hin.
  match goal with E : sort_values _ _ = inr _ |- _ => apply sort_values_rows in E as [Hcs _] end.
  cbn [columns assign] in Hin. rewrite ?add_label_elem, Hcs in Hin.
  unfold COMPUTED_COLUMNS in Hc'.
  repeat (destruct Hin as [->|Hin]; [exfalso; apply Hc'; set_solver|]). done.
Qed.

Lemma Forall2_elem_l {A B} (P : A -> B -> Prop) l1 l2 x :
  Forall2 P l1 l2 -> x ∈ l1 -> exists y, y ∈ l2 /\ P x y.
Proof.
  intros H Hx. apply list_elem_of_lookup in Hx as [i Hi].
  destruct (Forall2_lookup_l _ _ _ _ _ H Hi) as (y & Hy & HP).
  exists y. split; [by eapply list_elem_of_lookup_2|done].
Qed.

Lemma final_minus_computed c :
  c ∈ FINAL_COLUMNS -> c ∉ COMPUTED_COLUMNS -> c ∈ REQUIRED_INPUT_COLUMNS /\ c ∉ COLUMNS_TO_DROP.
Proof.
  unfold FINAL_COLUMNS. intros Hc Hc'.
  repeat (apply elem_of_cons in Hc as [->|Hc];
    [first [split; dec_in | exfalso; apply Hc'; set_solver]|]).
  by apply not_elem_of_nil in Hc.
Qed.

Lemma cleaned_balance_num nt df x :
  x ∈ cleaned_rows nt df -> exists b, x.2.1 = Num b /\ is_nan b = false.
Proof.
  intros Hx. destruct (cleaned_rows_proj nt df) as (_ & HB & _ & _).
  assert (Hin : x.2.1 ∈ map (fun x : cleaned => x.2.1) (cleaned_rows nt df))
    by (apply list_elem_of_fmap; eauto).
  rewrite HB in Hin. unfold fillna0, clean_currency_column, to_numeric in Hin.
  rewrite map_map in Hin. apply list_elem_of_fmap in Hin as (a & -> & _). cbn.
  destruct (is_nan a) eqn:Ha; [exists 0%float | exists a]; split; try reflexivity; done.
Qed.

Lemma kept_rows_raw nt due ob df x :
  x ∈ kept_rows nt due ob df ->
  x ∈ cleaned_rows nt df /\ x.1 ∈ rows df /\ is_str (cell_at x.1 "Status") "Overdue" = true.
Proof.
  unfold kept_rows. intros Hx. apply list_elem_of_filter in Hx as [_ Hx].
  destruct (cleaned_rows_proj nt df) as (HL & _).
  assert (Hin : x.1 ∈ map (fun x : cleaned => x.1) (cleaned_rows nt df))
    by (apply list_elem_of_fmap; eauto).
  rewrite HL in Hin. unfold overdue_rows in Hin. apply list_elem_of_filter in Hin as [H1 H2].
  split_and!; [done|done|by apply Is_true_true].
Qed.

Lemma front_num nt f0 due ob f :
  Forall2 (row_from ob) (rows f) (kept_rows nt due ob f0) ->
  col_num "Age" f /\ col_num "Balance Due" f.
Proof.
  intros H. split; intros r Hr; destruct (Forall2_elem_l _ _ _ _ H Hr) as (x & Hx & (_ & Hbd & _ & Ha));
    apply kept_rows_raw in Hx as [Hx _].
  - rewrite Ha. unfold effective_age. destruct is_str; [by eexists|]. by apply cleaned_age_num in Hx.
  - rewrite Hbd. destruct (cleaned_balance_num _ _ _ Hx) as (b & -> & _). by eexists.
Qed.

Lemma process_excel_frame_inl nt f0 due daily wd ob e :
  process_excel_frame nt f0 due daily wd ob = inl e ->
  (exists c, e = KeyError c /\ c ∈ REQUIRED_INPUT_COLUMNS /\ c ∉ columns f0) \/
  (e = TypeError /\ (exists x y, x ∈ kept_rows nt due ob f0 /\ x.1 ∈ rows f0 /\
                     cell_at x.1 "Customer Name" = Num y /\ is_nan y = false)).
Proof.
  rewrite process_excel_frame_split. pose proof (process_excel_front_spec nt f0 due ob) as Hs.
  destruct (process_excel_front nt f0 due ob) as [e0|f].
  { intros [= <-]. left. destruct Hs as (c & -> & Hc & Hn). exists c. split_and!; [done| |done].
    unfold REQUIRED_INPUT_COLUMNS. set_solver. }
  destruct Hs as [Hcols Hrows]. destruct (front_num _ _ _ _ _ Hrows) as [Hage Hbd].
  intros H. destruct (process_excel_back_inl _ _ _ _ Hage Hbd H) as [(c & -> & Hc & Hc' & Hn)|[-> (r & x & Hr & Hx & Hnan)]].
  - left. exists c. destruct (final_minus_computed c Hc Hc') as [Hreq Hd]. split_and!; [done|done|].
    intros Hin. apply Hn, Hcols. done.
  - right. split; [done|]. destruct (Forall2_elem_l _ _ _ _ Hrows Hr) as (y & Hy & (Hsame & _)).
    exists y, x. split_and!; [done|by apply kept_rows_raw in Hy as (_ & ? & _)| |done].
    rewrite <- Hsame; [done|dec_in|dec_in].
Qed.

Lemma process_excel_frame_inr nt f0 due daily wd ob g :
  process_excel_frame nt f0 due daily wd ob = inr g ->
  columns g = FINAL_COLUMNS /\
  (forall c, c ∈ REQUIRED_INPUT_COLUMNS -> c ∈ columns f0) /\
  length (rows g) = length (kept_rows nt due ob f0) /\
  forall r, r ∈ rows g -> exists x, x ∈ kept_rows nt due ob f0 /\ x.1 ∈ rows f0 /\
    (forall c, c ∈ PASSTHROUGH_COLUMNS -> cell_at r c = cell_at x.1 c) /\
    cell_at r "Balance Due" = x.2.1 /\
    cell_at r "Amount" = x.2.2.1 /\
    cell_at r "Age" = effective_age ob x.1 x.2.2.2.
Proof.
  rewrite process_excel_frame_split. pose proof (process_excel_front_spec nt f0 due ob) as Hs.
  destruct (process_excel_front nt f0 due ob) as [e0|f]; [discriminate|].
  destruct Hs as [Hcols Hrows]. intros H.
  pose proof (process_excel_back_cols _ _ _ _ H) as Hbc.
  apply process_excel_back_rows in H as (Hg & Hlen & Hprov).
  split; [done|]. split.
  { intros c Hc. assert (Hf : c ∈ FINAL_COLUMNS) by (unfold REQUIRED_INPUT_COLUMNS, FINAL_COLUMNS in *; set_solver).
    assert (Hc' : c ∉ COMPUTED_COLUMNS) by (unfold REQUIRED_INPUT_COLUMNS, COMPUTED_COLUMNS in *;
      repeat (apply elem_of_cons in Hc as [->|Hc]; [dec_in|]); by apply not_elem_of_nil in Hc).
    apply Hcols, Hbc; done. }
  split; [rewrite Hlen; by eapply Forall2_length|].
  intros r Hr. destruct (Hprov r Hr) as (r1 & Hr1 & Hsame).
  destruct (Forall2_elem_l _ _ _ _ Hrows Hr1) as (x & Hx & (Hkeep & Hbd & Ham & Hage)).
  exists x. split_and!; [done|by apply kept_rows_raw in Hx as (_ & ? & _)| | | |].
  - intros c Hc. unfold PASSTHROUGH_COLUMNS in Hc.
    repeat (apply elem_of_cons in Hc as [->|Hc];
      [rewrite Hsame by dec_in; apply Hkeep; dec_in|]); by apply not_elem_of_nil in Hc.
  - rewrite Hsame by dec_in. done.
  - rewrite Hsame by dec_in. done.
  - rewrite Hsame by dec_in. done.
Qed.

Lemma computes_outcome m h r (P : exn -> Prop) (Q : frame -> Prop) :
  computes m h r -> match r with inl e => P e | inr f => Q f end -> outcome m h P Q.
Proof.
  unfold computes, outcome. destruct (m h) as [e|[p h']].
  - by intros ->.
  - intros (f & -> & Hp & _) HQ. eauto.
Qed.

Lemma validate_input_columns_valid df required :
  (validate_input_columns df required).1 = true <-> forall c, c ∈ required -> c ∈ columns df.
Proof.
  unfold validate_input_columns; cbn [fst].
  rewrite bool_decide_eq_true, length_zero_iff_nil. split.
  - intros Hm c Hc. destruct (decide (c ∈ columns df)) as [|Hn]; [done|].
    assert (Hin : c ∈ filter (fun c => c ∉ columns df) (remove_dups required))
      by (apply list_elem_of_filter; split; [done|by apply elem_of_remove_dups]).
    rewrite Hm in Hin. by apply not_elem_of_nil in Hin.
  - intros H. apply filter_all_false. intros c Hc Hn. rewrite elem_of_remove_dups in Hc. apply Hn. by apply H.
Qed.

(** X1: [validate_input_columns] reports the input valid exactly when every required column is a column of the frame, and its list of missing columns holds each required column absent from the frame, once. *)
Theorem validate_input_columns_spec df required :
  ((validate_input_columns df required).1 = true <-> forall c, c ∈ required -> c ∈ columns df) /\
  (forall c, c ∈ (validate_input_columns df required).2 <-> c ∈ required /\ c ∉ columns df) /\
  NoDup (validate_input_columns df required).2.
Proof.
  split_and!; [apply validate_input_columns_valid| |]; unfold validate_input_columns; cbn [snd].
  - intros c. rewrite list_elem_of_filter, elem_of_remove_dups. tauto.
  - apply NoDup_filter, NoDup_remove_dups.
Qed.

(** X2: [process_excel] raises only a KeyError for a required input column the raw frame lacks, or a TypeError when a kept row (see [kept_rows]: an overdue raw row whose effective Age, with the Age column cleaned as [clean_age_column] reads it, is above [due_days]) has a non-missing number as its Customer Name (the sort cannot order it against text). *)
Theorem process_excel_exceptions nt df due daily wd ob (n : nat) o f0 :
  heap_wf (Heap n o) -> o !! df = Some f0 ->
  outcome (process_excel nt df due daily wd ob) (Heap n o)
    (fun e => (exists c, e = KeyError c /\ c ∈ REQUIRED_INPUT_COLUMNS /\ c ∉ columns f0) \/
              (e = TypeError /\ exists x y, x ∈ kept_rows nt due ob f0 /\ x.1 ∈ rows f0 /\
                  cell_at x.1 "Customer Name" = Num y /\ is_nan y = false))
    (fun _ => True).
Proof.
  intros Hwf Hdf. eapply computes_outcome; [by apply process_excel_computes|].
  destruct (process_excel_frame nt f0 due daily wd ob) eqn:E; [|done].
  by apply process_excel_frame_inl in E.
Qed.

Lemma process_excel_exceptions_witness :
  heap_wf sample_heap /\ objs sample_heap !! 0 = Some sample_input /\
  outcome (process_excel no_numbers 0 150 0.06 31 200) sample_heap
    (fun e => (exists c, e = KeyError c /\ c ∈ REQUIRED_INPUT_COLUMNS /\ c ∉ columns sample_input) \/
              (e = TypeError /\ exists x y, x ∈ kept_rows no_numbers 150 200 sample_input /\
                  x.1 ∈ rows sample_input /\
                  cell_at x.1 "Customer Name" = Num y /\ is_nan y = false))
    (fun _ => True).
Proof.
  split; [apply heap_wf_decide; vm_compute; reflexivity|]. split; [reflexivity|].
  apply (process_excel_exceptions no_numbers 0 150 0.06 31 200 1 {[0 := sample_input]} sample_input);
    [apply heap_wf_decide; vm_compute; reflexivity | reflexivity].
Defined.

(** X3: When every Customer Name of the raw frame is text or missing, [process_excel] raises exactly when [validate_input_columns] on the required input columns reports the frame invalid, and returns a frame exactly when it reports it valid. *)
Theorem process_excel_raises_iff_invalid nt df due daily wd ob (n : nat) o f0 :
  heap_wf (Heap n o) -> o !! df = Some f0 ->
  Forall (fun r0 => text_or_missing (cell_at r0 "Customer Name") = true) (rows f0) ->
  outcome (process_excel nt df due daily wd ob) (Heap n o)
    (fun _ => (validate_input_columns f0 REQUIRED_INPUT_COLUMNS).1 = false)
    (fun _ => (validate_input_columns f0 REQUIRED_INPUT_COLUMNS).1 = true).
Proof.
  intros Hwf Hdf Hcn. eapply computes_outcome; [by apply process_excel_computes|].
  pose proof (validate_input_columns_valid f0 REQUIRED_INPUT_COLUMNS) as Hv.
  destruct (process_excel_frame nt f0 due daily wd ob) as [e|g] eqn:E.
  - apply process_excel_frame_inl in E as [(c & _ & Hc & Hn)|(_ & r0 & x & _ & Hr0 & Hx & Hnan)].
    + destruct (validate_input_columns f0 REQUIRED_INPUT_COLUMNS).1; [|done].
      exfalso. apply Hn. by apply Hv.
    + exfalso. rewrite Forall_forall in Hcn. specialize (Hcn r0.1 Hr0).
      rewrite Hx in Hcn. cbn in Hcn. congruence.
  - apply process_excel_frame_inr in E as (_ & Hreq & _). by apply Hv.
Qed.

Lemma process_excel_raises_iff_invalid_witness :
  heap_wf sample_heap /\ objs sample_heap !! 0 = Some sample_input /\
  Forall (fun r0 => text_or_missing (cell_at r0 "Customer Name") = true) (rows sample_input) /\
  outcome (process_excel no_numbers 0 150 0.06 31 200) sample_heap
    (fun _ => (validate_input_columns sample_input REQUIRED_INPUT_COLUMNS).1 = false)
    (fun _ => (validate_input_columns sample_input REQUIRED_INPUT_COLUMNS).1 = true).
Proof.
  split; [apply heap_wf_decide; vm_compute; reflexivity|]. split; [reflexivity|].
  split; [apply (bool_decide_unpack _); vm_compute; exact I|].
  apply (process_excel_raises_iff_invalid no_numbers 0 150 0.06 31 200 1 {[0 := sample_input]} sample_input);
    [apply heap_wf_decide; vm_compute; reflexivity | reflexivity |
     apply (bool_decide_unpack _); vm_compute; exact I].
Defined.

(** X4: The frame [process_excel] returns has as many rows as there are kept rows (see [kept_rows]): raw rows with Status "Overdue" whose effective Age ([ob_age] for an opening-balance row, else the Age as [clean_age_column] cleans the column of the overdue rows' Ages) is above [due_days]. *)
Theorem process_excel_row_count nt df due daily wd ob (n : nat) o f0 :
  heap_wf (Heap n o) -> o !! df = Some f0 ->
  returns (process_excel nt df due daily wd ob) (Heap n o) (fun f =>
    length (rows f) = length (kept_rows nt due ob f0)).
Proof.
  intros Hwf Hdf. eapply computes_returns; [by apply process_excel_computes|].
  intros g Hg. by apply process_excel_frame_inr in Hg as (_ & _ & Hlen & _).
Qed.

Lemma process_excel_row_count_witness :
  heap_wf sample_heap /\ objs sample_heap !! 0 = Some sample_input /\
  returns (process_excel no_numbers 0 150 0.06 31 200) sample_heap (fun f =>
    length (rows f) = length (kept_rows no_numbers 150 200 sample_input)).
Proof.
  split; [apply heap_wf_decide; vm_compute; reflexivity|]. split; [reflexivity|].
  apply (process_excel_row_count no_numbers 0 150 0.06 31 200 1 {[0 := sample_input]} sample_input);
    [apply heap_wf_decide; vm_compute; reflexivity | reflexivity].
Defined.

(** X5: Each row [process_excel] returns comes from a kept row [x] (see [kept_rows]), whose raw row [x.1] is a row of the input: the pass-through columns hold the raw cells, Balance Due and Amount the values [clean_currency_column] gives that row in the overdue rows' columns (Balance Due with NaN filled by 0), and Age the value [clean_age_column] gives it, or [ob_age] for an opening-balance row. *)
Theorem process_excel_row_provenance nt df due daily wd ob (n : nat) o f0 :
  heap_wf (Heap n o) -> o !! df = Some f0 ->
  returns (process_excel nt df due daily wd ob) (Heap n o) (fun f =>
    forall r, r ∈ rows f -> exists x, x ∈ kept_rows nt due ob f0 /\ x.1 ∈ rows f0 /\
      (forall c, c ∈ PASSTHROUGH_COLUMNS -> cell_at r c = cell_at x.1 c) /\
      cell_at r "Balance Due" = x.2.1 /\
      cell_at r "Amount" = x.2.2.1 /\
      cell_at r "Age" = effective_age ob x.1 x.2.2.2).
Proof.
  intros Hwf Hdf. eapply computes_returns; [by apply process_excel_computes|].
  intros g Hg. by apply process_excel_frame_inr in Hg as (_ & _ & _ & Hprov).
Qed.

Lemma process_excel_row_provenance_witness :
  heap_wf sample_heap /\ objs sample_heap !! 0 = Some sample_input /\
  returns (process_excel no_numbers 0 150 0.06 31 200) sample_heap (fun f =>
    forall r, r ∈ rows f -> exists x, x ∈ kept_rows no_numbers 150 200 sample_input /\
      x.1 ∈ rows sample_input /\
      (forall c, c ∈ PASSTHROUGH_COLUMNS -> cell_at r c = cell_at x.1 c) /\
      cell_at r "Balance Due" = x.2.1 /\
      cell_at r "Amount" = x.2.2.1 /\
      cell_at r "Age" = effective_age 200 x.1 x.2.2.2).
Proof.
  split; [apply heap_wf_decide; vm_compute; reflexivity|]. split; [reflexivity|].
  apply (process_excel_row_provenance no_numbers 0 150 0.06 31 200 1 {[0 := sample_input]} sample_input);
    [apply heap_wf_decide; vm_compute; reflexivity | reflexivity].
Defined.








Lemma kept_opening_balance due ob x :
  kept_row due ob x = true -> cell_at x.1 "Type" = Str "Customer Opening Balance" ->
  (due <? ob)%float = true.
Proof. intros Hk Hty. unfold kept_row, effective_age in Hk. rewrite Hty in Hk. cbn in Hk. done. Qed.

(** X6: When [ob_age] is not above [due_days], no row [process_excel] returns has Type "Customer Opening Balance". *)
Theorem process_excel_no_opening_balance nt df due daily wd ob (n : nat) o f0 :
  heap_wf (Heap n o) -> o !! df = Some f0 -> (due <? ob)%float = false ->
  returns (process_excel nt df due daily wd ob) (Heap n o) (fun f =>
    forall r, r ∈ rows f -> cell_at r "Type" <> Str "Customer Opening Balance").
Proof.
  intros Hwf Hdf Hob. eapply computes_returns; [by apply process_excel_computes|].
  intros g Hg r Hr Hty. apply process_excel_frame_inr in Hg as (_ & _ & _ & Hprov).
  destruct (Hprov r Hr) as (x & Hx & _ & Hpass & _).
  rewrite Hpass in Hty by (unfold PASSTHROUGH_COLUMNS; set_solver).
  unfold kept_rows in Hx. apply list_elem_of_filter in Hx as [Hk _]. apply Is_true_true in Hk.
  pose proof (kept_opening_balance _ _ _ Hk Hty). congruence.
Qed.

Lemma process_excel_no_opening_balance_witness :
  heap_wf sample_heap /\ objs sample_heap !! 0 = Some sample_input /\ (150 <? 100)%float = false /\
  returns (process_excel no_numbers 0 150 0.06 31 100) sample_heap (fun f =>
    forall r, r ∈ rows f -> cell_at r "Type" <> Str "Customer Opening Balance").
Proof.
  split; [apply heap_wf_decide; vm_compute; reflexivity|]. split; [reflexivity|]. split; [reflexivity|].
  apply (process_excel_no_opening_balance no_numbers 0 150 0.06 31 100 1 {[0 := sample_input]} sample_input);
    [apply heap_wf_decide; vm_compute; reflexivity | reflexivity | reflexivity].
Defined.

(** X7: Every Balance Due cell of the frame [process_excel] returns is a number that is not NaN. *)
Theorem process_excel_balance_due_number nt df due daily wd ob (n : nat) o f0 :
  heap_wf (Heap n o) -> o !! df = Some f0 ->
  returns (process_excel nt df due daily wd ob) (Heap n o) (fun f =>
    forall r, r ∈ rows f -> exists bd, cell_at r "Balance Due" = Num bd /\ is_nan bd = false).
Proof.
  intros Hwf Hdf. eapply computes_returns; [by apply process_excel_computes|].
  intros g Hg r Hr. apply process_excel_frame_inr in Hg as (_ & _ & _ & Hprov).
  destruct (Hprov r Hr) as (x & Hx & _ & _ & -> & _).
  apply kept_rows_raw in Hx as [Hx _]. destruct (cleaned_balance_num _ _ _ Hx) as (b & -> & Hb).
  by exists b.
Qed.

Lemma process_excel_balance_due_number_witness :
  heap_wf sample_heap /\ objs sample_heap !! 0 = Some sample_input /\
  returns (process_excel no_numbers 0 150 0.06 31 200) sample_heap (fun f =>
    forall r, r ∈ rows f -> exists bd, cell_at r "Balance Due" = Num bd /\ is_nan bd = false).
Proof.
  split; [apply heap_wf_decide; vm_compute; reflexivity|]. split; [reflexivity|].
  apply (process_excel_balance_due_number no_numbers 0 150 0.06 31 200 1 {[0 := sample_input]} sample_input);
    [apply heap_wf_decide; vm_compute; reflexivity | reflexivity].
Defined.

Lemma sub_self_within p : (0.01 <? PrimFloat.abs (p - p))%float = false.
Proof.
  rewrite FloatAxioms.ltb_spec, FloatAxioms.abs_spec, FloatAxioms.sub_spec.
  destruct (Prim2SF p) as [s|s| |s m e].
  - destruct s; vm_compute; reflexivity.
  - destruct s; vm_compute; reflexivity.
  - vm_compute; reflexivity.
  - unfold SF64sub, SpecFloat.SFsub. rewrite Z.sub_diag. vm_compute. reflexivity.
Qed.

Lemma compare_value_self num_str decimal prow col v : compare_value num_str decimal prow col v v = None.
Proof.
  unfold compare_value. destruct (negb (is_na v)); cbn; [|done].
  destruct (py_float decimal v) as [p|].
  - by rewrite sub_self_within.
  - by rewrite String.eqb_refl.
Qed.

Lemma select_all_present cs f :
  Forall (fun c => c ∈ columns f) cs ->
  select cs f = inr (Frame cs (map (fun r : row => filter (fun kv : string * cell => kv.1 ∈ cs) r) (rows f))).
Proof.
  intros H. unfold select. rewrite (proj2 (list_find_None _ _)); [done|].
  eapply Forall_impl; [exact H|]. cbn. intros c Hc Hn. by apply Hn.
Qed.

Lemma composite_key_ok num_str f kc :
  Forall (fun c => c ∈ columns f) kc -> (rows f <> [] \/ length kc < 2) ->
  composite_key num_str f kc = inr (map (row_key num_str kc) (rows f)).
Proof.
  intros Hc Hne. destruct (composite_key num_str f kc) as [e|k] eqn:E.
  - exfalso. unfold composite_key in E. rewrite select_all_present in E by done.
    cbn [rows] in E. case_bool_decide as Hb; [|discriminate].
    destruct Hb as [Hb Hl]. destruct Hne as [Hne|Hne]; [|lia].
    apply Hne. by destruct (rows f).
  - by rewrite (composite_key_rows _ _ _ _ E).
Qed.

Lemma composite_key_inl num_str f kc e :
  composite_key num_str f kc = inl e ->
  (exists c, e = KeyError c /\ c ∈ kc /\ c ∉ columns f) \/
  (e = ValueError /\ Forall (fun c => c ∈ columns f) kc /\ rows f = [] /\ 2 <= length kc).
Proof.
  unfold composite_key. destruct (select kc f) as [e'|sub] eqn:Es.
  - intros [= <-]. left. by apply select_inl.
  - case_bool_decide as Hb; [|discriminate]. intros [= <-]. right.
    unfold select in Es. destruct list_find as [[]|] eqn:Ef; [discriminate|].
    injection Es as <-. cbn in Hb. destruct Hb as [Hb Hl].
    split; [done|]. split.
    + apply list_find_None in Ef. eapply Forall_impl; [exact Ef|]. cbn. intros c Hc.
      destruct (decide (c ∈ columns f)); [done|]. by exfalso.
    + split; [|done]. by destruct (rows f).
Qed.

Lemma isin_self_key num_str kc (rs : list row) r :
  r ∈ rs -> isin (row_key num_str kc r) (map (row_key num_str kc) rs) = true.
Proof.
  intros Hr. apply existsb_exists. exists (row_key num_str kc r). split.
  - apply list_elem_of_In. by apply list_elem_of_fmap_2.
  - unfold row_key. cbn. apply String.eqb_refl.
Qed.

(** X10: Comparing a frame with itself, [get_detailed_mismatches] raises nothing and reports that there are no mismatches, when the key columns are present and the frame has rows (or fewer than two key columns). *)
Theorem get_detailed_mismatches_self num_str P E kc (n : nat) o T :
  heap_wf (Heap n o) -> o !! P = Some T -> o !! E = Some T ->
  Forall (fun c => c ∈ columns T) (default DEFAULT_KEY_COLUMNS kc) ->
  rows T <> [] \/ length (default DEFAULT_KEY_COLUMNS kc) < 2 ->
  outcome (get_detailed_mismatches num_str P E kc) (Heap n o) (fun _ => False)
    (fun f => f = message_frame "Message" "No mismatches found! Data matches perfectly.").
Proof.
  intros Hwf Hp He Hkc Hne. eapply computes_outcome; [by apply get_detailed_mismatches_computes|].
  unfold detailed_mismatches_frame.
  rewrite (proj2 (list_find_None _ _)).
  2:{ eapply Forall_impl; [exact Hkc|]. cbn. intros c Hc [Hn|Hn]; by apply Hn. }
  rewrite composite_key_ok by done.
  set (k := map (row_key num_str (default DEFAULT_KEY_COLUMNS kc)) (rows T)).
  destruct (get_col_assigned "_composite_key" k T) as [pk Hpk]. rewrite Hpk.
  apply get_col_assign_same in Hpk; [|apply length_map]. subst pk.
  cbn zeta. cbn [take_rows rows columns assign]. unfold k. rewrite !mask_records.
  rewrite filter_all_false; [done|].
  intros r Hr. rewrite isin_self_key by done. cbn. auto.
Qed.

(** X11: [get_detailed_mismatches] raises only a ValueError, and only when all key columns are present, there are at least two of them and one of the two frames has no rows. *)
Theorem get_detailed_mismatches_exceptions num_str P E kc (n : nat) o pf ef :
  heap_wf (Heap n o) -> o !! P = Some pf -> o !! E = Some ef ->
  outcome (get_detailed_mismatches num_str P E kc) (Heap n o)
    (fun e => e = ValueError /\
       Forall (fun c => c ∈ columns pf /\ c ∈ columns ef) (default DEFAULT_KEY_COLUMNS kc) /\
       2 <= length (default DEFAULT_KEY_COLUMNS kc) /\ (rows pf = [] \/ rows ef = []))
    (fun _ => True).
Proof.
  intros Hwf Hp He. eapply computes_outcome; [by apply get_detailed_mismatches_computes|].
  unfold detailed_mismatches_frame.
  set (kc' := default DEFAULT_KEY_COLUMNS kc).
  destruct (list_find _ kc') as [[i c]|] eqn:Ef; [done|].
  assert (Hkc : Forall (fun c => c ∈ columns pf /\ c ∈ columns ef) kc').
  { apply list_find_None in Ef. eapply Forall_impl; [exact Ef|]. cbn. intros c Hc.
    destruct (decide (c ∈ columns pf)), (decide (c ∈ columns ef)); naive_solver. }
  destruct (composite_key num_str pf kc') as [e|k] eqn:Ekp.
  { apply composite_key_inl in Ekp as [(c & -> & Hc & Hn)|(-> & _ & Hr & Hl)].
    - exfalso. rewrite Forall_forall in Hkc. by apply Hn, Hkc.
    - split_and!; auto. }
  destruct (composite_key num_str ef kc') as [e|k'] eqn:Eke.
  { apply composite_key_inl in Eke as [(c & -> & Hc & Hn)|(-> & _ & Hr & Hl)].
    - exfalso. rewrite Forall_forall in Hkc. by apply Hn, Hkc.
    - split_and!; auto. }
  destruct (get_col_assigned "_composite_key" k pf) as [pk ->].
  destruct (get_col_assigned "_composite_key" k' ef) as [ek ->].
  cbn zeta. by destruct (_ ++ _).
Qed.




Lemma mapE_all_inr {A B} (g : A -> exn + B) l :
  (forall x, x ∈ l -> exists y, g x = inr y) -> exists l', mapE g l = inr l'.
Proof.
  induction l as [|x l IH]; intros H; [by exists []|].
  destruct (H x ltac:(left)) as [y Hy].
  destruct IH as [l' Hl']; [intros z Hz; apply H; by right|].
  exists (y :: l'). cbn. by rewrite Hy, Hl'.
Qed.

Lemma first_with_key_found num_str kc f key r :
  r ∈ rows f -> key_text_of num_str kc r = key ->
  exists r', first_with_key (assign "_composite_key" (map (row_key num_str kc) (rows f)) f) key = inr r'.
Proof.
  intros Hr Hk. unfold first_with_key. destruct list_find as [[i r']|] eqn:Ef; [eauto|].
  exfalso. apply list_find_None in Ef. rewrite Forall_forall in Ef.
  apply (Ef (<["_composite_key" := row_key num_str kc r]> r)).
  - cbn [rows assign]. rewrite zip_with_map_self. apply list_elem_of_fmap. by exists r.
  - rewrite cell_at_insert_eq. unfold row_key. cbn. rewrite Hk. apply String.eqb_refl.
Qed.

Lemma common_key_rows num_str kc pf ef key :
  key ∈ common_keys num_str (map (row_key num_str kc) (rows pf)) (map (row_key num_str kc) (rows ef)) ->
  (exists rp, rp ∈ rows pf /\ key_text_of num_str kc rp = key) /\
  (exists re, re ∈ rows ef /\ key_text_of num_str kc re = key).
Proof.
  unfold common_keys. rewrite elem_of_remove_dups, list_elem_of_filter, map_map.
  intros [Hex Hk]. split.
  - apply list_elem_of_fmap in Hk as (rp & -> & Hrp). eauto.
  - apply Is_true_true, existsb_exists in Hex as (v & Hv & Hvk). apply list_elem_of_In in Hv.
    apply list_elem_of_fmap in Hv as (re & -> & Hre). apply String.eqb_eq in Hvk. eauto.
Qed.

(** X12: [get_value_comparison] raises only a KeyError for a key column missing from one frame, or a ValueError when one of the frames has no rows. *)
Theorem get_value_comparison_exceptions num_str set_order decimal P E cc (n : nat) o pf ef :
  heap_wf (Heap n o) -> o !! P = Some pf -> o !! E = Some ef ->
  (forall l x, x ∈ set_order l -> x ∈ l) ->
  outcome (get_value_comparison num_str set_order decimal P E cc) (Heap n o)
    (fun e => (exists c, e = KeyError c /\ c ∈ DEFAULT_KEY_COLUMNS /\ (c ∉ columns pf \/ c ∉ columns ef)) \/
              (e = ValueError /\ (rows pf = [] \/ rows ef = [])))
    (fun _ => True).
Proof.
  intros Hwf Hp He Hso. eapply computes_outcome; [by apply get_value_comparison_computes|].
  unfold value_comparison_frame.
  destruct (composite_key num_str pf DEFAULT_KEY_COLUMNS) as [e|k] eqn:Ekp.
  { apply composite_key_inl in Ekp as [(c & -> & Hc & Hn)|(-> & _ & Hr & _)]; [left; eauto|right; auto]. }
  destruct (composite_key num_str ef DEFAULT_KEY_COLUMNS) as [e|k'] eqn:Eke.
  { apply composite_key_inl in Eke as [(c & -> & Hc & Hn)|(-> & _ & Hr & _)]; [left; eauto|right; auto]. }
  apply composite_key_rows in Ekp as ->, Eke as ->.
  destruct (get_col_assigned "_composite_key" (map (row_key num_str DEFAULT_KEY_COLUMNS) (rows pf)) pf) as [pk Hpk].
  destruct (get_col_assigned "_composite_key" (map (row_key num_str DEFAULT_KEY_COLUMNS) (rows ef)) ef) as [ek Hek].
  rewrite Hpk, Hek.
  apply get_col_assign_same in Hpk, Hek; try apply length_map. subst pk ek.
  cbn zeta. destruct (common_keys _ _ _) as [|k0 ks] eqn:Ec; [done|].
  match goal with |- context [mapE ?g ?l] => destruct (mapE_all_inr g l) as [recs ->] end.
  { intros key Hkey. apply elem_of_take in Hkey as (? & Hkey%list_elem_of_lookup_2 & _).
    apply Hso in Hkey. rewrite <- Ec in Hkey.
    destruct (common_key_rows _ _ _ _ _ Hkey) as [(rp & Hrp & Hkp) (re & Hre & Hke)].
    unfold key_records.
    destruct (first_with_key_found _ _ _ _ _ Hrp Hkp) as [r1 ->].
    destruct (first_with_key_found _ _ _ _ _ Hre Hke) as [r2 ->]. eauto. }
  by destruct (concat recs).
Qed.

Lemma mapE_all_nil {A B} (g : A -> exn + list B) l :
  (forall x, x ∈ l -> g x = inr []) -> exists recs, mapE g l = inr recs /\ concat recs = [].
Proof.
  induction l as [|x l IH]; intros H; [by exists []|].
  destruct IH as (recs & Hr & Hc); [intros z Hz; apply H; by right|].
  exists ([] :: recs). cbn. rewrite (H x ltac:(left)), Hr. done.
Qed.

Lemma omap_compare_self num_str decimal (pf : frame) r (cs : list string) :
  omap (fun col => if bool_decide (col ∈ columns pf /\ col ∈ columns pf)
                   then compare_value num_str decimal r col (cell_at r col) (cell_at r col) else None) cs = [].
Proof.
  induction cs as [|c cs IH]; [done|]. cbn. case_bool_decide; [rewrite compare_value_self|]; done.
Qed.

(** X13: Comparing a non-empty frame with the key columns against itself, [get_value_comparison] raises nothing and reports that all compared values match. *)
Theorem get_value_comparison_self num_str set_order decimal P E cc (n : nat) o T :
  heap_wf (Heap n o) -> o !! P = Some T -> o !! E = Some T ->
  (forall l x, x ∈ set_order l -> x ∈ l) ->
  "Customer Name" ∈ columns T -> "Transaction#" ∈ columns T -> rows T <> [] ->
  outcome (get_value_comparison num_str set_order decimal P E cc) (Heap n o) (fun _ => False)
    (fun f => f = message_frame "Message" "All compared values match!").
Proof.
  intros Hwf Hp He Hso Hcn Htr Hne. eapply computes_outcome; [by apply get_value_comparison_computes|].
  unfold value_comparison_frame.
  rewrite composite_key_ok by (unfold DEFAULT_KEY_COLUMNS; auto).
  set (k := map (row_key num_str DEFAULT_KEY_COLUMNS) (rows T)).
  destruct (get_col_assigned "_composite_key" k T) as [pk Hpk]. rewrite Hpk.
  apply get_col_assign_same in Hpk; [|apply length_map]. subst pk.
  cbn zeta. destruct (common_keys num_str k k) as [|k0 ks] eqn:Ec.
  { exfalso. destruct (rows T) as [|r rs] eqn:Hr; [done|].
    assert (Hin : key_text_of num_str DEFAULT_KEY_COLUMNS r ∈ common_keys num_str k k).
    { unfold common_keys. apply elem_of_remove_dups, list_elem_of_filter. unfold k. try rewrite Hr.
      cbn [map]. split.
      - apply Is_true_true. cbn. by rewrite String.eqb_refl.
      - left. }
    rewrite Ec in Hin. by apply not_elem_of_nil in Hin. }
  match goal with |- context [mapE ?g ?l] => destruct (mapE_all_nil g l) as (recs & -> & ->) end; [|done].
  intros key Hkey. apply elem_of_take in Hkey as (? & Hkey%list_elem_of_lookup_2 & _).
  apply Hso in Hkey. rewrite <- Ec in Hkey.
  destruct (common_key_rows _ _ _ _ _ Hkey) as [(rp & Hrp & Hkp) _].
  unfold key_records, k. destruct (first_with_key_found _ _ _ _ _ Hrp Hkp) as [r1 ->].
  f_equal. apply omap_compare_self.
Qed.

(** X14: [compare_dataframes] reports matching columns exactly when its lists of extra and missing columns are both empty. *)
Theorem compare_dataframes_columns_match pf ef :
  cc_columns_match (compare_dataframes pf ef) = true <->
  cc_extra_in_processed (compare_dataframes pf ef) = [] /\
  cc_missing_in_processed (compare_dataframes pf ef) = [].
Proof.
  unfold compare_dataframes. cbn [cc_columns_match cc_extra_in_processed cc_missing_in_processed].
  rewrite andb_true_iff, !forallb_forall.
  assert (Hnil : forall (xs ys : list string),
    (forall x, In x xs -> bool_decide (x ∈ ys) = true) <-> filter (fun c => c ∉ ys) xs = []).
  { intros xs ys. split.
    - intros H. apply (filter_all_false (fun c => c ∉ ys)). intros x Hx Hn.
      apply list_elem_of_In in Hx. specialize (H x Hx). apply bool_decide_eq_true_1 in H. by apply Hn.
    - intros H x Hx%list_elem_of_In. apply bool_decide_eq_true_2.
      destruct (decide (x ∈ ys)) as [|Hn]; [done|]. exfalso.
      assert (Hin : x ∈ filter (fun c => c ∉ ys) xs) by (apply list_elem_of_filter; done).
      rewrite H in Hin. by apply not_elem_of_nil in Hin. }
  by rewrite !Hnil.
Qed.

(** X15: Swapping the processed and expected frames negates the row difference, swaps the extra and missing column lists and the extra and missing customer lists, and keeps the columns-match flag. *)
Theorem compare_dataframes_swap pf ef :
  rc_difference (compare_dataframes ef pf) = (- rc_difference (compare_dataframes pf ef))%Z /\
  cc_extra_in_processed (compare_dataframes ef pf) = cc_missing_in_processed (compare_dataframes pf ef) /\
  cc_missing_in_processed (compare_dataframes ef pf) = cc_extra_in_processed (compare_dataframes pf ef) /\
  cc_columns_match (compare_dataframes ef pf) = cc_columns_match (compare_dataframes pf ef) /\
  extra_in_processed (compare_dataframes ef pf) = missing_in_processed (compare_dataframes pf ef) /\
  missing_in_processed (compare_dataframes ef pf) = extra_in_processed (compare_dataframes pf ef).
Proof.
  unfold compare_dataframes. cbn [rc_difference cc_extra_in_processed cc_missing_in_processed
    cc_columns_match extra_in_processed missing_in_processed].
  split_and!; [lia|done|done|apply andb_comm| |];
    rewrite (andb_comm (bool_decide ("Customer Name" ∈ columns ef)));
    by destruct (_ && _).
Qed.

Lemma py_eq_str t y : py_eq (Str t) y = true <-> y = Str t.
Proof. destruct y as [s|x]; cbn; [rewrite String.eqb_eq; naive_solver|naive_solver]. Qed.

Lemma str_in_unique_acc acc l t : Str t ∈ unique_acc acc l <-> Str t ∈ acc \/ Str t ∈ l.
Proof.
  revert acc; induction l as [|x l IH]; intros acc; cbn.
  - rewrite list_elem_of_In, <- in_rev, <- list_elem_of_In. split; [by left|]. intros [?|Hn]; [done|].
    by apply not_elem_of_nil in Hn.
  - destruct existsb eqn:Hex.
    + rewrite IH, elem_of_cons. split; [tauto|]. intros [?|[Heq|?]]; [tauto| |tauto].
      subst x. left. apply existsb_exists in Hex as (y & Hy & Hxy). apply orb_prop in Hxy as [Hxy|Hxy]; [|cbn in Hxy; discriminate].
      apply py_eq_str in Hxy as ->. by apply list_elem_of_In.
    + rewrite IH, !elem_of_cons. tauto.
Qed.

Lemma str_in_set_diff_unique xs ys t :
  Str t ∈ set_diff (unique xs) (unique ys) <-> Str t ∈ xs /\ Str t ∉ ys.
Proof.
  unfold set_diff, unique. rewrite list_elem_of_filter, str_in_unique_acc.
  assert (Hys : existsb (py_eq (Str t)) (unique_acc [] ys) = true <-> Str t ∈ ys).
  { rewrite existsb_exists. split.
    - intros (y & Hy & Hty). apply py_eq_str in Hty as ->. apply list_elem_of_In, str_in_unique_acc in Hy.
      destruct Hy as [Hn|]; [by apply not_elem_of_nil in Hn|done].
    - intros Hy. exists (Str t). split; [apply list_elem_of_In, str_in_unique_acc; by right|by apply py_eq_str]. }
  destruct (existsb (py_eq (Str t)) (unique_acc [] ys)) eqn:E; cbn.
  - split; [intros [Hn _]; by destruct Hn|]. intros [_ Hn]. exfalso. by apply Hn, Hys.
  - split.
    + intros [_ [Hn|Hx]]; [by apply not_elem_of_nil in Hn|]. split; [done|]. intros Hy. apply Hys in Hy. congruence.
    + intros [Hx _]. split; [done|]. by right.
Qed.

(** X16: A text Customer Name is listed as an extra customer exactly when both frames have the Customer Name column and the name occurs in the processed frame but not in the expected one; symmetrically for missing customers. *)
Theorem compare_dataframes_customers pf ef t :
  (Str t ∈ default [] (extra_in_processed (compare_dataframes pf ef)) <->
     "Customer Name" ∈ columns pf /\ "Customer Name" ∈ columns ef /\
     (exists r, r ∈ rows pf /\ cell_at r "Customer Name" = Str t) /\
     ~ exists r, r ∈ rows ef /\ cell_at r "Customer Name" = Str t) /\
  (Str t ∈ default [] (missing_in_processed (compare_dataframes pf ef)) <->
     "Customer Name" ∈ columns pf /\ "Customer Name" ∈ columns ef /\
     (exists r, r ∈ rows ef /\ cell_at r "Customer Name" = Str t) /\
     ~ exists r, r ∈ rows pf /\ cell_at r "Customer Name" = Str t).
Proof.
  unfold compare_dataframes. cbn [extra_in_processed missing_in_processed].
  assert (Hcol : forall f, Str t ∈ map (fun r => cell_at r "Customer Name") (rows f) <->
                   exists r, r ∈ rows f /\ cell_at r "Customer Name" = Str t).
  { intros f. rewrite list_elem_of_fmap. naive_solver. }
  destruct (bool_decide ("Customer Name" ∈ columns pf)) eqn:Hp,
           (bool_decide ("Customer Name" ∈ columns ef)) eqn:He; cbn;
    rewrite ?str_in_set_diff_unique, ?Hcol;
    apply bool_decide_eq_true_1 in Hp || apply bool_decide_eq_false_1 in Hp;
    apply bool_decide_eq_true_1 in He || apply bool_decide_eq_false_1 in He;
    split; split; try tauto; intros Hn; by apply not_elem_of_nil in Hn.
Qed.

Lemma get_detailed_mismatches_self_witness :
  heap_wf (pair_heap sample_input sample_input) /\
  Forall (fun c => c ∈ columns sample_input) DEFAULT_KEY_COLUMNS /\ rows sample_input <> [] /\
  outcome (get_detailed_mismatches (fun _ => "0") 0 1 None) (pair_heap sample_input sample_input)
    (fun _ => False) (fun f => f = message_frame "Message" "No mismatches found! Data matches perfectly.").
Proof.
  split; [apply heap_wf_decide; vm_compute; reflexivity|].
  split; [dec_in|]. split; [discriminate|].
  apply (get_detailed_mismatches_self (fun _ => "0") 0 1 None 2 {[0 := sample_input; 1 := sample_input]} sample_input);
    [apply heap_wf_decide; vm_compute; reflexivity|reflexivity|reflexivity|dec_in|left; discriminate].
Defined.

Lemma get_detailed_mismatches_exceptions_witness :
  heap_wf (pair_heap sample_input empty_frame) /\
  outcome (get_detailed_mismatches (fun _ => "0") 0 1 None) (pair_heap sample_input empty_frame)
    (fun e => e = ValueError /\
       Forall (fun c => c ∈ columns sample_input /\ c ∈ columns empty_frame) DEFAULT_KEY_COLUMNS /\
       2 <= length DEFAULT_KEY_COLUMNS /\ (rows sample_input = [] \/ rows empty_frame = []))
    (fun _ => True).
Proof.
  split; [apply heap_wf_decide; vm_compute; reflexivity|].
  apply (get_detailed_mismatches_exceptions (fun _ => "0") 0 1 None 2 {[0 := sample_input; 1 := empty_frame]});
    [apply heap_wf_decide; vm_compute; reflexivity|reflexivity|reflexivity].
Defined.

Lemma get_value_comparison_exceptions_witness :
  heap_wf (pair_heap sample_input empty_frame) /\ (forall (l : list string) x, x ∈ (fun l : list string => l) l -> x ∈ l) /\
  outcome (get_value_comparison (fun _ => "0") (fun l : list string => l) (fun _ => None) 0 1 None) (pair_heap sample_input empty_frame)
    (fun e => (exists c, e = KeyError c /\ c ∈ DEFAULT_KEY_COLUMNS /\
                 (c ∉ columns sample_input \/ c ∉ columns empty_frame)) \/
              (e = ValueError /\ (rows sample_input = [] \/ rows empty_frame = [])))
    (fun _ => True).
Proof.
  split; [apply heap_wf_decide; vm_compute; reflexivity|].
  split; [intros l x Hx; exact Hx|].
  apply (get_value_comparison_exceptions (fun _ => "0") (fun l : list string => l) (fun _ => None) 0 1 None 2
           {[0 := sample_input; 1 := empty_frame]});
    [apply heap_wf_decide; vm_compute; reflexivity|reflexivity|reflexivity|intros l x Hx; exact Hx].
Defined.

Lemma get_value_comparison_self_witness :
  heap_wf (pair_heap sample_input sample_input) /\
  "Customer Name" ∈ columns sample_input /\ "Transaction#" ∈ columns sample_input /\ rows sample_input <> [] /\
  outcome (get_value_comparison (fun _ => "0") (fun l : list string => l) (fun _ => None) 0 1 None) (pair_heap sample_input sample_input)
    (fun _ => False) (fun f => f = message_frame "Message" "All compared values match!").
Proof.
  split; [apply heap_wf_decide; vm_compute; reflexivity|].
  split; [dec_in|]. split; [dec_in|]. split; [discriminate|].
  apply (get_value_comparison_self (fun _ => "0") (fun l : list string => l) (fun _ => None) 0 1 None 2
           {[0 := sample_input; 1 := sample_input]} sample_input);
    [apply heap_wf_decide; vm_compute; reflexivity|reflexivity|reflexivity|intros l x Hx; exact Hx|dec_in|dec_in|discriminate].
Defined.
